(** * GeometryCharacterization: structure extraction and box counting

    A shallow embedding of [src/extractStructuresSerial.py] (the
    26-connectivity labeler with the marching-cubes correction and the
    percolation statistics) and of [src/box_count_func.py] (the pyramid
    OR-reduction), with the properties of the design document stated and
    settled against the embedded code.

    Conventions.  Python integers are [Z].  A numpy array of rank 3 is a
    shape together with a total cell function; every subscript goes through
    numpy's index rule ([np_index]): a negative index counts from the end,
    and only an index outside [-n, n) raises [IndexError].  Scalars of the
    field are binary64 floats.  Python exceptions are explicit outcomes. *)

From Stdlib Require Import ZArith List Bool Lia Floats Sorted Permutation.
Import ListNotations.
Open Scope Z_scope.

(* ================================================================== *)
(** * Python outcomes *)

Inductive exn : Type :=
| IndexError
| ValueError
| UnboundLocalError
| TypingError.          (* numba: a jitted function that cannot be typed *)

(** The result of running a piece of Python: a value, an exception that
    nothing caught, or the loop budget of the model running out. *)
Inductive outcome (A : Type) : Type :=
| Ok (a : A)
| Raise (e : exn)
| OutOfFuel.

Arguments Ok {A} a.
Arguments Raise {A} e.
Arguments OutOfFuel {A}.

Definition bind {A B : Type} (m : outcome A) (k : A -> outcome B) : outcome B :=
  match m with
  | Ok a => k a
  | Raise e => Raise e
  | OutOfFuel => OutOfFuel
  end.

Notation "x <- m ;; k" := (bind m (fun x => k))
  (at level 61, m at next level, right associativity).
Notation "' p <- m ;; k" := (bind m (fun p => k))
  (at level 61, p pattern, m at next level, right associativity).

(** A subscript outside a [try]: [IndexError] propagates. *)
Definition subscript {A : Type} (o : option A) : outcome A :=
  match o with
  | Some a => Ok a
  | None => Raise IndexError
  end.

(** [for x in l: s = body x s], stopping at the first exception. *)
Fixpoint for_each {A S : Type} (l : list A) (body : A -> S -> outcome S) (s : S)
  : outcome S :=
  match l with
  | [] => Ok s
  | x :: l' => s' <- body x s ;; for_each l' body s'
  end.

(** [range(n)] *)
Definition range (n : Z) : list Z := map Z.of_nat (seq 0 (Z.to_nat n)).

(** [range(start, stop, step)] for a positive step, by a bounded count. *)
Fixpoint range_from (count : nat) (start step : Z) : list Z :=
  match count with
  | O => []
  | S c => start :: range_from c (start + step) step
  end.

Definition range_step (start stop step : Z) : list Z :=
  if (step <=? 0) || (stop <=? start) then []
  else range_from (Z.to_nat ((stop - start + step - 1) / step)) start step.

(* ================================================================== *)
(** * numpy arrays of rank 3 *)

Module Numpy.

Definition idx3 : Type := (Z * Z * Z)%type.

Definition idx3_eqb (p q : idx3) : bool :=
  let '(a, b, c) := p in
  let '(x, y, z) := q in
  (a =? x) && (b =? y) && (c =? z).

Definition idx3_add (p d : idx3) : idx3 :=
  let '(a, b, c) := p in
  let '(x, y, z) := d in
  (a + x, b + y, c + z).

Record ndarray (A : Type) : Type := mkArr {
  shape : idx3;
  cell : idx3 -> A
}.

Arguments mkArr {A} shape cell.
Arguments shape {A} n.
Arguments cell {A} n i.

(** numpy's rule for one subscript on an axis of length [n]. *)
Definition np_index (n i : Z) : option Z :=
  if (0 <=? i) && (i <? n) then Some i
  else if (i <? 0) && (- n <=? i) then Some (i + n)
  else None.

Definition np_index3 (sh : idx3) (p : idx3) : option idx3 :=
  let '(nx, ny, nz) := sh in
  let '(i, j, k) := p in
  match np_index nx i, np_index ny j, np_index nz k with
  | Some i', Some j', Some k' => Some (i', j', k')
  | _, _, _ => None
  end.

(** [a[i, j, k]]; [None] is [IndexError]. *)
Definition getitem {A : Type} (a : ndarray A) (p : idx3) : option A :=
  match np_index3 (shape a) p with
  | Some q => Some (cell a q)
  | None => None
  end.

(** [a[i, j, k] = v]; [None] is [IndexError]. *)
Definition setitem {A : Type} (a : ndarray A) (p : idx3) (v : A) : option (ndarray A) :=
  match np_index3 (shape a) p with
  | Some q => Some (mkArr (shape a) (fun r => if idx3_eqb r q then v else cell a r))
  | None => None
  end.

(** [np.zeros(shape)] with [z] the zero of the dtype. *)
Definition full {A : Type} (sh : idx3) (z : A) : ndarray A := mkArr sh (fun _ => z).

(** The cells of a shape in C order (last axis fastest): the order of
    three nested [for ... in range] loops and of [ravel()]. *)
Definition coords (sh : idx3) : list idx3 :=
  let '(nx, ny, nz) := sh in
  flat_map (fun i => flat_map (fun j => map (fun k => (i, j, k)) (range nz)) (range ny))
           (range nx).

(** The cells of a shape in Fortran order (first axis fastest). *)
Definition coords_F (sh : idx3) : list idx3 :=
  let '(nx, ny, nz) := sh in
  flat_map (fun k => flat_map (fun j => map (fun i => (i, j, k)) (range nx)) (range ny))
           (range nz).

Definition size3 (sh : idx3) : Z := let '(nx, ny, nz) := sh in nx * ny * nz.

Definition in_shape (sh : idx3) (p : idx3) : bool :=
  let '(nx, ny, nz) := sh in
  let '(i, j, k) := p in
  (0 <=? i) && (i <? nx) && (0 <=? j) && (j <? ny) && (0 <=? k) && (k <? nz).

(** [a.ravel()] *)
Definition ravel {A : Type} (a : ndarray A) : list A := map (cell a) (coords (shape a)).

(** The length of [a[:x]] on an axis of length [n]: a bound beyond the
    axis is cut to it, a negative bound counts from the end. *)
Definition slice_stop (x n : Z) : Z :=
  if x <? 0 then Z.max 0 (n + x) else Z.min x n.

(** [a[:x, :y, :z]] *)
Definition crop {A : Type} (a : ndarray A) (sh : idx3) : ndarray A :=
  let '(nx, ny, nz) := shape a in
  let '(x, y, z) := sh in
  mkArr (slice_stop x nx, slice_stop y ny, slice_stop z nz) (cell a).

(** What an entry of a [float32] array holds after an integer is stored
    in it: the nearest number with 24 significant bits, ties going to the
    even one.  The result is an integer again and is kept as such.  (The
    integers stored are counts of cells, far below the largest
    [float32].) *)
Definition float32_of_int (v : Z) : Z :=
  if Z.abs v <=? 2 ^ 24 then v
  else
    let e := Z.log2 (Z.abs v) - 23 in
    let q := Z.abs v / 2 ^ e in
    let r := Z.abs v mod 2 ^ e in
    let half := 2 ^ (e - 1) in
    let q' := if r <? half then q
              else if half <? r then q + 1
              else if Z.even q then q else q + 1 in
    Z.sgn v * (q' * 2 ^ e).

(** The element types of the float arrays of the scripts. *)
Inductive dtype : Type := float32 | float64.

(** [np.float32(f)] for a Python float [f]: the nearest number with 24
    significant bits in the exponent range of the format, ties going to
    the even one, too large a value going to infinity; the result is a
    [float] again.  Zeros, infinities and NaN are kept. *)
Definition to_float32 (f : float) : float :=
  match Prim2SF f with
  | S754_finite s m e =>
      SF2Prim (match binary_round 24 128 s m e with
               | S754_finite s' m' e' => binary_round 53 1024 s' m' e'
               | x => x
               end)
  | _ => f
  end.

(** A Python float as an array of element type [dt] holds it, and as
    numpy converts it before it is combined with such an array. *)
Definition cast (dt : dtype) (f : float) : float :=
  match dt with
  | float32 => to_float32 f
  | float64 => f
  end.

(** Python's [l[i]] on a list. *)
Definition list_get {A : Type} (l : list A) (i : Z) : option A :=
  match np_index (Z.of_nat (length l)) i with
  | Some n => nth_error l (Z.to_nat n)
  | None => None
  end.

End Numpy.

Import Numpy.

(* ================================================================== *)
(** * The object store

    Arrays are Python objects: a variable holds a reference, an item
    assignment changes the object every holder of the reference sees, and
    an assignment to a variable only rebinds it. *)

Module Store.

Definition loc : Type := nat.

Definition store (O : Type) : Type := list O.

Definition deref {O : Type} (h : store O) (l : loc) : option O := nth_error h l.

Fixpoint update {O : Type} (h : store O) (l : loc) (o : O) : store O :=
  match h, l with
  | [], _ => []
  | _ :: h', O => o :: h'
  | x :: h', S l' => x :: update h' l' o
  end.

(** A fresh object: the new reference and the extended store. *)
Definition alloc {O : Type} (h : store O) (o : O) : loc * store O :=
  (length h, h ++ [o]).

End Store.

Import Store.

(* ================================================================== *)
(** * box_count_func.py

    The field [c] is an array of booleans, as the script's own test
    builds it, and [p] is an integer.  [n] is the [float32] array of line
    87: an entry is the [float32] nearest to the integer stored in it,
    which is an integer, and the model keeps that integer.  Subscripts are
    checked as in plain Python.  The sums, the box sides and [r] are
    64-bit integers in the script and unbounded here: an array has fewer
    than [2^63] cells, so on a cube of side [2^p] none of them comes near
    the bound. *)

Module BoxCount.

(** [_array[i, j, k]] on the object behind a reference. *)
Definition load (h : store (ndarray bool)) (c : loc) (p : idx3) : outcome bool :=
  match deref h c with
  | Some a => subscript (getitem a p)
  | None => Raise ValueError
  end.

(** [c[i, j, k] = v]: the object behind the reference is changed in place. *)
Definition assign (h : store (ndarray bool)) (c : loc) (p : idx3) (v : bool)
  : outcome (store (ndarray bool)) :=
  match deref h c with
  | Some a => a' <- subscript (setitem a p v) ;; Ok (update h c a')
  | None => Raise ValueError
  end.

(** The nested [getSum]: the number of true cells. *)
Definition getSum (h : store (ndarray bool)) (xlen ylen zlen : Z) (_array : loc)
  : outcome Z :=
  for_each (coords (xlen, ylen, zlen))
    (fun p _sum => b <- load h _array p ;; Ok (if b then _sum + 1 else _sum)) 0.

(** [int(x) or int(y) or ...]: the operands right of a true one are not
    evaluated. *)
Fixpoint or_chain (h : store (ndarray bool)) (c : loc) (ps : list idx3) : outcome bool :=
  match ps with
  | [] => Ok false
  | [p] => load h c p
  | p :: ps' => b <- load h c p ;; if b then Ok true else or_chain h c ps'
  end.

(** The eight operands of line 62, in its order. *)
Definition operands (i j k siz2 : Z) : list idx3 :=
  [ (i, j, k); (i + siz2, j, k); (i, j + siz2, k); (i + siz2, j + siz2, k);
    (i, j, k + siz2); (i + siz2, j, k + siz2); (i, j + siz2, k + siz2);
    (i + siz2, j + siz2, k + siz2) ].

(** The body of the innermost loop: lines 62 and 63. *)
Definition reduce_cell (c : loc) (siz2 : Z) (p : idx3)
  (st : store (ndarray bool) * Z) : outcome (store (ndarray bool) * Z) :=
  let '(h, c_sum) := st in
  let '(i, j, k) := p in
  v <- or_chain h c (operands i j k siz2) ;;
  h' <- assign h c (i, j, k) v ;;
  w <- load h' c (i, j, k) ;;
  Ok (h', c_sum + (if w then 1 else 0)).

(** The cells visited by the three loops of lines 59 to 61. *)
Definition level_cells (width siz : Z) : list idx3 :=
  let r := range_step 0 (width - siz + 1) siz in
  flat_map (fun i => flat_map (fun j => map (fun k => (i, j, k)) r) r) r.

(** [n[i] = v] on the [float32] array of counts: the integer is rounded
    to [float32] as it is stored. *)
Definition n_set (n : list Z) (i : Z) (v : Z) : outcome (list Z) :=
  match np_index (Z.of_nat (length n)) i with
  | Some m =>
      Ok (firstn (Z.to_nat m) n ++ float32_of_int v :: skipn (S (Z.to_nat m)) n)
  | None => Raise IndexError
  end.

(** One iteration of [for g in reverse_range]. *)
Definition level (c : loc) (p width : Z) (g : Z)
  (st : store (ndarray bool) * list Z) : outcome (store (ndarray bool) * list Z) :=
  let '(h, n) := st in
  let siz := 2 ^ (p - g) in
  let siz2 := siz / 2 in
  '(h', c_sum) <- for_each (level_cells width siz) (reduce_cell c siz2) (h, 0) ;;
  n' <- n_set n (- g - 1) c_sum ;;
  Ok (h', n').

Definition computeFast (h : store (ndarray bool)) (xlen ylen zlen : Z) (c : loc)
  (p width : Z) (reverse_range : list Z) (n : list Z)
  : outcome (store (ndarray bool) * list Z) :=
  s <- getSum h xlen ylen zlen c ;;
  n0 <- n_set n 0 s ;;
  for_each reverse_range (level c p width) (h, n0).

(** [boxCountFunc(c, p, width)]: the final store, [n] and [r].

    [computeFast] is compiled by numba when it is called.  With no level
    ([int(p) <= 0]) [reverse_range] is [np.array([])], an array of floats,
    so [g] is a float and the subscript [n[-g-1]] of line 64 cannot be
    typed: the call raises TypingError before any line of [computeFast]
    runs.  With at least one level [reverse_range] holds integers. *)
Definition boxCountFunc (h : store (ndarray bool)) (c : loc) (p width : Z)
  : outcome (store (ndarray bool) * (list Z * list Z)) :=
  let reverse_range := rev (range p) in
  let n := repeat 0 (length reverse_range + 1) in
  let r := map (fun e => 2 ^ e) (range (p + 1)) in
  match deref h c with
  | Some a =>
      let '(xlen, ylen, zlen) := shape a in
      match reverse_range with
      | [] => Raise TypingError
      | _ :: _ =>
          '(h', n') <- computeFast h xlen ylen zlen c p width reverse_range n ;;
          Ok (h', (n', r))
      end
  | None => Raise ValueError
  end.

End BoxCount.

(* ================================================================== *)
(** * extractStructuresSerial.py

    Modelled: the loop over the thresholds with the variable [c] it
    rebinds, the reshape, the threshold filter, the padding, the scan with
    the [while True] expansion of a structure (26 guarded checks, the
    marching-cubes correction, the appends to [_neighborVal]), the crop and
    the statistics with the record written to Percolation_threshold.txt.
    Left out, since nothing reads them or no property here is about them:
    the timer, the counters [_numberOfNeighbors] and [_outlierCaseCount],
    the flag [sysErrFlag], and the bounding-box lines written to
    NeighborInformation.txt.  [_marchingCubesExt], a global of the script,
    and the loop budget [fuel] of the model are arguments. *)

Module Extract.

(** ** Objects the variable [c] is bound to *)

Inductive pyobj : Type :=
| FloatArray1 (dt : dtype) (data : list float)
    (* the field, [np.array(data, dtype = dt)]: the script passes float32 *)
| BoolArray3 (a : ndarray bool).    (* a padded occupancy grid *)

Definition b2f (b : bool) : float := if b then 1%float else 0%float.

Definition obj_size (o : pyobj) : Z :=
  match o with
  | FloatArray1 _ data => Z.of_nat (length data)
  | BoolArray3 a => size3 (shape a)
  end.

(** The element type a Python float is converted to when it is compared
    with the object: the element type of a float array; a bool array is
    compared in float64. *)
Definition obj_dtype (o : pyobj) : dtype :=
  match o with
  | FloatArray1 dt _ => dt
  | BoolArray3 _ => float64
  end.

(** The elements of an object in the order [np.reshape] reads them. *)
Definition elements (zFastest : bool) (o : pyobj) : list float :=
  match o with
  | FloatArray1 dt data => map (cast dt) data
  | BoolArray3 a =>
      map (fun q => b2f (cell a q))
          (if zFastest then coords (shape a) else coords_F (shape a))
  end.

(** The position of cell [(i, j, k)] of a shape in C and in Fortran order. *)
Definition flat_index (zFastest : bool) (sh : idx3) (q : idx3) : Z :=
  let '(nx, ny, nz) := sh in
  let '(i, j, k) := q in
  if zFastest then (i * ny + j) * nz + k else i + nx * (j + ny * k).

(** A negative dimension in the shape given to [np.reshape] stands for
    the one dimension numpy infers: the size divided by the product of
    the others.  [None] when two dimensions are negative, or the others
    multiply to 0 or do not divide the size. *)
Definition unknown_dimension (size : Z) (sh : idx3) : option idx3 :=
  let '(nx, ny, nz) := sh in
  let known (d : Z) := if d <? 0 then 1 else d in
  let s_known := known nx * known ny * known nz in
  let unknowns := length (filter (fun d => d <? 0) [nx; ny; nz]) in
  if (1 <? unknowns)%nat then None
  else if (s_known =? 0) || negb (size mod s_known =? 0) then None
  else
    let fix_dim (d : Z) := if d <? 0 then size / s_known else d in
    Some (fix_dim nx, fix_dim ny, fix_dim nz).

(** [np.reshape(c, [xlen, ylen, zlen])] and its [order = 'F'] variant;
    a size that does not match raises [ValueError]. *)
Definition np_reshape (o : pyobj) (sh : idx3) (zFastest : bool) : outcome (ndarray float) :=
  let '(nx, ny, nz) := sh in
  let data := elements zFastest o in
  if (nx <? 0) || (ny <? 0) || (nz <? 0) then
    match unknown_dimension (obj_size o) sh with
    | Some sh' =>
        Ok (mkArr sh' (fun q => nth (Z.to_nat (flat_index zFastest sh' q)) data 0%float))
    | None => Raise ValueError
    end
  else if negb (obj_size o =? size3 sh) then Raise ValueError
  else
    Ok (mkArr sh (fun q => nth (Z.to_nat (flat_index zFastest sh q)) data 0%float)).

(** ** ThresholdFilter (lines 39 to 44)

    [_threshVal > 0] compares the Python number itself; [c > _threshVal]
    and [c < _threshVal] compare an array with a Python number, which
    numpy first converts to the element type [dt] of the array. *)

Definition threshold (dt : dtype) (_threshVal : float) (c : ndarray float) : ndarray bool :=
  if PrimFloat.ltb 0%float _threshVal
  then mkArr (shape c) (fun q => PrimFloat.ltb (cast dt _threshVal) (cell c q))
  else mkArr (shape c) (fun q => PrimFloat.ltb (cell c q) (cast dt _threshVal)).

(** ** GridPadder (lines 48 to 50) *)

(** [np.zeros] raises ValueError on a negative dimension, and the
    assignment [mz[:a, :b, :e] = c] on an axis of [c] that neither fits
    [mz] nor has length 1 (an axis of length 1 is broadcast, here into an
    empty slice). *)
Definition pad_fits (xlen ylen zlen : Z) (c : ndarray bool) : bool :=
  let '(a, b, e) := shape c in
  (0 <=? xlen + 1) && (0 <=? ylen + 1) && (0 <=? zlen + 1) &&
  ((a <=? xlen + 1) || (a =? 1)) &&
  ((b <=? ylen + 1) || (b =? 1)) &&
  ((e <=? zlen + 1) || (e =? 1)).

Definition pad (xlen ylen zlen : Z) (c : ndarray bool) : ndarray bool :=
  mkArr (xlen + 1, ylen + 1, zlen + 1)
        (fun q => if in_shape (shape c) q then cell c q else false).

(** ** The 26 neighbor offsets, under the names of their flags *)

Definition f1 : idx3 := (1, 0, 0).
Definition f2 : idx3 := (-1, 0, 0).
Definition f3 : idx3 := (0, 1, 0).
Definition f4 : idx3 := (0, -1, 0).
Definition f5 : idx3 := (0, 0, 1).
Definition f6 : idx3 := (0, 0, -1).

Definition e1 : idx3 := (1, 1, 0).
Definition e2 : idx3 := (1, -1, 0).
Definition e3 : idx3 := (-1, 1, 0).
Definition e4 : idx3 := (-1, -1, 0).
Definition e5 : idx3 := (1, 0, 1).
Definition e6 : idx3 := (-1, 0, 1).
Definition e7 : idx3 := (0, 1, 1).
Definition e8 : idx3 := (0, -1, 1).
Definition e9 : idx3 := (1, 0, -1).
Definition e10 : idx3 := (-1, 0, -1).
Definition e11 : idx3 := (0, 1, -1).
Definition e12 : idx3 := (0, -1, -1).

Definition c1 : idx3 := (1, 1, 1).
Definition c2 : idx3 := (1, -1, 1).
Definition c3 : idx3 := (-1, 1, 1).
Definition c4 : idx3 := (-1, -1, 1).
Definition c5 : idx3 := (1, 1, -1).
Definition c6 : idx3 := (1, -1, -1).
Definition c7 : idx3 := (-1, 1, -1).
Definition c8 : idx3 := (-1, -1, -1).

(** The order of the 26 guarded checks (lines 145 to 537), which is also
    the order of the appends to [_neighborVal] (lines 795 to 871). *)
Definition neighbor_checks : list idx3 :=
  [ f1; f2; f3; f4; f5; f6;
    e1; e2; e3; e4; e5; e6; e7; e8; e9; e10; e11; e12;
    c1; c2; c3; c4; c5; c6; c7; c8 ].

(** The flags [_f1 ... _c8], indexed by their offset. *)
Definition flags : Type := idx3 -> bool.

Definition no_flags : flags := fun _ => false.

Definition flag_on (fl : flags) (d : idx3) : flags :=
  fun e => if idx3_eqb e d then true else fl e.

(** A store into the [uint32] label grid keeps the low 32 bits. *)
Definition uint32 (v : Z) : Z := v mod 2 ^ 32.

(** What a check writes into [_auxCube]: [1], except line 305, which
    writes [_structVal]. *)
Definition aux_mark (d : idx3) (_structVal : Z) : Z :=
  if idx3_eqb d e5 then _structVal else 1.

(** One guarded check: [try: if c[..]: if not grid[..] > 0: ... except
    IndexError: pass]. *)
Definition link (c : ndarray bool) (_structVal : Z) (p : idx3)
  (st : ndarray Z * ndarray Z * flags) (d : idx3) : ndarray Z * ndarray Z * flags :=
  let '(g, aux, fl) := st in
  let q := idx3_add p d in
  match getitem c q with
  | Some true =>
      match getitem g q with
      | Some l =>
          if 0 <? l then st
          else
            match setitem g q (uint32 _structVal) with
            | Some g' =>
                match setitem aux d (aux_mark d _structVal) with
                | Some aux' => (g', aux', flag_on fl d)
                | None => (g', aux, fl)
                end
            | None => st
            end
      | None => st
      end
  | _ => st
  end.

(** ** AmbiguityResolver (lines 539 to 793) *)

(** The eight octants as lists of flags; [true] is the expanded cell. *)
Definition _cubes (fl : flags) : list (list bool) :=
  [ [fl f6;  fl e9;  fl c6;  fl e12; true;   fl f1;  fl e2;  fl f4];
    [fl e10; fl f6;  fl e12; fl c8;  fl f2;  true;   fl f4;  fl e4];
    [fl c7;  fl e11; fl f6;  fl e10; fl e3;  fl f3;  true;   fl f2];
    [fl e11; fl c5;  fl e9;  fl f6;  fl f3;  fl e1;  fl f1;  true];
    [true;   fl f1;  fl e2;  fl f4;  fl f5;  fl e5;  fl c2;  fl e8];
    [fl f2;  true;   fl f4;  fl e4;  fl e6;  fl f5;  fl e8;  fl c4];
    [fl e3;  fl f3;  true;   fl f2;  fl c3;  fl e7;  fl f5;  fl e6];
    [fl f3;  fl e1;  fl f1;  true;   fl e7;  fl c1;  fl e5;  fl f5] ].

Definition find_case_number (_cube : list bool) : Z :=
  fold_left (fun acc v => match list_get _cube v with
                          | Some true => acc + 2 ^ v
                          | _ => acc
                          end) (range 8) 0.

Definition _cases (fl : flags) : list Z := map find_case_number (_cubes fl).

(** The corner of octant [ii] that is the expanded cell: the number each
    branch tests with [not in]. *)
Definition anchor (ii : Z) : Z :=
  match ii with
  | 0 => 4 | 1 => 5 | 2 => 6 | 3 => 7
  | 4 => 0 | 5 => 1 | 6 => 2 | 7 => 3
  | _ => -1
  end.

(** The cell a branch [if _removeVal[kk] == v] of octant [ii] resets. *)
Definition remove_target (ii v : Z) : option idx3 :=
  match ii, v with
  | 0, 0 => Some (0, 0, -1)   | 0, 1 => Some (1, 0, -1)   | 0, 2 => Some (1, -1, -1)
  | 0, 3 => Some (0, -1, -1)  | 0, 5 => Some (1, 0, 0)    | 0, 6 => Some (1, -1, 0)
  | 0, 7 => Some (0, -1, 0)
  | 1, 0 => Some (-1, 0, -1)  | 1, 1 => Some (0, 0, -1)   | 1, 2 => Some (0, -1, -1)
  | 1, 3 => Some (-1, -1, -1) | 1, 4 => Some (-1, 0, 0)   | 1, 6 => Some (0, -1, 0)
  | 1, 7 => Some (-1, -1, 0)
  | 2, 0 => Some (-1, 1, -1)  | 2, 1 => Some (0, 1, -1)   | 2, 2 => Some (0, 0, -1)
  | 2, 3 => Some (-1, 0, -1)  | 2, 4 => Some (-1, 1, 0)   | 2, 5 => Some (0, 1, 0)
  | 2, 7 => Some (-1, 0, 0)
  | 3, 0 => Some (0, 1, -1)   | 3, 1 => Some (1, 1, -1)   | 3, 2 => Some (1, 0, -1)
  | 3, 3 => Some (0, 0, -1)   | 3, 4 => Some (0, 1, 0)    | 3, 5 => Some (1, 1, 0)
  | 3, 6 => Some (1, 0, 0)
  | 4, 1 => Some (1, 0, 0)    | 4, 2 => Some (1, -1, 0)   | 4, 3 => Some (0, -1, 0)
  | 4, 4 => Some (0, 0, 1)    | 4, 5 => Some (1, 0, 1)    | 4, 6 => Some (1, -1, 1)
  | 4, 7 => Some (0, -1, 1)
  | 5, 0 => Some (-1, 0, 0)   | 5, 2 => Some (0, -1, 0)   | 5, 3 => Some (-1, -1, 0)
  | 5, 4 => Some (-1, 0, 1)   | 5, 5 => Some (0, 0, 1)    | 5, 6 => Some (0, -1, 1)
  | 5, 7 => Some (-1, -1, 1)
  | 6, 0 => Some (-1, 1, 0)   | 6, 1 => Some (0, 1, 0)    | 6, 3 => Some (-1, 0, 0)
  | 6, 4 => Some (-1, 1, 1)   | 6, 5 => Some (0, 1, 1)    | 6, 6 => Some (0, 0, 1)
  | 6, 7 => Some (-1, 0, 1)
  | 7, 0 => Some (0, 1, 0)    | 7, 1 => Some (1, 1, 0)    | 7, 2 => Some (1, 0, 0)
  | 7, 4 => Some (0, 1, 1)    | 7, 5 => Some (1, 1, 1)    | 7, 6 => Some (1, 0, 1)
  | 7, 7 => Some (0, 0, 1)
  | _, _ => None
  end.

(** [_structValuedGrid[..] = 0; _auxCube[..] = 0]; not inside a [try]. *)
Definition retract (p d : idx3) (st : ndarray Z * ndarray Z)
  : outcome (ndarray Z * ndarray Z) :=
  let '(g, aux) := st in
  g' <- subscript (setitem g (idx3_add p d) 0) ;;
  aux' <- subscript (setitem aux d 0) ;;
  Ok (g', aux').

(** [for kk in range(len(_removeVal)): ...] *)
Definition remove_points (ii : Z) (p : idx3) (_removeVal : list Z)
  (st : ndarray Z * ndarray Z) : outcome (ndarray Z * ndarray Z) :=
  for_each _removeVal
    (fun v s => match remove_target ii v with
                | Some d => retract p d s
                | None => Ok s
                end) st.

(** [for jj in range(len(_caseVal)): if anchor not in _caseVal[jj]: ...] *)
Definition resolve_octant (ii : Z) (p : idx3) (_caseVal : list (list Z))
  (st : ndarray Z * ndarray Z) : outcome (ndarray Z * ndarray Z) :=
  for_each _caseVal
    (fun _removeVal s =>
       if existsb (Z.eqb (anchor ii)) _removeVal then Ok s
       else remove_points ii p _removeVal s) st.

(** ** StatisticsReporter (lines 892 to 918) *)

(** [np.unique(..., return_counts = True)]: the distinct values in
    increasing order, each with its number of occurrences. *)
Fixpoint tally (v : Z) (u : list (Z * Z)) : list (Z * Z) :=
  match u with
  | [] => [(v, 1)]
  | (w, n) :: u' =>
      if v =? w then (w, n + 1) :: u'
      else if v <? w then (v, 1) :: (w, n) :: u'
      else (w, n) :: tally v u'
  end.

Definition np_unique (l : list Z) : list (Z * Z) :=
  fold_left (fun u v => tally v u) l [].

Fixpoint insert_sorted (v : Z) (l : list Z) : list Z :=
  match l with
  | [] => [v]
  | w :: l' => if v <=? w then v :: w :: l' else w :: insert_sorted v l'
  end.

(** [countsall.sort()] *)
Definition sort (l : list Z) : list Z := fold_right insert_sorted [] l.

Definition sum (l : list Z) : Z := fold_left Z.add l 0.

(** Lines 900 to 911: [Vmax] and [Vall] from the flattened label grid. *)
Definition statistics (labels : list Z) : outcome (Z * Z) :=
  let counts := map snd (np_unique labels) in
  let countsall := sort counts in
  Vmax <- subscript (list_get (rev countsall) 1) ;;
  let Vall := sum (skipn 1 (rev countsall)) in
  Ok (Vmax, Vall).

(** ** The loop over the thresholds (lines 27 to 922) *)

Record run_state : Type := mkRun {
  heap : store pyobj;                     (* the objects *)
  c_ref : loc;                            (* what the variable [c] refers to *)
  processing : list float;                (* 'Processing threshold Value' lines *)
  percolation : list (float * Z * Z);     (* Percolation_threshold.txt *)
  structValuedGrid : option (list Z)      (* [_structValuedGrid], once bound *)
}.

Section WithOutliers.

(** [MCOutliers.outliers]: the case table, which is not part of the
    sources at hand; the labeler is parametric in it. *)
Variable outliers : Z -> list (list Z).

(** [for ii in range(8): _caseVal = outliers(_cases[ii]) ...] *)
Definition resolver (p : idx3) (fl : flags) (st : ndarray Z * ndarray Z)
  : outcome (ndarray Z * ndarray Z) :=
  for_each (range 8)
    (fun ii s => cs <- subscript (list_get (_cases fl) ii) ;;
                 resolve_octant ii p (outliers cs) s) st.

(** ** Frontier additions (lines 795 to 871) *)

Definition additions (p : idx3) (aux : ndarray Z) : outcome (list idx3) :=
  for_each neighbor_checks
    (fun d acc => v <- subscript (getitem aux d) ;;
                  Ok (if v =? 0 then acc else acc ++ [idx3_add p d])) [].

(** ** One pass of the body of [while True] after the cell is chosen *)

Definition expand_cell (_marchingCubesExt : bool) (c : ndarray bool) (_structVal : Z)
  (p : idx3) (g : ndarray Z) : outcome (ndarray Z * list idx3) :=
  let '(g1, aux1, fl) :=
    fold_left (link c _structVal p) neighbor_checks (g, full (3, 3, 3) 0, no_flags) in
  '(g2, aux2) <- (if _marchingCubesExt then resolver p fl (g1, aux1) else Ok (g1, aux1)) ;;
  adds <- additions p aux2 ;;
  Ok (g2, adds).

(** ** The [while True] loop (lines 83 to 873) *)

Fixpoint expand (fuel : nat) (_marchingCubesExt : bool) (c : ndarray bool)
  (_structVal : Z) (g : ndarray Z) (_neighborVal : list idx3)
  (_loopCounter _neighborCounter : Z) (p : idx3) : outcome (ndarray Z * list idx3) :=
  match fuel with
  | O => OutOfFuel
  | S fuel' =>
      let next :=
        if 0 <? _loopCounter then
          match list_get _neighborVal _neighborCounter with
          | Some q => Some (q, _neighborCounter + 1)
          | None => None                      (* except IndexError: break *)
          end
        else Some (p, _neighborCounter) in
      match next with
      | None => Ok (g, _neighborVal)
      | Some (p', nc') =>
          '(g', adds) <- expand_cell _marchingCubesExt c _structVal p' g ;;
          expand fuel' _marchingCubesExt c _structVal g' (_neighborVal ++ adds)
                 (_loopCounter + 1) nc' p'
      end
  end.

(** ** The scan (lines 57 to 77): state is [_structVal], the label grid
    and the values printed by [print(_structVal)]. *)

Definition visit (fuel : nat) (_marchingCubesExt : bool) (c : ndarray bool) (p : idx3)
  (st : Z * ndarray Z * list Z) : outcome (Z * ndarray Z * list Z) :=
  let '(_structVal, g, printed) := st in
  occupied <- subscript (getitem c p) ;;
  if occupied then
    l <- subscript (getitem g p) ;;
    if 0 <? l then Ok st
    else
      let _structVal' := _structVal + 1 in
      g1 <- subscript (setitem g p (uint32 _structVal')) ;;
      '(g2, _) <- expand fuel _marchingCubesExt c _structVal' g1 [] 0 0 p ;;
      Ok (_structVal', g2, printed ++ [_structVal'])
  else Ok st.

Definition label_structures (fuel : nat) (_marchingCubesExt : bool) (c : ndarray bool)
  (xlen ylen zlen : Z) : outcome (Z * ndarray Z * list Z) :=
  for_each (coords (xlen + 1, ylen + 1, zlen + 1))
           (visit fuel _marchingCubesExt c)
           (0, full (xlen + 1, ylen + 1, zlen + 1) 0, []).

Definition pass (fuel : nat) (_marchingCubesExt : bool) (xlen ylen zlen : Z)
  (_zFastest _writePercolationData : bool) (_threshVal : float) (st : run_state)
  : outcome run_state :=
  o <- match deref (heap st) (c_ref st) with
       | Some o => Ok o
       | None => Raise ValueError
       end ;;
  c0 <- np_reshape o (xlen, ylen, zlen) _zFastest ;;
  let c1 := threshold (obj_dtype o) _threshVal c0 in
  _ <- (if pad_fits xlen ylen zlen c1 then Ok tt else Raise ValueError) ;;
  let mz := pad xlen ylen zlen c1 in
  let '(l, h') := alloc (heap st) (BoolArray3 mz) in
  '(_, g, _) <- label_structures fuel _marchingCubesExt mz xlen ylen zlen ;;
  let flat := ravel (crop g (xlen, ylen, zlen)) in
  '(Vmax, Vall) <- statistics flat ;;
  Ok (mkRun h' l
            (processing st ++ [_threshVal])
            (if _writePercolationData
             then percolation st ++ [(_threshVal, Vmax, Vall)]
             else percolation st)
            (Some flat)).

(** [extractStructures]: the parameter [c] is a reference to the caller's
    array.  The result is the final store, the records written and the
    returned grid. *)
Definition extractStructures (fuel : nat) (_marchingCubesExt : bool)
  (h : store pyobj) (_threshValList : list float) (c : loc) (xlen ylen zlen : Z)
  (_zFastest _writePercolationData : bool)
  : outcome (store pyobj * list (float * Z * Z) * list Z) :=
  st <- for_each _threshValList
          (pass fuel _marchingCubesExt xlen ylen zlen _zFastest _writePercolationData)
          (mkRun h c [] [] None) ;;
  match structValuedGrid st with
  | Some flat => Ok (heap st, percolation st, flat)
  | None => Raise UnboundLocalError
  end.

End WithOutliers.

End Extract.

Import Extract.

(* ================================================================== *)
(** * Properties: statistics *)

(** The statistics as the design document words them: the largest count
    among the positive labels, and the number of cells with a positive
    label. *)
Definition count_label (v : Z) (labels : list Z) : Z :=
  Z.of_nat (length (filter (Z.eqb v) labels)).

Definition spec_maxStructureVolume (labels : list Z) : Z :=
  fold_left Z.max
    (map (fun v => if 0 <? v then count_label v labels else 0) labels) 0.

Definition spec_totalNonTrivialVolume (labels : list Z) : Z :=
  Z.of_nat (length (filter (Z.ltb 0) labels)).

Lemma np_unique_zeros (n : nat) : np_unique (repeat 0 (S n)) = [(0, Z.of_nat (S n))].
Proof.
  unfold np_unique.
  assert (H : forall m k, 0 < k ->
            fold_left (fun u v => tally v u) (repeat 0 m) [(0, k)]
            = [(0, k + Z.of_nat m)]).
  { induction m as [|m IH]; intros k Hk; simpl.
    - f_equal. f_equal. lia.
    - rewrite IH by lia. f_equal. f_equal. lia. }
  simpl. rewrite H by lia. f_equal. f_equal. lia.
Qed.

Lemma statistics_zeros (n : nat) : statistics (repeat 0 (S n)) = Raise IndexError.
Proof.
  unfold statistics. rewrite np_unique_zeros. reflexivity.
Qed.

(** A field of one cell below the threshold: the all-empty grid. *)
Definition empty_field : store pyobj := [FloatArray1 float32 [0%float]].

(** A field of three cells, the first two above the threshold. *)
Definition two_of_three : store pyobj :=
  [FloatArray1 float32 [2%float; 2%float; 0%float]].

(** C1.  The statistics take the second largest of all counts, label 0
    included: on an all-empty grid there is one count only and line 908
    raises IndexError, so no record (threshold, 0, 0) is written; and on a
    grid whose structure outnumbers the background the reported pair is
    (1, 1) where the largest structure and the occupied volume are 2. *)
Theorem statistics_take_second_largest_count :
  (forall n, statistics (repeat 0 (S n)) = Raise IndexError) /\
  (forall mc tab, extractStructures tab 3 mc empty_field [1%float] 0%nat 1 1 1 true true
                  = Raise IndexError) /\
  (forall tab,
      match extractStructures tab 5 false two_of_three [1%float] 0%nat 3 1 1 true true with
      | Ok (_, records, labels) =>
          labels = [1; 1; 0] /\ records = [(1%float, 1, 1)] /\
          spec_maxStructureVolume labels = 2 /\ spec_totalNonTrivialVolume labels = 2
      | _ => False
      end).
Proof.
  split; [exact statistics_zeros|]. split.
  - intros mc tab. destruct mc; vm_compute; reflexivity.
  - intros tab. vm_compute. repeat split; reflexivity.
Qed.

(* ================================================================== *)
(** * Properties: the store, the threshold filter and the threshold loop *)

Lemma deref_alloc_new {O : Type} (h : store O) (o : O) :
  deref (snd (alloc h o)) (fst (alloc h o)) = Some o.
Proof.
  unfold alloc, deref; simpl. rewrite nth_error_app2 by lia.
  replace (length h - length h)%nat with 0%nat by lia. reflexivity.
Qed.

Lemma deref_alloc_old {O : Type} (h : store O) (o : O) (l : loc) :
  (l < length h)%nat -> deref (snd (alloc h o)) l = deref h l.
Proof.
  intros Hl. unfold alloc, deref; simpl. now rewrite nth_error_app1.
Qed.

Lemma deref_bound {O : Type} (h : store O) (l : loc) (o : O) :
  deref h l = Some o -> (l < length h)%nat.
Proof.
  unfold deref. intros H. apply nth_error_Some. congruence.
Qed.

(** An outcome that is not a normal return. *)
Definition aborted {A : Type} (o : outcome A) : Prop :=
  match o with
  | Ok _ => False
  | _ => True
  end.

Lemma bind_ok {A B : Type} (m : outcome A) (k : A -> outcome B) (b : B) :
  bind m k = Ok b -> exists a, m = Ok a /\ k a = Ok b.
Proof.
  destruct m; simpl; intros H; try discriminate. eauto.
Qed.

Tactic Notation "bind_inv" hyp(H) "as" simple_intropattern(a) ident(E) :=
  apply bind_ok in H; destruct H as (a & E & H).

Lemma for_each_aborted {A S : Type} (body : A -> S -> outcome S) (l : list A) (s : S) :
  (forall x s', In x l -> aborted (body x s')) -> l <> [] -> aborted (for_each l body s).
Proof.
  destruct l as [|x l]; [congruence|]. intros H _. simpl.
  specialize (H x s (or_introl eq_refl)).
  destruct (body x s); simpl; auto. contradiction.
Qed.

Section Passes.

Variable outliers : Z -> list (list Z).
Variables (fuel : nat) (_marchingCubesExt : bool) (xlen ylen zlen : Z).
Variables (_zFastest _writePercolationData : bool).

Let run_pass := pass outliers fuel _marchingCubesExt xlen ylen zlen
                     _zFastest _writePercolationData.

(** What a pass that returns has done to the store and to [c]. *)
Lemma pass_ok (t : float) (st st' : run_state) :
  run_pass t st = Ok st' ->
  exists o c0,
    deref (heap st) (c_ref st) = Some o /\
    np_reshape o (xlen, ylen, zlen) _zFastest = Ok c0 /\
    heap st' = heap st
               ++ [BoolArray3 (pad xlen ylen zlen (threshold (obj_dtype o) t c0))] /\
    c_ref st' = length (heap st) /\
    processing st' = processing st ++ [t].
Proof.
  unfold run_pass, pass. intros H.
  bind_inv H as o' E. destruct (deref (heap st) (c_ref st)) as [o|] eqn:Ho; [|discriminate].
  injection E as <-.
  bind_inv H as c0 Er. bind_inv H as u Ef. unfold alloc in H.
  bind_inv H as [[sv g] pr] El.
  bind_inv H as [Vmax Vall] Es.
  injection H as <-. exists o, c0. simpl. repeat split; auto.
Qed.

Lemma flat_map_nil {A B : Type} (f : A -> list B) (l : list A) :
  (forall x, f x = []) -> flat_map f l = [].
Proof.
  intros H. induction l as [|x l IH]; cbn [flat_map]; [reflexivity|].
  now rewrite H, IH.
Qed.

(** A dimension that is 0 or less leaves no cell. *)
Lemma coords_empty (nx ny nz : Z) :
  nx <= 0 \/ ny <= 0 \/ nz <= 0 -> coords (nx, ny, nz) = [].
Proof.
  assert (R : forall n, n <= 0 -> range n = []).
  { intros n Hn. unfold range. now replace (Z.to_nat n) with 0%nat by lia. }
  intros H. unfold coords. destruct H as [H|[H|H]].
  - now rewrite (R nx H).
  - rewrite (R ny H). now apply flat_map_nil.
  - rewrite (R nz H). apply flat_map_nil. intros i. now apply flat_map_nil.
Qed.

(** A pass returns only for dimensions that are not negative: -1 gives a
    grid without cells, whose statistics raise IndexError, and anything
    below makes [np.zeros] raise ValueError. *)
Lemma pass_dims (t : float) (st st' : run_state) :
  run_pass t st = Ok st' -> 0 <= xlen /\ 0 <= ylen /\ 0 <= zlen.
Proof.
  unfold run_pass, pass. intros H.
  bind_inv H as o E. bind_inv H as c0 Er. bind_inv H as u Ef. unfold alloc in H.
  bind_inv H as [[sv g] pr] El. bind_inv H as [Vmax Vall] Es.
  destruct (pad_fits xlen ylen zlen _) eqn:Hfit; [|discriminate].
  unfold pad_fits in Hfit. destruct (shape (threshold _ t c0)) as [[a b] e].
  rewrite !andb_true_iff, !Z.leb_le in Hfit.
  destruct Hfit as [[[[[Hx Hy] Hz] _] _] _].
  destruct (Z_le_gt_dec 0 xlen) as [Gx|Gx], (Z_le_gt_dec 0 ylen) as [Gy|Gy],
           (Z_le_gt_dec 0 zlen) as [Gz|Gz]; try (repeat split; assumption); exfalso;
    (assert (Hemp : coords (xlen + 1, ylen + 1, zlen + 1) = [])
       by (apply coords_empty; lia));
    unfold label_structures in El; rewrite Hemp in El; cbn [for_each] in El;
    injection El as _ <- _;
    unfold ravel, crop in Es; cbn [shape full] in Es;
    (rewrite coords_empty in Es by (unfold slice_stop;
       repeat match goal with |- context [?v <? 0] => destruct (Z.ltb_spec v 0) end; lia));
    discriminate.
Qed.

Lemma np_reshape_ok (o : pyobj) (sh : idx3) (zf : bool) (a : ndarray float) :
  (let '(nx, ny, nz) := sh in 0 <= nx /\ 0 <= ny /\ 0 <= nz) ->
  np_reshape o sh zf = Ok a ->
  obj_size o = size3 sh /\ shape a = sh.
Proof.
  destruct sh as [[nx ny] nz]. intros (Hx & Hy & Hz). unfold np_reshape.
  replace ((nx <? 0) || (ny <? 0) || (nz <? 0)) with false
    by (symmetry; rewrite !orb_false_iff, !Z.ltb_ge; lia).
  destruct (obj_size o =? size3 (nx, ny, nz)) eqn:Hsz; simpl; [|discriminate].
  intros H. injection H as <-. simpl.
  apply Z.eqb_eq in Hsz. split; auto.
Qed.

(** After a pass that returns, [c] refers to the padded occupancy grid,
    whose size no longer matches: the next reshape raises ValueError. *)
Lemma second_pass_raises (t t' : float) (st st' : run_state) :
  run_pass t st = Ok st' -> run_pass t' st' = Raise ValueError.
Proof.
  intros H. destruct (pass_ok _ _ _ H) as (o & c0 & Ho & Hr & Hh & Hc & _).
  destruct (pass_dims _ _ _ H) as (Hx & Hy & Hz).
  unfold run_pass, pass. rewrite Hh, Hc.
  unfold deref. rewrite nth_error_app2 by lia.
  replace (length (heap st) - length (heap st))%nat with 0%nat by lia. simpl.
  unfold np_reshape.
  replace ((xlen <? 0) || (ylen <? 0) || (zlen <? 0)) with false
    by (symmetry; rewrite !orb_false_iff, !Z.ltb_ge; lia).
  match goal with |- context [negb (?a =? ?b)] =>
    replace (a =? b) with false; [reflexivity|] end.
  symmetry. apply Z.eqb_neq. simpl. nia.
Qed.

End Passes.

(** C6.  The loop rebinds [c] to the padded occupancy grid of the pass it
    has just run (line 50), so the second threshold is not processed
    against the field: with two or more thresholds the run never returns
    (the second reshape raises ValueError unless the first pass has
    already failed). *)
Theorem second_threshold_never_processed
  (outliers : Z -> list (list Z)) (fuel : nat) (mc : bool) (h : store pyobj)
  (t1 t2 : float) (ts : list float) (c : loc) (xlen ylen zlen : Z) (zf wp : bool) :
  aborted (extractStructures outliers fuel mc h (t1 :: t2 :: ts) c xlen ylen zlen zf wp).
Proof.
  unfold extractStructures. simpl for_each.
  destruct (pass outliers fuel mc xlen ylen zlen zf wp t1 _) as [st1| |] eqn:H1;
    simpl; auto.
  rewrite (second_pass_raises _ _ _ _ _ _ _ _ _ t2 _ _ H1). simpl. exact I.
Qed.

(** The rule of the design document: (value > t) if t > 0, else (value < t). *)
Definition occupancy_rule (t v : float) : bool :=
  if PrimFloat.ltb 0%float t then PrimFloat.ltb t v else PrimFloat.ltb v t.

(** The rule as lines 39 to 44 have it on an array of element type [dt]:
    the sign test reads the threshold itself, the comparison reads it
    converted to [dt]. *)
Definition occupancy_rule_in (dt : dtype) (t v : float) : bool :=
  if PrimFloat.ltb 0%float t
  then PrimFloat.ltb (cast dt t) v
  else PrimFloat.ltb v (cast dt t).

Lemma threshold_cell (dt : dtype) (t : float) (c : ndarray float) (q : idx3) :
  cell (threshold dt t c) q = occupancy_rule_in dt t (cell c q).
Proof.
  unfold threshold, occupancy_rule_in. destruct (PrimFloat.ltb 0%float t); reflexivity.
Qed.

Lemma threshold_shape (dt : dtype) (t : float) (c : ndarray float) :
  shape (threshold dt t c) = shape c.
Proof.
  unfold threshold. destruct (PrimFloat.ltb 0%float t); reflexivity.
Qed.

(** A grid of the announced, non-negative dimensions fits the padded one. *)
Lemma pad_fits_ok (xlen ylen zlen : Z) (c : ndarray bool) :
  0 <= xlen -> 0 <= ylen -> 0 <= zlen -> shape c = (xlen, ylen, zlen) ->
  pad_fits xlen ylen zlen c = true.
Proof.
  intros Hx Hy Hz Hs. unfold pad_fits. rewrite Hs.
  rewrite !andb_true_iff, !orb_true_iff, !Z.leb_le. lia.
Qed.

(** A threshold that the element type holds as it is gives the rule of
    the design document. *)
Lemma occupancy_rule_in_exact (dt : dtype) (t v : float) :
  cast dt t = t -> occupancy_rule_in dt t v = occupancy_rule t v.
Proof.
  intros H. unfold occupancy_rule_in, occupancy_rule. now rewrite H.
Qed.

Lemma cast_zero (dt : dtype) : cast dt 0%float = 0%float.
Proof. destruct dt; reflexivity. Qed.

Lemma cast_nan (dt : dtype) : cast dt nan = nan.
Proof. destruct dt; reflexivity. Qed.

(** What [np.float32] does to three numbers above [2^24], on floats and on
    the integers of [float32_of_int]. *)
Example float32_rounding :
  map to_float32 [16777217%float; 16777219%float; 134217727%float; 47%float]
    = [16777216%float; 16777220%float; 134217728%float; 47%float] /\
  map float32_of_int [16777217; 16777219; 134217727; 47]
    = [16777216; 16777220; 134217728; 47].
Proof. split; vm_compute; reflexivity. Qed.

Lemma flat_index_bound (zf : bool) (xlen ylen zlen i j k : Z) :
  0 <= i < xlen -> 0 <= j < ylen -> 0 <= k < zlen ->
  0 <= flat_index zf (xlen, ylen, zlen) (i, j, k) < xlen * ylen * zlen.
Proof.
  intros Hi Hj Hk. unfold flat_index. destruct zf.
  - assert (H1 : 0 <= i * ylen + j <= xlen * ylen - 1) by nia.
    assert (H2 : (i * ylen + j) * zlen <= (xlen * ylen - 1) * zlen) by nia.
    nia.
  - assert (H1 : 0 <= j + ylen * k <= ylen * zlen - 1) by nia.
    assert (H2 : xlen * (j + ylen * k) <= xlen * (ylen * zlen - 1)) by nia.
    nia.
Qed.

Lemma in_shape_true (sh : idx3) (q : idx3) :
  in_shape sh q = true <->
  let '(nx, ny, nz) := sh in
  let '(i, j, k) := q in
  0 <= i < nx /\ 0 <= j < ny /\ 0 <= k < nz.
Proof.
  destruct sh as [[nx ny] nz], q as [[i j] k]. unfold in_shape.
  rewrite !andb_true_iff, !Z.leb_le, !Z.ltb_lt. lia.
Qed.

(** C9 as stated fails on the array the script passes: its element type is
    float32 (line 966), so the threshold 16777219 is compared as the
    float32 number 16777220, and a cell that holds 16777220, a value
    above the threshold, is not occupied. *)
Lemma threshold_is_compared_in_float32 :
  exists c0,
    np_reshape (FloatArray1 float32 [16777220%float; 0%float]) (2, 1, 1) true = Ok c0 /\
    cell c0 (0, 0, 0) = 16777220%float /\
    PrimFloat.ltb 0%float 16777219%float = true /\
    PrimFloat.ltb 16777219%float (cell c0 (0, 0, 0)) = true /\
    occupancy_rule 16777219%float (cell c0 (0, 0, 0)) = true /\
    cell (pad 2 1 1 (threshold float32 16777219%float c0)) (0, 0, 0) = false.
Proof.
  eexists. split; [reflexivity|]. repeat split; vm_compute; reflexivity.
Qed.

(** C9 (as the code has it).  A pass reads the field through [c], compares
    every value with the threshold by the sign rule, and binds [c] to a
    fresh padded grid: the cell (i, j, k) of that grid is (value > t')
    when t > 0 and (value < t') otherwise, where t' is the threshold
    converted to the element type of the field, and the value is the
    element as the field holds it.  When the conversion leaves the
    threshold as it is (always on a float64 field) that is the rule
    (value > t) when t > 0 and (value < t) otherwise.  Every object that
    was in the store before the pass, the field among them, is unchanged
    after it. *)
Theorem threshold_filter_rule
  (outliers : Z -> list (list Z)) (fuel : nat) (mc : bool) (xlen ylen zlen : Z)
  (zf wp : bool) (t : float) (st : run_state) (dt : dtype) (data : list float) :
  deref (heap st) (c_ref st) = Some (FloatArray1 dt data) ->
  0 <= xlen -> 0 <= ylen -> 0 <= zlen ->
  Z.of_nat (length data) = xlen * ylen * zlen ->
  exists c0,
    np_reshape (FloatArray1 dt data) (xlen, ylen, zlen) zf = Ok c0 /\
    (forall i j k, 0 <= i < xlen -> 0 <= j < ylen -> 0 <= k < zlen ->
       exists v,
         nth_error data (Z.to_nat (flat_index zf (xlen, ylen, zlen) (i, j, k))) = Some v /\
         cell c0 (i, j, k) = cast dt v /\
         cell (pad xlen ylen zlen (threshold dt t c0)) (i, j, k)
           = occupancy_rule_in dt t (cast dt v) /\
         (cast dt t = t ->
          cell (pad xlen ylen zlen (threshold dt t c0)) (i, j, k)
            = occupancy_rule t (cast dt v)) /\
         (dt = float64 ->
          cell (pad xlen ylen zlen (threshold dt t c0)) (i, j, k)
            = occupancy_rule t v)) /\
    (forall st', pass outliers fuel mc xlen ylen zlen zf wp t st = Ok st' ->
       deref (heap st') (c_ref st')
         = Some (BoolArray3 (pad xlen ylen zlen (threshold dt t c0))) /\
       forall l o, deref (heap st) l = Some o -> deref (heap st') l = Some o).
Proof.
  intros Hc Hx Hy Hz Hlen.
  assert (Hr : np_reshape (FloatArray1 dt data) (xlen, ylen, zlen) zf
               = Ok (mkArr (xlen, ylen, zlen)
                      (fun q => nth (Z.to_nat (flat_index zf (xlen, ylen, zlen) q))
                                    (map (cast dt) data) 0%float))).
  { unfold np_reshape.
    replace ((xlen <? 0) || (ylen <? 0) || (zlen <? 0)) with false
      by (symmetry; rewrite !orb_false_iff, !Z.ltb_ge; lia).
    simpl obj_size. simpl size3. rewrite Hlen, Z.eqb_refl. reflexivity. }
  eexists. split; [exact Hr|]. split.
  - intros i j k Hi Hj Hk.
    pose proof (flat_index_bound zf xlen ylen zlen i j k Hi Hj Hk) as Hb.
    destruct (nth_error data (Z.to_nat (flat_index zf (xlen, ylen, zlen) (i, j, k))))
      as [v|] eqn:Hv.
    + exists v. split; [reflexivity|].
      assert (Hcell : nth (Z.to_nat (flat_index zf (xlen, ylen, zlen) (i, j, k)))
                          (map (cast dt) data) 0%float = cast dt v).
      { rewrite <- (cast_zero dt) at 1. rewrite map_nth.
        now rewrite (nth_error_nth _ _ _ Hv). }
      assert (Hocc : cell (pad xlen ylen zlen
                            (threshold dt t
                               (mkArr (xlen, ylen, zlen)
                                  (fun q => nth (Z.to_nat (flat_index zf (xlen, ylen, zlen) q))
                                                (map (cast dt) data) 0%float))))
                          (i, j, k)
                     = occupancy_rule_in dt t (cast dt v)).
      { unfold pad. cbn [cell]. rewrite threshold_shape. cbn [shape].
        replace (in_shape (xlen, ylen, zlen) (i, j, k)) with true
          by (symmetry; apply in_shape_true; lia).
        rewrite threshold_cell. cbn [cell]. now rewrite Hcell. }
      split; [exact Hcell|]. split; [exact Hocc|]. split.
      * intros Ht. rewrite Hocc. now apply occupancy_rule_in_exact.
      * intros ->. rewrite Hocc. reflexivity.
    + apply nth_error_None in Hv. lia.
  - intros st' Hp. destruct (pass_ok _ _ _ _ _ _ _ _ _ _ _ Hp)
      as (o & c0 & Ho & Hr' & Hh & Hl & _).
    rewrite Hc in Ho. injection Ho as <-. rewrite Hr in Hr'. injection Hr' as <-.
    split.
    + rewrite Hh, Hl. exact (deref_alloc_new (heap st) _).
    + intros l o Hlo. rewrite Hh.
      rewrite <- Hlo. apply (deref_alloc_old (heap st)). eapply deref_bound; eauto.
Qed.

Lemma threshold_filter_rule_witness :
  exists c0,
    np_reshape (FloatArray1 float32 [2%float; 0%float]) (2, 1, 1) true = Ok c0 /\
    (forall i j k, 0 <= i < 2 -> 0 <= j < 1 -> 0 <= k < 1 ->
       exists v,
         nth_error [2%float; 0%float] (Z.to_nat (flat_index true (2, 1, 1) (i, j, k))) = Some v /\
         cell c0 (i, j, k) = cast float32 v /\
         cell (pad 2 1 1 (threshold float32 1%float c0)) (i, j, k)
           = occupancy_rule_in float32 1%float (cast float32 v) /\
         (cast float32 1%float = 1%float ->
          cell (pad 2 1 1 (threshold float32 1%float c0)) (i, j, k)
            = occupancy_rule 1%float (cast float32 v)) /\
         (float32 = float64 ->
          cell (pad 2 1 1 (threshold float32 1%float c0)) (i, j, k)
            = occupancy_rule 1%float v)) /\
    (forall st', pass (fun _ => []) 4 false 2 1 1 true true 1%float
                      (mkRun [FloatArray1 float32 [2%float; 0%float]] 0%nat [] [] None) = Ok st' ->
       deref (heap st') (c_ref st')
         = Some (BoolArray3 (pad 2 1 1 (threshold float32 1%float c0))) /\
       forall l o, deref [FloatArray1 float32 [2%float; 0%float]] l = Some o ->
                   deref (heap st') l = Some o).
Proof.
  apply (threshold_filter_rule (fun _ => []) 4 false 2 1 1 true true 1%float
           (mkRun [FloatArray1 float32 [2%float; 0%float]] 0%nat [] [] None)
           float32 [2%float; 0%float]); simpl; try lia; reflexivity.
Defined.

Lemma ltb_nan_r (v : float) : PrimFloat.ltb v nan = false.
Proof.
  rewrite ltb_spec. unfold SFltb.
  destruct (Prim2SF v) as [s|s| |s m e]; try destruct s; reflexivity.
Qed.

(** C7 (as the code has it).  A NaN threshold is not detected: the sign
    test [NaN > 0] is false, so the pass compares [value < NaN], which is
    false for every value; the entry is processed as a threshold whose
    occupancy grid is empty. *)
Theorem nan_threshold_gives_empty_grid
  (dt : dtype) (c : ndarray float) (xlen ylen zlen : Z) :
  PrimFloat.ltb 0%float nan = false /\
  shape (threshold dt nan c) = shape c /\
  (forall q, cell (threshold dt nan c) q = false) /\
  (forall q, cell (pad xlen ylen zlen (threshold dt nan c)) q = false).
Proof.
  assert (H : forall q, cell (threshold dt nan c) q = false).
  { intros q. rewrite threshold_cell. unfold occupancy_rule_in. rewrite cast_nan.
    replace (PrimFloat.ltb 0%float nan) with false by reflexivity. apply ltb_nan_r. }
  split; [reflexivity|]. split; [apply threshold_shape|]. split; [exact H|].
  intros q. unfold pad. cbn [cell]. rewrite H. now destruct (in_shape _ q).
Qed.

Definition no_outliers : Z -> list (list Z) := fun _ => [].

(** Negative dimensions on the field of three cells: with (-1, 3, 1) the
    reshape infers the shape (1, 3, 1), the padded grid has no cell and
    the statistics raise IndexError; with (-1, 2, 1) nothing can be
    inferred, and with (-2, 3, 1) [np.zeros] is given a negative
    dimension: ValueError both. *)
Example negative_dimensions :
  extractStructures no_outliers 5 false two_of_three [1%float] 0%nat (-1) 3 1 true true
    = Raise IndexError /\
  extractStructures no_outliers 5 false two_of_three [1%float] 0%nat (-1) 2 1 true true
    = Raise ValueError /\
  extractStructures no_outliers 5 false two_of_three [1%float] 0%nat (-2) 3 1 true true
    = Raise ValueError.
Proof. repeat split; vm_compute; reflexivity. Qed.

(** C7 as stated fails: with NaN in front of an ordinary threshold the run
    raises IndexError in the NaN pass (its grid is empty), and the
    threshold behind it, which alone gives a record, is never processed. *)
Lemma nan_threshold_aborts_run :
  extractStructures no_outliers 5 false two_of_three [nan; 1%float] 0%nat 3 1 1 true true
    = Raise IndexError /\
  match extractStructures no_outliers 5 false two_of_three [1%float] 0%nat 3 1 1 true true with
  | Ok (_, records, _) => records = [(1%float, 1, 1)]
  | _ => False
  end.
Proof.
  split; vm_compute; reflexivity.
Qed.

(* ================================================================== *)
(** * Properties: subscripts at the boundary of the padded grid *)

Lemma idx3_eqb_eq (p q : idx3) : idx3_eqb p q = true <-> p = q.
Proof.
  destruct p as [[a b] c], q as [[x y] z]. unfold idx3_eqb.
  rewrite !andb_true_iff, !Z.eqb_eq. split.
  - intros [[-> ->] ->]. reflexivity.
  - intros H. injection H as -> -> ->. auto.
Qed.

Lemma idx3_eqb_refl (p : idx3) : idx3_eqb p p = true.
Proof. now apply idx3_eqb_eq. Qed.

Lemma idx3_eqb_neq (p q : idx3) : idx3_eqb p q = false <-> p <> q.
Proof.
  rewrite <- idx3_eqb_eq. destruct (idx3_eqb p q); split; congruence.
Qed.

(** One subscript next to a valid one: it is the upper bound (IndexError),
    or -1 (read from the end), or valid. *)
Lemma np_index_cases (n i : Z) :
  0 < n -> -1 <= i <= n ->
  (i = n /\ np_index n i = None) \/
  (i = -1 /\ np_index n i = Some (n - 1)) \/
  (0 <= i < n /\ np_index n i = Some i).
Proof.
  intros Hn Hi. unfold np_index.
  destruct (Z.leb_spec 0 i), (Z.ltb_spec i n); simpl.
  - right; right. split; [lia|reflexivity].
  - left. destruct (Z.ltb_spec i 0); simpl; [lia|]. split; [lia|reflexivity].
  - right; left. destruct (Z.ltb_spec i 0); [|lia].
    destruct (Z.leb_spec (- n) i); simpl; [|lia].
    split; [lia|]. f_equal. lia.
  - lia.
Qed.

Lemma np_index_valid (n i : Z) : 0 <= i < n -> np_index n i = Some i.
Proof.
  intros H. unfold np_index.
  destruct (Z.leb_spec 0 i), (Z.ltb_spec i n); simpl; try lia. reflexivity.
Qed.

Lemma np_index3_valid (sh q : idx3) : in_shape sh q = true -> np_index3 sh q = Some q.
Proof.
  intros H. apply in_shape_true in H. destruct sh as [[nx ny] nz], q as [[i j] k].
  unfold np_index3. now rewrite !np_index_valid by lia.
Qed.

Lemma np_index_range (n i m : Z) : np_index n i = Some m -> 0 <= m < n.
Proof.
  unfold np_index.
  destruct (Z.leb_spec 0 i) as [H0|H0], (Z.ltb_spec i n) as [H1|H1]; simpl;
    try (intros E; injection E as <-; lia);
    destruct (Z.ltb_spec i 0) as [H2|H2], (Z.leb_spec (- n) i) as [H3|H3]; simpl;
    try discriminate; intros E; injection E as <-; lia.
Qed.

Lemma np_index3_range (sh p q : idx3) : np_index3 sh p = Some q -> in_shape sh q = true.
Proof.
  destruct sh as [[nx ny] nz], p as [[i j] k]. unfold np_index3.
  destruct (np_index nx i) as [i'|] eqn:Hi; [|discriminate].
  destruct (np_index ny j) as [j'|] eqn:Hj; [|discriminate].
  destruct (np_index nz k) as [k'|] eqn:Hk; [|discriminate].
  intros H. injection H as <-. apply in_shape_true.
  apply np_index_range in Hi, Hj, Hk. lia.
Qed.

(** A grid as [pad] builds it: one more layer on every axis, and nothing
    occupied in that layer. *)
Definition padded (c : ndarray bool) (xlen ylen zlen : Z) : Prop :=
  shape c = (xlen + 1, ylen + 1, zlen + 1) /\
  forall q, cell c q = true -> in_shape (xlen, ylen, zlen) q = true.

Lemma pad_padded (xlen ylen zlen : Z) (occ : ndarray bool) :
  shape occ = (xlen, ylen, zlen) -> padded (pad xlen ylen zlen occ) xlen ylen zlen.
Proof.
  intros Hs. split; [reflexivity|]. intros q. unfold pad. cbn [cell]. rewrite Hs.
  destruct (in_shape (xlen, ylen, zlen) q); congruence.
Qed.

(** An offset of magnitude at most one on every axis. *)
Definition unit_offset (d : idx3) : Prop :=
  let '(a, b, c) := d in -1 <= a <= 1 /\ -1 <= b <= 1 /\ -1 <= c <= 1.

Lemma neighbor_checks_unit (d : idx3) : In d neighbor_checks -> unit_offset d.
Proof.
  unfold neighbor_checks. simpl.
  intros H. repeat (destruct H as [<-|H]; [unfold unit_offset; simpl; lia|]).
  contradiction.
Qed.

Lemma link_skips (c : ndarray bool) (sv : Z) (p d : idx3)
  (st : ndarray Z * ndarray Z * flags) :
  getitem c (idx3_add p d) = None \/ getitem c (idx3_add p d) = Some false ->
  link c sv p st d = st.
Proof.
  destruct st as [[g aux] fl]. unfold link. intros [-> | ->]; reflexivity.
Qed.

(** C2 (as the code has it).  Next to a cell of the padded grid, a
    neighbor whose index exceeds the upper bound raises IndexError and is
    skipped unread; a neighbor whose index is -1 is not skipped: the
    subscript resolves to the last layer of that axis, the padding, the cell
    there is read, and being false it is never linked.  Either way the
    check changes nothing. *)
Theorem boundary_neighbor_is_skipped_or_read_as_padding
  (c : ndarray bool) (xlen ylen zlen : Z) (sv : Z) (p d : idx3)
  (st : ndarray Z * ndarray Z * flags) :
  0 <= xlen -> 0 <= ylen -> 0 <= zlen ->
  padded c xlen ylen zlen ->
  in_shape (xlen + 1, ylen + 1, zlen + 1) p = true ->
  In d neighbor_checks ->
  in_shape (xlen + 1, ylen + 1, zlen + 1) (idx3_add p d) = false ->
  (let '(i, j, k) := idx3_add p d in
   if (xlen + 1 <=? i) || (ylen + 1 <=? j) || (zlen + 1 <=? k)
   then getitem c (idx3_add p d) = None
   else exists q, np_index3 (shape c) (idx3_add p d) = Some q /\
                  in_shape (xlen, ylen, zlen) q = false /\
                  getitem c (idx3_add p d) = Some false) /\
  link c sv p st d = st.
Proof.
  intros Hx Hy Hz [Hs Hpad] Hp Hd Hout.
  apply neighbor_checks_unit in Hd.
  destruct p as [[i j] k], d as [[a b] e]. unfold unit_offset in Hd.
  apply in_shape_true in Hp. cbn [idx3_add] in *.
  assert (Hcases :
    if (xlen + 1 <=? i + a) || (ylen + 1 <=? j + b) || (zlen + 1 <=? k + e)
    then getitem c (i + a, j + b, k + e) = None
    else exists q, np_index3 (shape c) (i + a, j + b, k + e) = Some q /\
                   in_shape (xlen, ylen, zlen) q = false /\
                   getitem c (i + a, j + b, k + e) = Some false).
  { unfold getitem. rewrite Hs. unfold np_index3.
    destruct (np_index_cases (xlen + 1) (i + a)) as [[Ei Ni]|[[Ei Ni]|[Ei Ni]]]; try lia;
    destruct (np_index_cases (ylen + 1) (j + b)) as [[Ej Nj]|[[Ej Nj]|[Ej Nj]]]; try lia;
    destruct (np_index_cases (zlen + 1) (k + e)) as [[Ek Nk]|[[Ek Nk]|[Ek Nk]]]; try lia;
    rewrite ?Ni, ?Nj, ?Nk;
    destruct (Z.leb_spec (xlen + 1) (i + a)), (Z.leb_spec (ylen + 1) (j + b)),
             (Z.leb_spec (zlen + 1) (k + e)); cbn [orb]; try lia; try reflexivity;
    try (eexists; split; [reflexivity|];
         match goal with |- in_shape ?sh ?q = false /\ _ =>
           assert (Hq : in_shape sh q = false)
             by (destruct (in_shape sh q) eqn:Hq'; [apply in_shape_true in Hq'; lia|reflexivity]);
           split; [exact Hq|];
           destruct (cell c q) eqn:Hc; [apply Hpad in Hc; congruence|reflexivity]
         end).
    exfalso. apply not_true_iff_false in Hout. apply Hout. apply in_shape_true. lia. }
  split; [exact Hcases|].
  apply link_skips. cbn [idx3_add].
  destruct ((xlen + 1 <=? i + a) || (ylen + 1 <=? j + b) || (zlen + 1 <=? k + e)).
  - now left.
  - right. now destruct Hcases as (q & _ & _ & ->).
Qed.

Definition one_cell_grid : ndarray bool :=
  pad 1 1 1 (threshold float32 1%float (mkArr (1, 1, 1) (fun _ => 2%float))).

Lemma boundary_neighbor_witness :
  (exists q, np_index3 (shape one_cell_grid) (idx3_add (0, 0, 0) f2) = Some q /\
             in_shape (1, 1, 1) q = false /\
             getitem one_cell_grid (idx3_add (0, 0, 0) f2) = Some false) /\
  link one_cell_grid 1 (0, 0, 0) (full (2, 2, 2) 0, full (3, 3, 3) 0, no_flags) f2
  = (full (2, 2, 2) 0, full (3, 3, 3) 0, no_flags).
Proof.
  apply (boundary_neighbor_is_skipped_or_read_as_padding one_cell_grid 1 1 1 1
           (0, 0, 0) f2 (full (2, 2, 2) 0, full (3, 3, 3) 0, no_flags));
    try lia; try reflexivity.
  - apply pad_padded. apply threshold_shape.
  - unfold neighbor_checks. simpl. auto.
Defined.

(** C2 as stated fails: at the first cell of the grid the subscript -1 of
    the check at line 162 does not raise; it resolves to the cell (1, 0, 0)
    of the padding layer, which is read (and is false). *)
Lemma lower_boundary_subscript_is_read :
  np_index3 (shape one_cell_grid) (idx3_add (0, 0, 0) f2) = Some (1, 0, 0) /\
  getitem one_cell_grid (idx3_add (0, 0, 0) f2) = Some (cell one_cell_grid (1, 0, 0)) /\
  cell one_cell_grid (1, 0, 0) = false.
Proof.
  repeat split.
Qed.

(* ================================================================== *)
(** * Properties: one expansion step *)

(** The array with one cell replaced. *)
Definition upd {A : Type} (a : ndarray A) (q : idx3) (v : A) : ndarray A :=
  mkArr (shape a) (fun r => if idx3_eqb r q then v else cell a r).

Lemma setitem_upd {A : Type} (a : ndarray A) (p q : idx3) (v : A) :
  np_index3 (shape a) p = Some q -> setitem a p v = Some (upd a q v).
Proof. intros H. unfold setitem. now rewrite H. Qed.

Lemma getitem_cell {A : Type} (a : ndarray A) (p q : idx3) :
  np_index3 (shape a) p = Some q -> getitem a p = Some (cell a q).
Proof. intros H. unfold getitem. now rewrite H. Qed.

Lemma upd_same {A : Type} (a : ndarray A) (q : idx3) (v : A) : cell (upd a q v) q = v.
Proof. unfold upd. cbn [cell]. now rewrite idx3_eqb_refl. Qed.

Lemma upd_other {A : Type} (a : ndarray A) (q r : idx3) (v : A) :
  r <> q -> cell (upd a q v) r = cell a r.
Proof.
  intros H. unfold upd. cbn [cell]. apply idx3_eqb_neq in H. now rewrite H.
Qed.

Lemma idx3_add_inj (p d d' : idx3) : idx3_add p d = idx3_add p d' -> d = d'.
Proof.
  destruct p as [[i j] k], d as [[a b] e], d' as [[a' b'] e']. cbn [idx3_add].
  intros H. injection H as H1 H2 H3. f_equal; [f_equal|]; lia.
Qed.

(** The cell of [_auxCube] an offset subscripts: -1 counts from the end. *)
Definition aux_idx (d : idx3) : idx3 :=
  let '(a, b, e) := d in (a mod 3, b mod 3, e mod 3).

Lemma unit_cases (a : Z) : -1 <= a <= 1 -> a = -1 \/ a = 0 \/ a = 1.
Proof. lia. Qed.

Lemma aux_index (d : idx3) : unit_offset d -> np_index3 (3, 3, 3) d = Some (aux_idx d).
Proof.
  destruct d as [[a b] e]. intros (Ha & Hb & He).
  destruct (unit_cases a Ha) as [->|[->| ->]], (unit_cases b Hb) as [->|[->| ->]],
           (unit_cases e He) as [->|[->| ->]]; reflexivity.
Qed.

Lemma aux_idx_inj (d d' : idx3) :
  unit_offset d -> unit_offset d' -> aux_idx d = aux_idx d' -> d = d'.
Proof.
  destruct d as [[a b] e], d' as [[a' b'] e']. intros (Ha & Hb & He) (Ha' & Hb' & He').
  destruct (unit_cases a Ha) as [->|[->| ->]], (unit_cases b Hb) as [->|[->| ->]],
           (unit_cases e He) as [->|[->| ->]],
           (unit_cases a' Ha') as [->|[->| ->]], (unit_cases b' Hb') as [->|[->| ->]],
           (unit_cases e' He') as [->|[->| ->]];
    cbn; intros H; try reflexivity; discriminate H.
Qed.

Lemma neighbor_checks_NoDup : NoDup neighbor_checks.
Proof.
  unfold neighbor_checks.
  repeat (constructor; [simpl; intros H;
                        repeat (destruct H as [H|H]; [discriminate H|]); exact H|]).
  constructor.
Qed.

Lemma neighbor_checks_Forall_unit : Forall unit_offset neighbor_checks.
Proof. apply Forall_forall. exact neighbor_checks_unit. Qed.

Section Step.

Variables (c : ndarray bool) (xlen ylen zlen : Z).
Hypothesis Hx : 0 <= xlen.
Hypothesis Hy : 0 <= ylen.
Hypothesis Hz : 0 <= zlen.
Hypothesis Hpad : padded c xlen ylen zlen.

Let S3 : idx3 := (xlen + 1, ylen + 1, zlen + 1).

(** The cells of the field proper, the padding layer excluded. *)
Definition inner (q : idx3) : Prop := in_shape (xlen, ylen, zlen) q = true.

Lemma occupied_inner (q : idx3) : cell c q = true -> inner q.
Proof. apply Hpad. Qed.

Lemma inner_in_shape (q : idx3) : inner q -> in_shape S3 q = true.
Proof.
  unfold inner, S3. rewrite !in_shape_true. destruct q as [[i j] k]. lia.
Qed.

(** Next to an inner cell every subscript resolves: to the cell itself
    when it is inner, and to a cell of the padding layer otherwise. *)
Lemma np_index3_near (p d : idx3) :
  inner p -> unit_offset d ->
  (inner (idx3_add p d) /\ np_index3 S3 (idx3_add p d) = Some (idx3_add p d)) \/
  (in_shape (xlen, ylen, zlen) (idx3_add p d) = false /\
   exists q, np_index3 S3 (idx3_add p d) = Some q /\
             in_shape (xlen, ylen, zlen) q = false).
Proof.
  intros Hp Hd. destruct p as [[i j] k], d as [[a b] e].
  apply in_shape_true in Hp. unfold unit_offset in Hd. cbn [idx3_add].
  destruct (in_shape (xlen, ylen, zlen) (i + a, j + b, k + e)) eqn:Hin.
  - left. split; [exact Hin|]. apply np_index3_valid. now apply inner_in_shape.
  - right. split; [reflexivity|]. unfold S3, np_index3.
    destruct (np_index_cases (xlen + 1) (i + a)) as [[Ei Ni]|[[Ei Ni]|[Ei Ni]]]; try lia;
    destruct (np_index_cases (ylen + 1) (j + b)) as [[Ej Nj]|[[Ej Nj]|[Ej Nj]]]; try lia;
    destruct (np_index_cases (zlen + 1) (k + e)) as [[Ek Nk]|[[Ek Nk]|[Ek Nk]]]; try lia;
    rewrite ?Ni, ?Nj, ?Nk;
    (eexists; split; [reflexivity|]);
    match goal with |- in_shape ?sh ?q = false =>
      destruct (in_shape sh q) eqn:Hq; [apply in_shape_true in Hq|reflexivity]
    end; try lia; try discriminate.
Qed.

Variable _structVal : Z.

(** The check at offset [d] links its cell: occupied and not yet
    labeled. *)
Definition newly (g : ndarray Z) (p d : idx3) : bool :=
  cell c (idx3_add p d) && negb (0 <? cell g (idx3_add p d)).

Lemma link_inner (p d : idx3) (g aux : ndarray Z) (fl : flags) :
  inner p -> unit_offset d -> shape g = S3 -> shape aux = (3, 3, 3) ->
  link c _structVal p (g, aux, fl) d =
  if newly g p d
  then (upd g (idx3_add p d) (uint32 _structVal),
        upd aux (aux_idx d) (aux_mark d _structVal), flag_on fl d)
  else (g, aux, fl).
Proof.
  intros Hp Hd Hg Ha. unfold newly, link.
  destruct Hpad as [Hs Hocc].
  destruct (np_index3_near p d Hp Hd) as [[Hin Hi]|[Hout (q & Hi & Hq)]].
  - rewrite (getitem_cell c _ _ (eq_ind_r (fun s => np_index3 s _ = _) Hi Hs)).
    destruct (cell c (idx3_add p d)); [|reflexivity]. cbn [andb].
    rewrite (getitem_cell g _ _ (eq_ind_r (fun s => np_index3 s _ = _) Hi Hg)).
    destruct (0 <? cell g (idx3_add p d)); [reflexivity|]. cbn [negb].
    rewrite (setitem_upd g _ _ _ (eq_ind_r (fun s => np_index3 s _ = _) Hi Hg)).
    rewrite (setitem_upd aux d (aux_idx d)) by (rewrite Ha; now apply aux_index).
    reflexivity.
  - rewrite (getitem_cell c _ _ (eq_ind_r (fun s => np_index3 s _ = _) Hi Hs)).
    replace (cell c q) with false
      by (destruct (cell c q) eqn:E; [apply Hocc in E; congruence|reflexivity]).
    replace (cell c (idx3_add p d)) with false
      by (destruct (cell c (idx3_add p d)) eqn:E; [apply Hocc in E; congruence|reflexivity]).
    reflexivity.
Qed.

(** The 26 checks in a row. *)
Lemma link_fold (p : idx3) (l : list idx3) :
  inner p -> NoDup l -> Forall unit_offset l ->
  forall (g aux : ndarray Z) (fl : flags),
    shape g = S3 -> shape aux = (3, 3, 3) ->
    exists g' aux' fl',
      fold_left (link c _structVal p) l (g, aux, fl) = (g', aux', fl') /\
      shape g' = S3 /\ shape aux' = (3, 3, 3) /\
      (forall d, In d l -> newly g p d = true ->
                 cell g' (idx3_add p d) = uint32 _structVal) /\
      (forall r, (forall d, In d l -> newly g p d = true -> r <> idx3_add p d) ->
                 cell g' r = cell g r) /\
      (forall e, fl' e = true <-> fl e = true \/ (In e l /\ newly g p e = true)) /\
      (forall d, In d l -> newly g p d = true ->
                 cell aux' (aux_idx d) = aux_mark d _structVal) /\
      (forall r, (forall d, In d l -> newly g p d = true -> r <> aux_idx d) ->
                 cell aux' r = cell aux r).
Proof.
  intros Hp. induction l as [|d l IH]; intros Hnd Hunit g aux fl Hg Ha.
  - exists g, aux, fl. simpl. repeat split; auto; try tauto.
  - inversion Hnd as [|? ? Hnotin Hnd']; subst.
    inversion Hunit as [|? ? Hd Hunit']; subst.
    cbn [fold_left]. rewrite (link_inner p d g aux fl Hp Hd Hg Ha).
    assert (Hstable : forall g1, (g1 = g \/ g1 = upd g (idx3_add p d) (uint32 _structVal)) ->
              forall d', In d' l -> newly g1 p d' = newly g p d').
    { intros g1 [->| ->] d' Hd'; [reflexivity|]. unfold newly.
      rewrite upd_other; [reflexivity|].
      intros E. apply idx3_add_inj in E. subst d'. contradiction. }
    destruct (newly g p d) eqn:Hn.
    + destruct (IH Hnd' Hunit' (upd g (idx3_add p d) (uint32 _structVal))
                   (upd aux (aux_idx d) (aux_mark d _structVal)) (flag_on fl d) Hg Ha)
        as (g' & aux' & fl' & Hf & Hg' & Ha' & G1 & G2 & F & A1 & A2).
      exists g', aux', fl'. split; [exact Hf|]. split; [exact Hg'|]. split; [exact Ha'|].
      pose proof (Hstable _ (or_intror eq_refl)) as Hst.
      repeat split.
      * intros d0 [<-|Hin] Hn0.
        -- rewrite G2; [apply upd_same|].
           intros d' Hd' _ E. apply idx3_add_inj in E. subst d'. contradiction.
        -- apply G1; [exact Hin|]. now rewrite Hst.
      * intros r Hr. rewrite G2.
        -- apply upd_other. apply (Hr d); [now left|exact Hn].
        -- intros d' Hd' Hn'. apply Hr; [now right|]. now rewrite <- Hst.
      * intros He. apply F in He. destruct He as [He|[Hin Hn']].
        -- unfold flag_on in He. destruct (idx3_eqb e d) eqn:Eed.
           ++ apply idx3_eqb_eq in Eed. subst e. right. split; [now left|exact Hn].
           ++ now left.
        -- right. split; [now right|]. now rewrite <- Hst.
      * intros [He|[[<-|Hin] Hn']]; apply F.
        -- left. unfold flag_on. rewrite He. now destruct (idx3_eqb e d).
        -- left. unfold flag_on. now rewrite idx3_eqb_refl.
        -- right. split; [exact Hin|]. now rewrite Hst.
      * intros d0 [<-|Hin] Hn0.
        -- rewrite A2; [apply upd_same|].
           intros d' Hd' _ E. apply aux_idx_inj in E; auto.
           ++ subst d'. contradiction.
           ++ eapply Forall_forall; eauto.
        -- apply A1; [exact Hin|]. now rewrite Hst.
      * intros r Hr. rewrite A2.
        -- apply upd_other. apply (Hr d); [now left|exact Hn].
        -- intros d' Hd' Hn'. apply Hr; [now right|]. now rewrite <- Hst.
    + destruct (IH Hnd' Hunit' g aux fl Hg Ha)
        as (g' & aux' & fl' & Hf & Hg' & Ha' & G1 & G2 & F & A1 & A2).
      exists g', aux', fl'. split; [exact Hf|]. split; [exact Hg'|]. split; [exact Ha'|].
      repeat split.
      * intros d0 [<-|Hin] Hn0; [congruence|]. now apply G1.
      * intros r Hr. apply G2. intros d' Hd' Hn'. apply Hr; [now right|exact Hn'].
      * intros He. apply F in He. destruct He as [He|[Hin Hn']]; [now left|].
        right. split; [now right|exact Hn'].
      * intros [He|[[<-|Hin] Hn']]; apply F; [now left|congruence|].
        right. now split.
      * intros d0 [<-|Hin] Hn0; [congruence|]. now apply A1.
      * intros r Hr. apply A2. intros d' Hd' Hn'. apply Hr; [now right|exact Hn'].
Qed.

End Step.

(** ** The resolver as a list of retractions *)

Lemma bind_ret {A : Type} (m : outcome A) : bind m Ok = m.
Proof. now destruct m. Qed.

Lemma for_each_app {A S : Type} (body : A -> S -> outcome S) (l1 l2 : list A) (s : S) :
  for_each (l1 ++ l2) body s = s' <- for_each l1 body s ;; for_each l2 body s'.
Proof.
  revert s. induction l1 as [|x l1 IH]; intros s; simpl; [reflexivity|].
  destruct (body x s); simpl; auto.
Qed.

Lemma for_each_ext {A S : Type} (b1 b2 : A -> S -> outcome S) (l : list A) (s : S) :
  (forall x s', In x l -> b1 x s' = b2 x s') -> for_each l b1 s = for_each l b2 s.
Proof.
  revert s. induction l as [|x l IH]; intros s H; simpl; [reflexivity|].
  rewrite (H x s (or_introl eq_refl)).
  destruct (b2 x s); simpl; auto. apply IH. intros y s' Hy. apply H. now right.
Qed.

Lemma for_each_flat_map {A B S : Type} (h : A -> list B) (body : B -> S -> outcome S)
  (l : list A) (s : S) :
  for_each (flat_map h l) body s = for_each l (fun x s' => for_each (h x) body s') s.
Proof.
  revert s. induction l as [|x l IH]; intros s; simpl; [reflexivity|].
  rewrite for_each_app. destruct (for_each (h x) body s); simpl; auto.
Qed.

(** The offsets the branches of octant [ii] reset for a table entry: the
    members of every subset that does not hold the anchor. *)
Definition octant_targets (ii : Z) (_caseVal : list (list Z)) : list idx3 :=
  flat_map (fun _removeVal =>
              if existsb (Z.eqb (anchor ii)) _removeVal then []
              else flat_map (fun v => match remove_target ii v with
                                      | Some d => [d]
                                      | None => []
                                      end) _removeVal) _caseVal.

(** All offsets one pass of the resolver resets, in order. *)
Definition retracted (outliers : Z -> list (list Z)) (fl : flags) : list idx3 :=
  flat_map (fun ii => match list_get (_cases fl) ii with
                      | Some cs => octant_targets ii (outliers cs)
                      | None => []
                      end) (range 8).

Lemma remove_points_retract (ii : Z) (p : idx3) (_removeVal : list Z)
  (st : ndarray Z * ndarray Z) :
  remove_points ii p _removeVal st =
  for_each (flat_map (fun v => match remove_target ii v with
                               | Some d => [d]
                               | None => []
                               end) _removeVal) (retract p) st.
Proof.
  unfold remove_points. rewrite for_each_flat_map. apply for_each_ext.
  intros v s _. destruct (remove_target ii v); simpl; [now rewrite bind_ret|reflexivity].
Qed.

Lemma resolve_octant_retract (ii : Z) (p : idx3) (_caseVal : list (list Z))
  (st : ndarray Z * ndarray Z) :
  resolve_octant ii p _caseVal st = for_each (octant_targets ii _caseVal) (retract p) st.
Proof.
  unfold resolve_octant, octant_targets. rewrite for_each_flat_map. apply for_each_ext.
  intros rv s _. destruct (existsb (Z.eqb (anchor ii)) rv); [reflexivity|].
  apply remove_points_retract.
Qed.

Lemma cases_get (fl : flags) (ii : Z) :
  In ii (range 8) -> exists cs, list_get (_cases fl) ii = Some cs.
Proof.
  simpl. intros H.
  repeat (destruct H as [<-|H]; [eexists; reflexivity|]). contradiction.
Qed.

Lemma resolver_retract (outliers : Z -> list (list Z)) (p : idx3) (fl : flags)
  (st : ndarray Z * ndarray Z) :
  resolver outliers p fl st = for_each (retracted outliers fl) (retract p) st.
Proof.
  unfold resolver, retracted. rewrite for_each_flat_map. apply for_each_ext.
  intros ii s Hii. destruct (cases_get fl ii Hii) as [cs ->]. simpl.
  apply resolve_octant_retract.
Qed.

(** The branches of lines 579 to 793, one triple per branch. *)
Definition branch_table : list (Z * Z * idx3) :=
  [ (0, 0, f6); (0, 1, e9); (0, 2, c6); (0, 3, e12); (0, 5, f1); (0, 6, e2); (0, 7, f4);
    (1, 0, e10); (1, 1, f6); (1, 2, e12); (1, 3, c8); (1, 4, f2); (1, 6, f4); (1, 7, e4);
    (2, 0, c7); (2, 1, e11); (2, 2, f6); (2, 3, e10); (2, 4, e3); (2, 5, f3); (2, 7, f2);
    (3, 0, e11); (3, 1, c5); (3, 2, e9); (3, 3, f6); (3, 4, f3); (3, 5, e1); (3, 6, f1);
    (4, 1, f1); (4, 2, e2); (4, 3, f4); (4, 4, f5); (4, 5, e5); (4, 6, c2); (4, 7, e8);
    (5, 0, f2); (5, 2, f4); (5, 3, e4); (5, 4, e6); (5, 5, f5); (5, 6, e8); (5, 7, c4);
    (6, 0, e3); (6, 1, f3); (6, 3, f2); (6, 4, c3); (6, 5, e7); (6, 6, f5); (6, 7, e6);
    (7, 0, f3); (7, 1, e1); (7, 2, f1); (7, 4, e7); (7, 5, c1); (7, 6, e5); (7, 7, f5) ].

Lemma remove_target_table (ii v : Z) (d : idx3) :
  remove_target ii v = Some d -> In (ii, v, d) branch_table.
Proof.
  unfold remove_target.
  destruct ii as [|[[[?|?|]|[?|?|]|]|[[?|?|]|[?|?|]|]|]|?]; try discriminate;
  destruct v as [|[[[?|?|]|[?|?|]|]|[[?|?|]|[?|?|]|]|]|?]; try discriminate;
  intros H; injection H as <-; unfold branch_table; simpl; tauto.
Qed.

(** The flag lists of lines 548 to 555 and the branches of lines 579 to
    793 agree: corner [v] of octant [ii] is the flag of the cell that the
    branch for [v] resets. *)
Lemma branch_table_flags (fl : flags) :
  Forall (fun t => let '(ii, v, d) := t in
                   exists cube, list_get (_cubes fl) ii = Some cube /\
                                list_get cube v = Some (fl d) /\
                                In d neighbor_checks /\ 0 <= v < 8)
         branch_table.
Proof.
  unfold branch_table.
  repeat (constructor;
          [eexists; split; [reflexivity|]; split; [reflexivity|];
           split; [unfold neighbor_checks; simpl; tauto|lia]|]).
  constructor.
Qed.

Lemma remove_target_flag (fl : flags) (ii v : Z) (d : idx3) :
  remove_target ii v = Some d ->
  exists cube, list_get (_cubes fl) ii = Some cube /\ list_get cube v = Some (fl d) /\
               In d neighbor_checks /\ 0 <= v < 8.
Proof.
  intros H. apply remove_target_table in H.
  pose proof (branch_table_flags fl) as T. rewrite Forall_forall in T.
  exact (T _ H).
Qed.

Lemma retracted_in_checks (outliers : Z -> list (list Z)) (fl : flags) (d : idx3) :
  In d (retracted outliers fl) -> In d neighbor_checks.
Proof.
  unfold retracted, octant_targets. intros H.
  apply in_flat_map in H. destruct H as (ii & _ & H).
  destruct (list_get (_cases fl) ii); [|contradiction].
  apply in_flat_map in H. destruct H as (rv & _ & H).
  destruct (existsb (Z.eqb (anchor ii)) rv); [contradiction|].
  apply in_flat_map in H. destruct H as (v & _ & H).
  destruct (remove_target ii v) as [d'|] eqn:E; [|contradiction].
  destruct H as [<-|[]].
  destruct (remove_target_flag fl ii v d' E) as (_ & _ & _ & Hin & _). exact Hin.
Qed.

(** ** Retractions and frontier additions on well-shaped arrays *)

(** The cell a subscript resolves to. *)
Definition wrap3 (sh q : idx3) : idx3 :=
  match np_index3 sh q with
  | Some r => r
  | None => q
  end.

Lemma fold_upd_shape {A B : Type} (f : B -> idx3) (z : A) (l : list B) (a : ndarray A) :
  shape (fold_left (fun a' d => upd a' (f d) z) l a) = shape a.
Proof.
  revert a. induction l as [|d l IH]; intros a; simpl; [reflexivity|].
  now rewrite IH.
Qed.

Lemma fold_upd_cell {A B : Type} (f : B -> idx3) (z : A) (l : list B) (a : ndarray A)
  (r : idx3) :
  cell (fold_left (fun a' d => upd a' (f d) z) l a) r =
  if existsb (fun d => idx3_eqb r (f d)) l then z else cell a r.
Proof.
  revert a. induction l as [|d l IH]; intros a; simpl; [reflexivity|].
  rewrite IH. destruct (existsb (fun d0 => idx3_eqb r (f d0)) l).
  - now rewrite orb_true_r.
  - rewrite orb_false_r. unfold upd. cbn [cell]. reflexivity.
Qed.

Lemma existsb_idx3 (r : idx3) {B : Type} (f : B -> idx3) (l : list B) :
  existsb (fun d => idx3_eqb r (f d)) l = true <-> exists d, In d l /\ r = f d.
Proof.
  rewrite existsb_exists. split; intros (d & Hd & H); exists d; split; auto;
    now apply idx3_eqb_eq.
Qed.

Lemma additions_filter (p : idx3) (aux : ndarray Z) :
  shape aux = (3, 3, 3) ->
  additions p aux =
  Ok (map (idx3_add p)
          (filter (fun d => negb (cell aux (aux_idx d) =? 0)) neighbor_checks)).
Proof.
  intros Ha. unfold additions.
  assert (H : forall l acc, Forall unit_offset l ->
            for_each l (fun d acc' => v <- subscript (getitem aux d) ;;
                        Ok (if v =? 0 then acc' else acc' ++ [idx3_add p d])) acc
            = Ok (acc ++ map (idx3_add p)
                    (filter (fun d => negb (cell aux (aux_idx d) =? 0)) l))).
  { induction l as [|d l IH]; intros acc Hl.
    - cbn [for_each filter map]. now rewrite app_nil_r.
    - inversion Hl as [|? ? Hd Hl']; subst.
      cbn [for_each filter].
      rewrite (getitem_cell aux d (aux_idx d)) by (rewrite Ha; now apply aux_index).
      cbn [subscript bind]. rewrite IH by assumption.
      destruct (cell aux (aux_idx d) =? 0); cbn [negb map]; [reflexivity|].
      now rewrite <- app_assoc. }
  rewrite (H neighbor_checks [] neighbor_checks_Forall_unit). reflexivity.
Qed.

Section StepSpec.

Variables (c : ndarray bool) (xlen ylen zlen : Z).
Hypothesis Hx : 0 <= xlen.
Hypothesis Hy : 0 <= ylen.
Hypothesis Hz : 0 <= zlen.
Hypothesis Hpad : padded c xlen ylen zlen.
Variable outliers : Z -> list (list Z).
Variable _structVal : Z.

Let S3 : idx3 := (xlen + 1, ylen + 1, zlen + 1).

Local Abbreviation inner := (inner xlen ylen zlen).

Lemma retract_inner (p d : idx3) (g aux : ndarray Z) :
  inner p -> unit_offset d -> shape g = S3 -> shape aux = (3, 3, 3) ->
  retract p d (g, aux) = Ok (upd g (wrap3 S3 (idx3_add p d)) 0, upd aux (aux_idx d) 0).
Proof.
  intros Hp Hd Hg Ha. unfold retract, wrap3.
  assert (Hi : exists q, np_index3 S3 (idx3_add p d) = Some q).
  { destruct (np_index3_near xlen ylen zlen Hx Hy Hz p d Hp Hd) as [[_ H]|[_ (q & H & _)]];
      eauto. }
  destruct Hi as [q Hi]. fold S3. rewrite Hi.
  rewrite (setitem_upd g _ q) by (now rewrite Hg). simpl.
  rewrite (setitem_upd aux d (aux_idx d)) by (rewrite Ha; now apply aux_index).
  reflexivity.
Qed.

Lemma retract_all (p : idx3) (R : list idx3) :
  inner p -> Forall unit_offset R ->
  forall g aux, shape g = S3 -> shape aux = (3, 3, 3) ->
    for_each R (retract p) (g, aux) =
    Ok (fold_left (fun a d => upd a (wrap3 S3 (idx3_add p d)) 0) R g,
        fold_left (fun a d => upd a (aux_idx d) 0) R aux).
Proof.
  intros Hp. induction R as [|d R IH]; intros HR g aux Hg Ha;
    cbn [for_each fold_left]; [reflexivity|].
  inversion HR as [|? ? Hd HR']; subst.
  rewrite (retract_inner p d g aux Hp Hd Hg Ha). cbn [bind].
  apply IH; auto.
Qed.

(** The flags after the 26 checks, as a function of the grid before. *)
Definition linked (g : ndarray Z) (p : idx3) : flags :=
  fun d => existsb (idx3_eqb d) neighbor_checks && newly c g p d.

Lemma cubes_ext (fl fl' : flags) : (forall d, fl d = fl' d) -> _cubes fl = _cubes fl'.
Proof. intros H. unfold _cubes. now rewrite !H. Qed.

Lemma retracted_ext (fl fl' : flags) :
  (forall d, fl d = fl' d) -> retracted outliers fl = retracted outliers fl'.
Proof.
  intros H. unfold retracted, _cases. now rewrite (cubes_ext fl fl' H).
Qed.

(** The offsets a step resets. *)
Definition reset_offsets (mc : bool) (g : ndarray Z) (p : idx3) : list idx3 :=
  if mc then retracted outliers (linked g p) else [].

(** The offsets a step keeps: linked and not reset. *)
Definition kept (mc : bool) (g : ndarray Z) (p : idx3) : list idx3 :=
  filter (fun d => newly c g p d &&
                   negb (existsb (idx3_eqb d) (reset_offsets mc g p))) neighbor_checks.

Lemma in_checks_existsb (d : idx3) :
  In d neighbor_checks <-> existsb (idx3_eqb d) neighbor_checks = true.
Proof.
  rewrite existsb_exists. split.
  - intros H. exists d. split; [exact H|apply idx3_eqb_refl].
  - intros (e & He & E). apply idx3_eqb_eq in E. now subst.
Qed.

Lemma kept_In (mc : bool) (g : ndarray Z) (p d : idx3) :
  In d (kept mc g p) <->
  In d neighbor_checks /\ newly c g p d = true /\ ~ In d (reset_offsets mc g p).
Proof.
  unfold kept. rewrite filter_In, andb_true_iff, negb_true_iff.
  assert (H : existsb (idx3_eqb d) (reset_offsets mc g p) = false
              <-> ~ In d (reset_offsets mc g p)).
  { rewrite <- not_true_iff_false, existsb_exists. split; intros H1 H2; apply H1.
    - exists d. split; [exact H2|apply idx3_eqb_refl].
    - destruct H2 as (e & He & E). apply idx3_eqb_eq in E. now subst. }
  rewrite H. tauto.
Qed.


(** One step, whatever the case table holds: it returns, the grid is the
    grid before with the linked cells set to the structure's label and
    then the reset cells set to 0, and the frontier gains the kept cells
    in the order of the checks. *)
Lemma expand_cell_general (mc : bool) (p : idx3) (g : ndarray Z) :
  inner p -> shape g = S3 -> 0 < _structVal ->
  exists g1 g2,
    expand_cell outliers mc c _structVal p g
      = Ok (g2, map (idx3_add p) (kept mc g p)) /\
    shape g1 = S3 /\ shape g2 = S3 /\
    (forall d, In d neighbor_checks -> newly c g p d = true ->
               cell g1 (idx3_add p d) = uint32 _structVal) /\
    (forall r, (forall d, In d neighbor_checks -> newly c g p d = true ->
                          r <> idx3_add p d) -> cell g1 r = cell g r) /\
    (forall r, cell g2 r =
               if existsb (fun d => idx3_eqb r (wrap3 S3 (idx3_add p d)))
                          (reset_offsets mc g p)
               then 0 else cell g1 r).
Proof.
  intros Hp Hg Hsv. unfold expand_cell.
  destruct (link_fold c xlen ylen zlen Hx Hy Hz Hpad _structVal p neighbor_checks Hp
              neighbor_checks_NoDup neighbor_checks_Forall_unit
              g (full (3, 3, 3) 0) no_flags Hg eq_refl)
    as (g1 & aux1 & fl & Hf & Hg1 & Ha1 & G1 & G2 & F & A1 & A2).
  fold S3 in Hg1. rewrite Hf.
  assert (Hfl : forall d, fl d = linked g p d).
  { intros d. unfold linked.
    destruct (fl d) eqn:E.
    - apply F in E. destruct E as [E|[Hin Hn]]; [discriminate|].
      apply in_checks_existsb in Hin. now rewrite Hin, Hn.
    - destruct (existsb (idx3_eqb d) neighbor_checks) eqn:Hin; [|reflexivity].
      destruct (newly c g p d) eqn:Hn; [|reflexivity].
      apply in_checks_existsb in Hin.
      assert (fl d = true) by (apply F; right; now split). congruence. }
  set (R := reset_offsets mc g p).
  assert (HR : Forall unit_offset R).
  { apply Forall_forall. intros d Hd. apply neighbor_checks_unit.
    unfold R, reset_offsets in Hd. destruct mc; [|contradiction].
    eapply retracted_in_checks; eauto. }
  assert (Hres : (if mc then resolver outliers p fl (g1, aux1) else Ok (g1, aux1))
                 = Ok (fold_left (fun a d => upd a (wrap3 S3 (idx3_add p d)) 0) R g1,
                       fold_left (fun a d => upd a (aux_idx d) 0) R aux1)).
  { unfold R, reset_offsets. destruct mc; [|reflexivity].
    rewrite resolver_retract, (retracted_ext fl (linked g p) Hfl).
    apply retract_all; auto. }
  rewrite Hres. cbn [bind].
  rewrite additions_filter by (now rewrite fold_upd_shape).
  cbn [bind].
  exists g1, (fold_left (fun a d => upd a (wrap3 S3 (idx3_add p d)) 0) R g1).
  split.
  - f_equal. f_equal. f_equal. unfold kept. fold R.
    apply filter_ext_in. intros d Hd.
    rewrite fold_upd_cell.
    assert (HE : existsb (fun d0 => idx3_eqb (aux_idx d) (aux_idx d0)) R
                 = existsb (idx3_eqb d) R).
    { apply eq_true_iff_eq. rewrite !existsb_exists.
      split; intros (e & He & E); exists e; split; auto;
        apply idx3_eqb_eq in E; apply idx3_eqb_eq.
      - apply aux_idx_inj; auto.
        + now apply neighbor_checks_unit.
        + rewrite Forall_forall in HR. now apply HR.
      - now subst. }
    rewrite HE. destruct (existsb (idx3_eqb d) R); simpl.
    + now rewrite andb_false_r.
    + rewrite andb_true_r. destruct (newly c g p d) eqn:Hn.
      * rewrite (A1 d Hd Hn). unfold aux_mark.
        destruct (idx3_eqb d e5); simpl; [|reflexivity].
        apply negb_true_iff, Z.eqb_neq. lia.
      * rewrite A2; [reflexivity|].
        intros d' Hd' Hn' E. apply aux_idx_inj in E.
        -- subst d'. congruence.
        -- now apply neighbor_checks_unit.
        -- now apply neighbor_checks_unit.
  - split; [exact Hg1|]. split; [now rewrite fold_upd_shape|].
    split; [exact G1|]. split; [exact G2|].
    intros r. apply fold_upd_cell.
Qed.

End StepSpec.

Lemma wrap3_valid (sh q : idx3) : in_shape sh q = true -> wrap3 sh q = q.
Proof. intros H. unfold wrap3. now rewrite np_index3_valid. Qed.


(** An example of a case table: the code 40 of octant 8 (the expanded cell
    at corner 3 and the body-diagonal cell at corner 5, nothing else) is
    split into its two corners. *)
Definition diagonal_outliers (cs : Z) : list (list Z) :=
  if cs =? 40 then [[3]; [5]] else [].

(** Two cells that touch at a corner only: (0,0,0) and (1,1,1). *)
Definition diagonal_pair : ndarray bool :=
  pad 2 2 2 (mkArr (2, 2, 2)
                   (fun q => idx3_eqb q (0, 0, 0) || idx3_eqb q (1, 1, 1))).



(** With that table the step at (0,0,0) resets the diagonal cell
    (1,1,1), and the frontier stays empty. *)
Example diagonal_pair_retracted :
  retracted diagonal_outliers (linked diagonal_pair (full (3, 3, 3) 0) (0, 0, 0)) = [c1] /\
  match expand_cell diagonal_outliers true diagonal_pair 1 (0, 0, 0) (full (3, 3, 3) 0) with
  | Ok (g2, adds) => cell g2 (1, 1, 1) = 0 /\ adds = []
  | _ => False
  end.
Proof. vm_compute. auto. Qed.

(** A case table that names a face neighbor: the code 48 of octant 1 (the
    expanded cell at corner 4 and its face neighbor [f1] at corner 5,
    nothing else) with the subset [[5]], which omits the anchor 4.  Every
    corner it names has its bit set in the code. *)
Definition face_outliers (cs : Z) : list (list Z) :=
  if cs =? 48 then [[5]] else [].




(* ================================================================== *)
(** * Properties: the case table *)

(** What the labeler needs of the case table: a subset names only
    corners whose bit is set in the case code it is listed for (the
    corners the octant has linked). *)
Definition table_wf (outliers : Z -> list (list Z)) : Prop :=
  forall cs rv v, In rv (outliers cs) -> In v rv -> Z.testbit cs v = true.

(** [face_outliers] is such a table. *)
Example face_outliers_wf : table_wf face_outliers.
Proof.
  intros cs rv v Hrv Hv. unfold face_outliers in Hrv.
  destruct (Z.eqb_spec cs 48) as [->|_]; [|contradiction].
  destruct Hrv as [<-|[]]. destruct Hv as [<-|[]]. reflexivity.
Qed.

Lemma find_case_number_testbit (b0 b1 b2 b3 b4 b5 b6 b7 : bool) (v : Z) (b : bool) :
  list_get [b0; b1; b2; b3; b4; b5; b6; b7] v = Some b -> 0 <= v < 8 ->
  Z.testbit (find_case_number [b0; b1; b2; b3; b4; b5; b6; b7]) v = b.
Proof.
  intros H Hv.
  assert (Hc : v = 0 \/ v = 1 \/ v = 2 \/ v = 3 \/ v = 4 \/ v = 5 \/ v = 6 \/ v = 7) by lia.
  destruct Hc as [->|[->|[->|[->|[->|[->|[->| ->]]]]]]];
    cbv in H; injection H as <-;
    destruct b0, b1, b2, b3, b4, b5, b6, b7; vm_compute; reflexivity.
Qed.

Lemma list_get_map {A B : Type} (f : A -> B) (l : list A) (i : Z) :
  list_get (map f l) i = option_map f (list_get l i).
Proof.
  unfold list_get. rewrite length_map.
  destruct (np_index (Z.of_nat (length l)) i); [|reflexivity].
  apply nth_error_map.
Qed.

Lemma list_get_In {A : Type} (l : list A) (i : Z) (x : A) :
  list_get l i = Some x -> In x l.
Proof.
  unfold list_get. destruct (np_index (Z.of_nat (length l)) i); [|discriminate].
  apply nth_error_In.
Qed.

(** Under a well-formed table the resolver resets linked neighbors only. *)
Lemma retracted_linked (outliers : Z -> list (list Z)) (fl : flags) (d : idx3) :
  table_wf outliers -> In d (retracted outliers fl) -> fl d = true.
Proof.
  intros Hwf H. unfold retracted, octant_targets in H.
  apply in_flat_map in H. destruct H as (ii & _ & H).
  destruct (list_get (_cases fl) ii) as [cs|] eqn:Hcs; [|contradiction].
  apply in_flat_map in H. destruct H as (rv & Hrv & H).
  destruct (existsb (Z.eqb (anchor ii)) rv); [contradiction|].
  apply in_flat_map in H. destruct H as (v & Hv & H).
  destruct (remove_target ii v) as [d'|] eqn:E; [|contradiction].
  destruct H as [<-|[]].
  destruct (remove_target_flag fl ii v d' E) as (cube & Hcube & Hb & _ & Hv8).
  unfold _cases in Hcs. rewrite list_get_map, Hcube in Hcs. injection Hcs as <-.
  pose proof (Hwf _ _ _ Hrv Hv) as Hbit.
  apply list_get_In in Hcube. unfold _cubes in Hcube. simpl in Hcube.
  repeat (destruct Hcube as [<-|Hcube];
          [rewrite (find_case_number_testbit _ _ _ _ _ _ _ _ v _ Hb Hv8) in Hbit;
           exact Hbit|]).
  contradiction.
Qed.

Lemma diagonal_outliers_wf : table_wf diagonal_outliers.
Proof.
  intros cs rv v Hrv Hv. unfold diagonal_outliers in Hrv.
  destruct (cs =? 40) eqn:E; [|contradiction].
  apply Z.eqb_eq in E. subst cs.
  destruct Hrv as [<-|[<-|[]]]; destruct Hv as [<-|[]]; reflexivity.
Qed.

Lemma no_outliers_wf : table_wf no_outliers.
Proof. intros cs rv v []. Qed.

(* ================================================================== *)
(** * Properties: the labeling of one structure *)

Lemma uint32_small (v : Z) : 0 <= v < 2 ^ 32 -> uint32 v = v.
Proof. intros H. unfold uint32. now apply Z.mod_small. Qed.

Lemma NoDup_map_add (p : idx3) (K : list idx3) :
  NoDup K -> NoDup (map (idx3_add p) K).
Proof.
  induction 1 as [|d K Hd Hnd IH]; simpl; constructor; [|exact IH].
  intros H. apply in_map_iff in H. destruct H as (d' & E & Hd').
  apply idx3_add_inj in E. now subst.
Qed.

Definition idx3_neg (d : idx3) : idx3 := let '(a, b, e) := d in (- a, - b, - e).

Lemma neighbor_checks_neg (d : idx3) :
  In d neighbor_checks -> In (idx3_neg d) neighbor_checks.
Proof.
  unfold neighbor_checks. simpl. intros H.
  repeat (destruct H as [<-|H]; [simpl; tauto|]). contradiction.
Qed.

Lemma idx3_add_neg (r d : idx3) : idx3_add (idx3_add r d) (idx3_neg d) = r.
Proof.
  destruct r as [[i j] k], d as [[a b] e]. cbn [idx3_add idx3_neg].
  f_equal; [f_equal|]; lia.
Qed.

(** Where a list extended by one element splits. *)
Lemma split_snoc {A : Type} (pre pre1 pre2 : list A) (q q0 : A) :
  pre ++ [q] = pre1 ++ q0 :: pre2 ->
  (pre2 = [] /\ pre1 = pre /\ q0 = q) \/
  (exists pre2', pre2 = pre2' ++ [q] /\ pre = pre1 ++ q0 :: pre2').
Proof.
  intros H. destruct (exists_last (l := q0 :: pre2)) as (l' & x & E); [discriminate|].
  destruct pre2 as [|y pre2].
  - left. change (pre ++ [q] = pre1 ++ [q0]) in H. apply app_inj_tail in H.
    destruct H as [-> ->]. auto.
  - right. destruct (exists_last (l := y :: pre2)) as (l2 & x2 & E2); [discriminate|].
    rewrite E2 in H. change (pre ++ [q] = pre1 ++ (q0 :: l2) ++ [x2]) in H.
    rewrite app_assoc in H. apply app_inj_tail in H. destruct H as [-> ->].
    exists l2. now split.
Qed.

(** A loop invariant indexed by the part of the list already visited. *)
Lemma for_each_prefix_inv {A S : Type} (I : list A -> S -> Prop)
  (body : A -> S -> outcome S) (l : list A) (s0 : S) :
  (forall pre x post s, l = pre ++ x :: post -> I pre s ->
                        exists s', body x s = Ok s' /\ I (pre ++ [x]) s') ->
  I [] s0 ->
  exists s', for_each l body s0 = Ok s' /\ I l s'.
Proof.
  intros Hstep H0.
  assert (H : forall post pre s, l = pre ++ post -> I pre s ->
                exists s', for_each post body s = Ok s' /\ I l s').
  { induction post as [|x post IH]; intros pre s E Hs.
    - rewrite app_nil_r in E. subst pre. exists s. now split.
    - destruct (Hstep pre x post s E Hs) as (s1 & Hb & H1).
      cbn [for_each]. rewrite Hb. cbn [bind].
      apply (IH (pre ++ [x])); [|exact H1].
      now rewrite <- app_assoc. }
  exact (H l [] s0 eq_refl H0).
Qed.

Section Labeling.

Variables (c : ndarray bool) (xlen ylen zlen : Z).
Hypothesis Hx : 0 <= xlen.
Hypothesis Hy : 0 <= ylen.
Hypothesis Hz : 0 <= zlen.
Hypothesis Hpad : padded c xlen ylen zlen.
Variable outliers : Z -> list (list Z).
Variable mc : bool.
Hypothesis Hmode : mc = false \/ table_wf outliers.

Local Abbreviation S3 := (xlen + 1, ylen + 1, zlen + 1).
Local Abbreviation inner := (inner xlen ylen zlen).

(** A label grid of the padded shape with no negative entry. *)
Definition grid_ok (g : ndarray Z) : Prop :=
  shape g = S3 /\ forall r, 0 <= cell g r.

(** From [g] to [g']: a cell keeps its label, or goes from 0 to [sv] and
    is occupied. *)
Definition grows (sv : Z) (g g' : ndarray Z) : Prop :=
  forall r, cell g' r = cell g r \/
            (cell g r = 0 /\ cell g' r = sv /\ cell c r = true).

Lemma grows_refl (sv : Z) (g : ndarray Z) : grows sv g g.
Proof. intros r. now left. Qed.

Lemma grows_trans (sv : Z) (g1 g2 g3 : ndarray Z) :
  0 < sv -> grows sv g1 g2 -> grows sv g2 g3 -> grows sv g1 g3.
Proof.
  intros Hsv H12 H23 r. destruct (H12 r) as [E|(E0 & E1 & Ec)], (H23 r) as [F|(F0 & F1 & Fc)].
  - left. congruence.
  - right. repeat split; congruence.
  - right. repeat split; congruence.
  - lia.
Qed.

Lemma grows_keeps (sv : Z) (g g' : ndarray Z) (r : idx3) :
  grows sv g g' -> 0 < cell g r -> cell g' r = cell g r.
Proof. intros H Hr. destruct (H r) as [E|(E & _)]; [exact E|lia]. Qed.

Lemma newly_inner (g : ndarray Z) (p d : idx3) :
  newly c g p d = true -> inner (idx3_add p d).
Proof.
  unfold newly. intros H. apply andb_true_iff in H. destruct H as [H _].
  now apply Hpad.
Qed.

(** One step under the side conditions of the labeler: it returns, the
    frontier gains the kept cells, which were unlabeled and now carry the
    label, and nothing else changes. *)
Lemma expand_cell_step (sv : Z) (p : idx3) (g : ndarray Z) :
  inner p -> grid_ok g -> 0 < sv < 2 ^ 32 ->
  exists g2 K,
    expand_cell outliers mc c sv p g = Ok (g2, map (idx3_add p) K) /\
    grid_ok g2 /\ NoDup K /\
    (forall d, In d K -> In d neighbor_checks /\ newly c g p d = true) /\
    (forall d, In d K -> cell g2 (idx3_add p d) = sv) /\
    (forall r, (forall d, In d K -> r <> idx3_add p d) -> cell g2 r = cell g r) /\
    (mc = false -> forall d, In d neighbor_checks -> newly c g p d = true -> In d K).
Proof.
  intros Hp [Hg Hnn] Hsv.
  destruct (expand_cell_general c xlen ylen zlen Hx Hy Hz Hpad outliers sv
              mc p g Hp Hg (proj1 Hsv)) as (g1 & g2 & He & Hg1 & Hg2 & G1 & G2 & G3).
  rewrite (uint32_small sv) in G1 by lia.
  pose proof (fun d => kept_In c outliers mc g p d) as HK.
  assert (HR : forall d, In d (reset_offsets c outliers mc g p) ->
                         In d neighbor_checks /\ newly c g p d = true).
  { intros d Hd. unfold reset_offsets in Hd. destruct mc; [|contradiction].
    destruct Hmode as [Hm|Hwf]; [discriminate|].
    apply (retracted_linked outliers _ d Hwf) in Hd. unfold linked in Hd.
    apply andb_true_iff in Hd. destruct Hd as [Hin Hn].
    split; [now apply in_checks_existsb|exact Hn]. }
  assert (HRf : mc = false -> reset_offsets c outliers mc g p = [])
    by (intros ->; reflexivity).
  assert (HKnd : NoDup (kept c outliers mc g p))
    by (apply NoDup_filter, neighbor_checks_NoDup).
  remember (kept c outliers mc g p) as K eqn:EK. clear EK.
  remember (reset_offsets c outliers mc g p) as R eqn:ER. clear ER.
  assert (Hdec : forall d, In d R \/ ~ In d R).
  { intros d. destruct (existsb (idx3_eqb d) R) eqn:E.
    - left. apply existsb_exists in E. destruct E as (e & He' & E).
      apply idx3_eqb_eq in E. now subst.
    - right. intros Hin. apply not_true_iff_false in E. apply E.
      apply existsb_exists. exists d. split; [exact Hin|apply idx3_eqb_refl]. }
  assert (Hwrap : forall d, newly c g p d = true ->
                            wrap3 S3 (idx3_add p d) = idx3_add p d).
  { intros d Hn. apply wrap3_valid. apply (inner_in_shape xlen ylen zlen).
    now apply newly_inner in Hn. }
  assert (Hcell : forall d, In d K -> cell g2 (idx3_add p d) = sv).
  { intros d Hd. apply HK in Hd. destruct Hd as (Hin & Hn & HnR).
    rewrite G3.
    destruct (existsb (fun d0 => idx3_eqb (idx3_add p d) (wrap3 S3 (idx3_add p d0))) R)
      eqn:E.
    - apply existsb_idx3 in E. destruct E as (d' & Hd' & E). exfalso.
      rewrite (Hwrap d' (proj2 (HR d' Hd'))) in E.
      apply idx3_add_inj in E. subst d'. contradiction.
    - now apply G1. }
  exists g2, K. split; [exact He|]. split; [|split; [exact HKnd|split; [|split; [exact Hcell|split]]]].
  - split; [exact Hg2|]. intros r. rewrite G3.
    destruct (existsb _ R); [lia|].
    destruct (existsb (fun d => idx3_eqb r (idx3_add p d) && newly c g p d) neighbor_checks)
      eqn:E.
    + apply existsb_exists in E. destruct E as (d & Hd & E).
      apply andb_true_iff in E. destruct E as [E Hn]. apply idx3_eqb_eq in E. subst r.
      rewrite (G1 d Hd Hn). lia.
    + rewrite G2; [apply Hnn|]. intros d Hd Hn ->.
      apply not_true_iff_false in E. apply E. apply existsb_exists.
      exists d. split; [exact Hd|]. now rewrite idx3_eqb_refl, Hn.
  - intros d Hd. apply HK in Hd. tauto.
  - intros r Hr. rewrite G3.
    destruct (existsb (fun d0 => idx3_eqb r (wrap3 S3 (idx3_add p d0))) R) eqn:E.
    + apply existsb_idx3 in E. destruct E as (d' & Hd' & E).
      destruct (HR d' Hd') as [Hin Hn].
      rewrite (Hwrap d' Hn) in E. subst r.
      unfold newly in Hn. apply andb_true_iff in Hn. destruct Hn as [_ Hn].
      apply negb_true_iff, Z.ltb_ge in Hn.
      pose proof (Hnn (idx3_add p d')). lia.
    + apply G2. intros d Hd Hn ->.
      destruct (Hdec d) as [HdR|HdR].
      * apply not_true_iff_false in E. apply E. apply existsb_idx3.
        exists d. split; [exact HdR|]. now rewrite (Hwrap d Hn).
      * apply (Hr d); [|reflexivity]. apply HK. auto.
  - intros Hm d Hd Hn. apply HK. split; [exact Hd|]. split; [exact Hn|].
    rewrite (HRf Hm). auto.
Qed.

(** Every occupied neighbor of the cell carries a label. *)
Definition closed (g : ndarray Z) (r : idx3) : Prop :=
  forall d, In d neighbor_checks -> cell c (idx3_add r d) = true ->
            0 < cell g (idx3_add r d).

Lemma closed_grows (sv : Z) (g g' : ndarray Z) (r : idx3) :
  grows sv g g' -> closed g r -> closed g' r.
Proof.
  intros Hg Hc d Hd Ho. specialize (Hc d Hd Ho).
  now rewrite (grows_keeps sv g g' _ Hg Hc).
Qed.

Lemma range_In (n i : Z) : In i (range n) <-> 0 <= i < n.
Proof.
  unfold range. rewrite in_map_iff. split.
  - intros (m & <- & Hm). apply in_seq in Hm. lia.
  - intros Hi. exists (Z.to_nat i). split; [lia|]. apply in_seq. lia.
Qed.

Lemma coords_In (sh q : idx3) : In q (coords sh) <-> in_shape sh q = true.
Proof.
  destruct sh as [[nx ny] nz], q as [[i j] k]. rewrite in_shape_true.
  unfold coords. rewrite in_flat_map. split.
  - intros (i' & Hi & H). apply in_flat_map in H. destruct H as (j' & Hj & H).
    apply in_map_iff in H. destruct H as (k' & E & Hk). injection E as <- <- <-.
    apply range_In in Hi, Hj, Hk. lia.
  - intros (Hi & Hj & Hk). exists i. split; [now apply range_In|].
    apply in_flat_map. exists j. split; [now apply range_In|].
    apply in_map_iff. exists k. split; [reflexivity|now apply range_In].
Qed.

Lemma list_get_nth {A : Type} (l : list A) (n : Z) :
  0 <= n -> list_get l n = nth_error l (Z.to_nat n).
Proof.
  intros Hn. unfold list_get, np_index.
  destruct (Z.ltb_spec n (Z.of_nat (length l))) as [H|H].
  - replace (0 <=? n) with true by (symmetry; now apply Z.leb_le). reflexivity.
  - rewrite andb_false_r. replace (n <? 0) with false by (symmetry; apply Z.ltb_ge; lia).
    simpl. symmetry. apply nth_error_None. lia.
Qed.

(** The number of cells of the padded grid: the bound on the frontier. *)
Definition cells : nat := length (coords S3).

Lemma frontier_bound (nv : list idx3) :
  NoDup nv -> (forall q, In q nv -> inner q) -> (length nv <= cells)%nat.
Proof.
  intros Hnd Hin. apply NoDup_incl_length; [exact Hnd|].
  intros q Hq. apply coords_In. apply (inner_in_shape xlen ylen zlen). auto.
Qed.

(** A step seen from outside: the grid only grows. *)
Lemma step_grows (sv : Z) (p : idx3) (g g2 : ndarray Z) (K : list idx3) :
  (forall r, 0 <= cell g r) ->
  (forall d, In d K -> In d neighbor_checks /\ newly c g p d = true) ->
  (forall d, In d K -> cell g2 (idx3_add p d) = sv) ->
  (forall r, (forall d, In d K -> r <> idx3_add p d) -> cell g2 r = cell g r) ->
  grows sv g g2.
Proof.
  intros Hnn HK Hc Hu r.
  destruct (existsb (fun d => idx3_eqb r (idx3_add p d)) K) eqn:E.
  - apply existsb_idx3 in E. destruct E as (d & Hd & ->). right.
    destruct (HK d Hd) as [_ Hn]. unfold newly in Hn.
    apply andb_true_iff in Hn. destruct Hn as [Ho Hn].
    apply negb_true_iff, Z.ltb_ge in Hn. pose proof (Hnn (idx3_add p d)).
    split; [lia|]. split; [now apply Hc|exact Ho].
  - left. apply Hu. intros d Hd ->. apply not_true_iff_false in E. apply E.
    apply existsb_idx3. eauto.
Qed.

(** The loop once the first cell has been expanded: it returns before
    the budget runs out, the grid has only grown, and with the resolver
    off every cell of the structure has all its occupied neighbors
    labeled. *)
Lemma expand_loop (sv : Z) (seed : idx3) :
  0 < sv < 2 ^ 32 ->
  forall (fuel : nat) (g : ndarray Z) (nv : list idx3) (nc lc : Z) (p : idx3),
    grid_ok g -> NoDup nv ->
    (forall q, In q nv -> inner q /\ cell g q = sv) ->
    0 <= nc <= Z.of_nat (length nv) -> 0 < lc ->
    (cells - Z.to_nat nc < fuel)%nat ->
    (mc = false ->
       (forall r, cell g r = sv -> r = seed \/ In r nv) /\
       closed g seed /\
       (forall m q, (m < Z.to_nat nc)%nat -> nth_error nv m = Some q -> closed g q)) ->
    exists g' nv',
      expand outliers fuel mc c sv g nv lc nc p = Ok (g', nv') /\
      grid_ok g' /\ grows sv g g' /\
      (mc = false -> forall r, cell g' r = sv -> closed g' r).
Proof.
  intros Hsv. induction fuel as [|fuel IH]; intros g nv nc lc p Hg Hnd Hnv Hnc Hlc Hfuel Hcl.
  - lia.
  - cbn [expand]. replace (0 <? lc) with true by (symmetry; now apply Z.ltb_lt).
    rewrite list_get_nth by lia.
    destruct (nth_error nv (Z.to_nat nc)) as [q|] eqn:Hq.
    + assert (Hlt : (Z.to_nat nc < length nv)%nat)
        by (apply nth_error_Some; congruence).
      pose proof (nth_error_In _ _ Hq) as Hqin.
      destruct (Hnv q Hqin) as [Hqi Hqs].
      destruct (expand_cell_step sv q g Hqi Hg Hsv)
        as (g2 & K & He & Hg2 & HKnd & HK & Hc & Hu & Hall).
      rewrite He. cbn [bind].
      pose proof (step_grows sv q g g2 K (proj2 Hg) HK Hc Hu) as Hgr.
      assert (Hfresh : forall d, In d K -> ~ In (idx3_add q d) nv).
      { intros d Hd Hin. destruct (HK d Hd) as [_ Hn]. unfold newly in Hn.
        apply andb_true_iff in Hn. destruct Hn as [_ Hn].
        apply negb_true_iff, Z.ltb_ge in Hn. destruct (Hnv _ Hin) as [_ E]. lia. }
      assert (Hnd' : NoDup (nv ++ map (idx3_add q) K)).
      { apply NoDup_app; [exact Hnd| |].
        - now apply NoDup_map_add.
        - intros x Hxin Hx'. apply in_map_iff in Hx'. destruct Hx' as (d & <- & Hd).
          exact (Hfresh d Hd Hxin). }
      assert (Hnv' : forall x, In x (nv ++ map (idx3_add q) K) -> inner x /\ cell g2 x = sv).
      { intros x Hxin. apply in_app_iff in Hxin. destruct Hxin as [Hxin|Hxin].
        - destruct (Hnv x Hxin) as [Hi Hs]. split; [exact Hi|].
          rewrite Hu; [exact Hs|]. intros d Hd ->. exact (Hfresh d Hd Hxin).
        - apply in_map_iff in Hxin. destruct Hxin as (d & <- & Hd). split.
          + apply (newly_inner g q d). now apply HK.
          + now apply Hc. }
      pose proof (frontier_bound nv Hnd (fun x Hxin => proj1 (Hnv x Hxin))) as Hb.
      destruct (IH g2 (nv ++ map (idx3_add q) K) (nc + 1) (lc + 1) q Hg2 Hnd' Hnv')
        as (g' & nv' & Hex & Hg' & Hgr' & Hcl').
      * rewrite length_app. lia.
      * lia.
      * lia.
      * intros Hm. destruct (Hcl Hm) as (Ha & Hb' & Hc'). split; [|split].
        -- intros r Hr.
           destruct (existsb (fun d => idx3_eqb r (idx3_add q d)) K) eqn:E.
           ++ apply existsb_idx3 in E. destruct E as (d & Hd & ->).
              right. apply in_app_iff. right. now apply in_map.
           ++ rewrite Hu in Hr.
              ** destruct (Ha r Hr) as [->|Hin]; [now left|].
                 right. apply in_app_iff. now left.
              ** intros d Hd ->. apply not_true_iff_false in E. apply E.
                 apply existsb_idx3. eauto.
        -- now apply (closed_grows sv g g2).
        -- intros m x Hm' Hxm.
           destruct (Nat.eq_dec m (Z.to_nat nc)) as [->|Hne].
           ++ rewrite nth_error_app1 in Hxm by exact Hlt.
              assert (x = q) by congruence. subst x.
              intros d Hd Ho.
              destruct (newly c g q d) eqn:Hn.
              ** rewrite (Hc d (Hall Hm d Hd Hn)). lia.
              ** unfold newly in Hn. rewrite Ho in Hn. cbn [andb] in Hn.
                 apply negb_false_iff, Z.ltb_lt in Hn.
                 now rewrite (grows_keeps sv g g2 _ Hgr Hn).
           ++ assert (Hm2 : (m < Z.to_nat nc)%nat) by lia.
              rewrite nth_error_app1 in Hxm by lia.
              apply (closed_grows sv g g2); [exact Hgr|]. now apply (Hc' m).
      * exists g', nv'. rewrite Z.add_comm in Hex.
        replace (1 + lc) with (lc + 1) in Hex by lia.
        replace (1 + nc) with (nc + 1) in Hex by lia.
        split; [exact Hex|]. split; [exact Hg'|]. split; [|exact Hcl'].
        apply (grows_trans sv g g2 g'); auto; lia.
    + exists g, nv. split; [reflexivity|]. split; [exact Hg|].
      split; [apply grows_refl|].
      intros Hm r Hr. destruct (Hcl Hm) as (Ha & Hb' & Hc').
      apply nth_error_None in Hq.
      destruct (Ha r Hr) as [->|Hin]; [exact Hb'|].
      apply In_nth_error in Hin. destruct Hin as [m Hm'].
      apply (Hc' m); [|exact Hm'].
      assert ((m < length nv)%nat) by (apply nth_error_Some; congruence). lia.
Qed.

(** The whole loop for one structure, from its first cell. *)
Lemma expand_structure (sv : Z) (seed : idx3) (g : ndarray Z) (fuel : nat) :
  0 < sv < 2 ^ 32 -> inner seed -> grid_ok g ->
  cell g seed = sv -> (forall r, cell g r = sv -> r = seed) ->
  (cells + 2 <= fuel)%nat ->
  exists g' nv',
    expand outliers fuel mc c sv g [] 0 0 seed = Ok (g', nv') /\
    grid_ok g' /\ grows sv g g' /\
    (mc = false -> forall r, cell g' r = sv -> closed g' r).
Proof.
  intros Hsv Hseed Hg Hs Honly Hfuel.
  destruct fuel as [|fuel]; [lia|]. cbn [expand].
  replace (0 <? 0) with false by reflexivity.
  destruct (expand_cell_step sv seed g Hseed Hg Hsv)
    as (g2 & K & He & Hg2 & HKnd & HK & Hc & Hu & Hall).
  rewrite He. cbn [bind app].
  pose proof (step_grows sv seed g g2 K (proj2 Hg) HK Hc Hu) as Hgr.
  destruct (expand_loop sv seed Hsv fuel g2 (map (idx3_add seed) K) 0 (0 + 1) seed Hg2)
    as (g' & nv' & Hex & Hg' & Hgr' & Hcl').
  - now apply NoDup_map_add.
  - intros x Hxin. apply in_map_iff in Hxin. destruct Hxin as (d & <- & Hd). split.
    + apply (newly_inner g seed d). now apply HK.
    + now apply Hc.
  - lia.
  - lia.
  - lia.
  - intros Hm. split; [|split].
    + intros r Hr.
      destruct (existsb (fun d => idx3_eqb r (idx3_add seed d)) K) eqn:E.
      * apply existsb_idx3 in E. destruct E as (d & Hd & ->). right. now apply in_map.
      * left. apply Honly. rewrite <- Hr. symmetry. apply Hu.
        intros d Hd ->. apply not_true_iff_false in E. apply E.
        apply existsb_idx3. eauto.
    + intros d Hd Ho. destruct (newly c g seed d) eqn:Hn.
      * rewrite (Hc d (Hall Hm d Hd Hn)). lia.
      * unfold newly in Hn. rewrite Ho in Hn. cbn [andb] in Hn.
        apply negb_false_iff, Z.ltb_lt in Hn.
        now rewrite (grows_keeps sv g g2 _ Hgr Hn).
    + intros m q Hm'. lia.
  - exists g', nv'. split; [exact Hex|]. split; [exact Hg'|]. split; [|exact Hcl'].
    apply (grows_trans sv g g2 g'); auto; lia.
Qed.

(** ** The scan *)

(** What holds of [_structVal], the grid and the printed values when the
    cells [pre] have been visited. *)
Definition scan_inv (pre : list idx3) (st : Z * ndarray Z * list Z) : Prop :=
  let '(sv, g, printed) := st in
  grid_ok g /\
  0 <= sv <= Z.of_nat (length pre) /\
  (forall r, cell g r <= sv) /\
  (forall r, 0 < cell g r -> cell c r = true) /\
  (forall q, In q pre -> cell c q = true -> 0 < cell g q) /\
  printed = map Z.of_nat (seq 1 (Z.to_nat sv)) /\
  (forall m, 0 < m <= sv -> exists w, In w pre /\ cell g w = m) /\
  (forall pre1 q pre2, pre = pre1 ++ q :: pre2 -> 0 < cell g q ->
     forall m, 0 < m < cell g q -> exists w, In w pre1 /\ cell g w = m) /\
  (mc = false ->
     forall r d, 0 < cell g r -> In d neighbor_checks ->
                 cell c (idx3_add r d) = true -> cell g (idx3_add r d) = cell g r).

Lemma scan_inv_skip (pre : list idx3) (q : idx3) (st : Z * ndarray Z * list Z) :
  scan_inv pre st ->
  (let '(sv, g, _) := st in cell c q = true -> 0 < cell g q) ->
  scan_inv (pre ++ [q]) st.
Proof.
  destruct st as [[sv g] printed]. unfold scan_inv.
  intros (Hg & Hsv & Hb & Hocc & Hpre & Hpr & Hseed & Hfe & Hcl) Hq.
  split; [exact Hg|]. split; [rewrite length_app; simpl; lia|].
  split; [exact Hb|]. split; [exact Hocc|]. split; [|split; [exact Hpr|split; [|split]]].
  - intros q' Hin. apply in_app_iff in Hin. destruct Hin as [Hin|[<-|[]]]; auto.
  - intros m Hm. destruct (Hseed m Hm) as (w & Hw & E). exists w.
    split; [apply in_app_iff; now left|exact E].
  - intros pre1 q0 pre2 E Hpos m Hm.
    apply split_snoc in E. destruct E as [(-> & -> & ->)|(pre2' & -> & ->)].
    + apply Hseed. pose proof (Hb q). lia.
    + now apply (Hfe pre1 q0 pre2').
  - exact Hcl.
Qed.

Lemma visit_inv (fuel : nat) (pre : list idx3) (q : idx3) (st : Z * ndarray Z * list Z) :
  scan_inv pre st -> in_shape S3 q = true ->
  Z.of_nat (length pre) + 1 < 2 ^ 32 -> (cells + 2 <= fuel)%nat ->
  exists st', visit outliers fuel mc c q st = Ok st' /\ scan_inv (pre ++ [q]) st'.
Proof.
  intros Hinv Hq Hlen Hfuel. destruct st as [[sv g] printed].
  pose proof Hinv as (Hg & Hsv & Hb & Hocc & Hpre & Hpr & Hseed & Hfe & Hcl).
  unfold visit.
  rewrite (getitem_cell c q q)
    by (rewrite (proj1 Hpad); now apply np_index3_valid).
  cbn [subscript bind].
  destruct (cell c q) eqn:Hcq.
  - rewrite (getitem_cell g q q)
      by (rewrite (proj1 Hg); now apply np_index3_valid).
    cbn [subscript bind].
    destruct (Z.ltb_spec 0 (cell g q)) as [Hpos|Hzero].
    + eexists. split; [reflexivity|]. apply scan_inv_skip; [exact Hinv|]. auto.
    + assert (Hq0 : cell g q = 0) by (pose proof (proj2 Hg q); lia).
      assert (Hsv' : 0 < sv + 1 < 2 ^ 32) by lia.
      rewrite (setitem_upd g q q) by (rewrite (proj1 Hg); now apply np_index3_valid).
      rewrite (uint32_small (sv + 1)) by lia. cbn [subscript bind].
      assert (Hg1 : grid_ok (upd g q (sv + 1))).
      { split; [exact (proj1 Hg)|]. intros r. unfold upd. cbn [cell].
        destruct (idx3_eqb r q); [lia|apply Hg]. }
      destruct (expand_structure (sv + 1) q (upd g q (sv + 1)) fuel Hsv'
                  (occupied_inner c xlen ylen zlen Hpad q Hcq) Hg1 (upd_same g q (sv + 1)))
        as (g' & nv' & Hex & Hg' & Hgr & Hclosed).
      * intros r Hr. destruct (idx3_eqb r q) eqn:E; [now apply idx3_eqb_eq|].
        apply idx3_eqb_neq in E. rewrite upd_other in Hr by exact E.
        pose proof (Hb r). lia.
      * exact Hfuel.
      * rewrite Hex. cbn [bind]. eexists. split; [reflexivity|].
        assert (Hnew : forall x, cell g' x = sv + 1 \/ cell g' x = cell g x).
        { intros x. destruct (Hgr x) as [E|(_ & E & _)]; [|now left].
          destruct (idx3_eqb x q) eqn:Exq.
          - apply idx3_eqb_eq in Exq. subst x. left. now rewrite E, upd_same.
          - apply idx3_eqb_neq in Exq. right. now rewrite E, upd_other. }
        assert (Hkeep : forall x, 0 < cell g x -> cell g' x = cell g x).
        { intros x Hxp. assert (x <> q) by (intros ->; lia).
          rewrite (grows_keeps (sv + 1) _ g' x Hgr); rewrite upd_other; auto. }
        assert (Hqs : cell g' q = sv + 1).
        { rewrite (grows_keeps (sv + 1) _ g' q Hgr); rewrite upd_same; lia. }
        assert (Hocc' : forall r, 0 < cell g' r -> cell c r = true).
        { intros r Hr. destruct (Hgr r) as [E|(_ & _ & E)]; [|exact E].
          destruct (idx3_eqb r q) eqn:Erq.
          - apply idx3_eqb_eq in Erq. now subst.
          - apply idx3_eqb_neq in Erq. rewrite E, upd_other in Hr by exact Erq.
            now apply Hocc. }
        unfold scan_inv.
        split; [exact Hg'|]. split; [rewrite length_app; simpl; lia|].
        split; [|split; [exact Hocc'|split; [|split; [|split; [|split]]]]].
        -- intros r. destruct (Hnew r) as [E|E]; rewrite E; [lia|].
           pose proof (Hb r). lia.
        -- intros q' Hin Hc'. apply in_app_iff in Hin. destruct Hin as [Hin|[<-|[]]].
           ++ rewrite Hkeep; auto.
           ++ lia.
        -- rewrite Hpr. replace (Z.to_nat (sv + 1)) with (S (Z.to_nat sv)) by lia.
           rewrite seq_S, map_app. cbn [map]. do 2 f_equal. lia.
        -- intros m Hm. destruct (Z.eq_dec m (sv + 1)) as [->|Hne].
           ++ exists q. split; [apply in_app_iff; right; now left|exact Hqs].
           ++ destruct (Hseed m) as (w & Hw & E); [lia|]. exists w.
              split; [apply in_app_iff; now left|]. rewrite Hkeep; lia.
        -- intros pre1 q0 pre2 E Hpos m Hm.
           apply split_snoc in E. destruct E as [(-> & -> & ->)|(pre2' & -> & ->)].
           ++ rewrite Hqs in Hm. destruct (Hseed m) as (w & Hw & E); [lia|].
              exists w. split; [exact Hw|]. rewrite Hkeep; lia.
           ++ assert (Hin0 : In q0 (pre1 ++ q0 :: pre2'))
                by (apply in_app_iff; right; now left).
              pose proof (Hpre q0 Hin0 (Hocc' q0 Hpos)) as Hpos0.
              rewrite (Hkeep q0 Hpos0) in Hm.
              destruct (Hfe pre1 q0 pre2' eq_refl Hpos0 m Hm) as (w & Hw & E).
              exists w. split; [exact Hw|]. rewrite Hkeep; lia.
        -- intros Hm r d Hr Hd Ho.
           destruct (Z.eq_dec (cell g' r) (sv + 1)) as [Er|Er].
           ++ pose proof (Hclosed Hm r Er d Hd Ho) as Hpos.
              destruct (Hnew (idx3_add r d)) as [E|E]; [congruence|].
              exfalso. rewrite E in Hpos.
              pose proof (Hcl Hm (idx3_add r d) (idx3_neg d) Hpos
                            (neighbor_checks_neg d Hd)) as Hback.
              rewrite idx3_add_neg in Hback.
              specialize (Hback (Hocc' r Hr)).
              assert (0 < cell g r) by lia.
              rewrite (Hkeep r) in Er by assumption.
              pose proof (Hb r). lia.
           ++ destruct (Hnew r) as [E|E]; [contradiction|].
              rewrite E in Hr.
              pose proof (Hcl Hm r d Hr Hd Ho) as Hsame.
              rewrite E, <- Hsame. apply Hkeep. lia.
  - eexists. split; [reflexivity|]. apply scan_inv_skip; [exact Hinv|].
    cbn beta iota. congruence.
Qed.

(** The labeler returns, and the invariant holds of all cells. *)
Lemma label_structures_inv (fuel : nat) :
  Z.of_nat cells < 2 ^ 32 -> (cells + 2 <= fuel)%nat ->
  exists st, label_structures outliers fuel mc c xlen ylen zlen = Ok st /\
             scan_inv (coords S3) st.
Proof.
  intros Hsize Hfuel. unfold label_structures.
  apply (for_each_prefix_inv scan_inv).
  - intros pre x post s E Hs. apply visit_inv; auto.
    + apply coords_In. rewrite E. apply in_app_iff. right. now left.
    + unfold cells in Hsize. rewrite E, length_app in Hsize. simpl in Hsize. lia.
  - unfold scan_inv. repeat split; simpl; try lia; try reflexivity; try discriminate.
Qed.

End Labeling.

(* ================================================================== *)
(** * Properties: the label grid *)

Lemma range_length (n : Z) : length (range n) = Z.to_nat n.
Proof. unfold range. now rewrite length_map, length_seq. Qed.

Lemma flat_map_length_const {A B : Type} (f : A -> list B) (k : nat) (l : list A) :
  (forall x, length (f x) = k) -> length (flat_map f l) = (length l * k)%nat.
Proof.
  intros H. induction l as [|x l IH]; simpl; [reflexivity|].
  now rewrite length_app, H, IH.
Qed.

Lemma cells_size (xlen ylen zlen : Z) :
  0 <= xlen -> 0 <= ylen -> 0 <= zlen ->
  cells xlen ylen zlen = Z.to_nat ((xlen + 1) * (ylen + 1) * (zlen + 1)).
Proof.
  intros Hx Hy Hz. unfold cells, coords.
  rewrite (flat_map_length_const _ (Z.to_nat (ylen + 1) * Z.to_nat (zlen + 1))%nat).
  - rewrite range_length. rewrite !Z2Nat.inj_mul by lia. lia.
  - intros i. rewrite (flat_map_length_const _ (Z.to_nat (zlen + 1))).
    + now rewrite range_length.
    + intros j. now rewrite length_map, range_length.
Qed.

(** ** Counting with [np.unique] *)

Lemma sum_from (l : list Z) (a : Z) : fold_left Z.add l a = a + sum l.
Proof.
  unfold sum. revert a. induction l as [|x l IH]; intros a; simpl; [lia|].
  rewrite IH, (IH x). lia.
Qed.

Lemma sum_cons (x : Z) (l : list Z) : sum (x :: l) = x + sum l.
Proof. unfold sum at 1. simpl. apply sum_from. Qed.

(** The total of the counts [np.unique] reports for the values that
    satisfy a test. *)
Definition counted (test : Z -> bool) (u : list (Z * Z)) : Z :=
  sum (map snd (filter (fun vc => test (fst vc)) u)).

Lemma counted_cons (test : Z -> bool) (w n : Z) (u : list (Z * Z)) :
  counted test ((w, n) :: u) = (if test w then n else 0) + counted test u.
Proof.
  unfold counted. cbn [filter fst]. destruct (test w); cbn [map snd].
  - apply sum_cons.
  - reflexivity.
Qed.

Lemma counted_tally (test : Z -> bool) (v : Z) (u : list (Z * Z)) :
  counted test (tally v u) = counted test u + (if test v then 1 else 0).
Proof.
  induction u as [|[w n] u IH]; cbn [tally].
  - rewrite counted_cons. unfold counted, sum. simpl. destruct (test v); lia.
  - destruct (Z.eqb_spec v w) as [->|Hne].
    + rewrite !counted_cons. destruct (test w); lia.
    + destruct (v <? w); rewrite !counted_cons; [|rewrite IH];
        destruct (test v), (test w); lia.
Qed.

Lemma counted_np_unique (test : Z -> bool) (l : list Z) :
  counted test (np_unique l) = Z.of_nat (length (filter test l)).
Proof.
  unfold np_unique.
  assert (H : forall u, counted test (fold_left (fun u' v => tally v u') l u)
                        = counted test u + Z.of_nat (length (filter test l))).
  { induction l as [|v l IH]; intros u; cbn [fold_left filter].
    - simpl. lia.
    - rewrite IH, counted_tally. destruct (test v); simpl length; lia. }
  rewrite H. unfold counted, sum. simpl. lia.
Qed.

Lemma filter_map_length {A : Type} (f g : A -> bool) (l : list A) :
  (forall x, In x l -> f x = g x) -> length (filter f l) = length (filter g l).
Proof.
  intros H. induction l as [|x l IH]; simpl; [reflexivity|].
  rewrite (H x (or_introl eq_refl)).
  destruct (g x); simpl; rewrite IH; auto; intros y Hy; apply H; now right.
Qed.

Lemma filter_map_comm {A B : Type} (f : A -> B) (t : B -> bool) (l : list A) :
  filter t (map f l) = map f (filter (fun x => t (f x)) l).
Proof.
  induction l as [|x l IH]; simpl; [reflexivity|].
  destruct (t (f x)); simpl; now rewrite IH.
Qed.

(** The values [np.unique] lists are in increasing order, each once. *)
Lemma tally_keys (v : Z) (u : list (Z * Z)) (y : Z * Z) :
  In y (tally v u) -> fst y = v \/ exists y', In y' u /\ fst y' = fst y.
Proof.
  induction u as [|[w n] u IH]; cbn [tally].
  - intros [<-|[]]. now left.
  - destruct (Z.eqb_spec v w) as [->|Hne].
    + intros [<-|H]; [now left|]. right. exists y. split; [now right|reflexivity].
    + destruct (v <? w).
      * intros [<-|H]; [now left|]. right. exists y. split; [exact H|reflexivity].
      * intros [<-|H].
        -- right. exists (w, n). split; [now left|reflexivity].
        -- destruct (IH H) as [E|(y' & Hy' & E)]; [now left|].
           right. exists y'. split; [now right|exact E].
Qed.

Lemma tally_sorted (v : Z) (u : list (Z * Z)) :
  StronglySorted (fun x y => fst x < fst y) u ->
  StronglySorted (fun x y => fst x < fst y) (tally v u).
Proof.
  induction 1 as [|[w n] u Hs IH Hall]; cbn [tally].
  - repeat constructor.
  - destruct (Z.eqb_spec v w) as [->|Hne].
    + constructor; [exact Hs|exact Hall].
    + destruct (Z.ltb_spec v w) as [Hlt|Hge].
      * constructor; [now constructor|]. constructor; [exact Hlt|].
        rewrite Forall_forall in *. intros y Hy. specialize (Hall y Hy).
        cbn [fst] in *. lia.
      * constructor; [exact IH|]. rewrite Forall_forall in *. intros y Hy.
        destruct (tally_keys v u y Hy) as [E|(y' & Hy' & E)]; cbn [fst].
        -- lia.
        -- rewrite <- E. exact (Hall y' Hy').
Qed.

Lemma np_unique_sorted (l : list Z) :
  StronglySorted (fun x y => fst x < fst y) (np_unique l).
Proof.
  unfold np_unique.
  assert (H : forall u, StronglySorted (fun x y => fst x < fst y) u ->
            StronglySorted (fun x y => fst x < fst y)
                           (fold_left (fun u' v => tally v u') l u)).
  { induction l as [|v l IH]; intros u Hu; cbn [fold_left]; [exact Hu|].
    apply IH. now apply tally_sorted. }
  apply H. constructor.
Qed.

Lemma range_slice_stop (x : Z) : range (slice_stop x (x + 1)) = range x.
Proof.
  unfold slice_stop, range. destruct (Z.ltb_spec x 0); do 2 f_equal; lia.
Qed.

Lemma crop_padded {A : Type} (a : ndarray A) (xlen ylen zlen : Z) :
  shape a = (xlen + 1, ylen + 1, zlen + 1) ->
  ravel (crop a (xlen, ylen, zlen)) = map (cell a) (coords (xlen, ylen, zlen)).
Proof.
  intros H. unfold ravel, crop. rewrite H. cbn [shape cell]. unfold coords.
  now rewrite !range_slice_stop.
Qed.

(** C4.  The labeler returns (given budget for the loop and a grid that
    fits the 32-bit labels), with the resolver off, or on with a table that
    names linked corners only.  In the final grid every occupied cell of
    the field has a positive label, every unoccupied cell and every padding
    cell has 0; so over the cropped grid the counts of the labels > 0 add
    up to the number of true cells, and the count of label 0 is the number
    of false cells ([np.unique] lists every label once, in increasing
    order, so [counted] adds up one entry per label). *)
Theorem label_counts_conserve_occupancy
  (outliers : Z -> list (list Z)) (mc : bool) (c : ndarray bool)
  (xlen ylen zlen : Z) (fuel : nat) :
  0 <= xlen -> 0 <= ylen -> 0 <= zlen ->
  padded c xlen ylen zlen ->
  mc = false \/ table_wf outliers ->
  (xlen + 1) * (ylen + 1) * (zlen + 1) < 2 ^ 32 ->
  (Z.to_nat ((xlen + 1) * (ylen + 1) * (zlen + 1)) + 2 <= fuel)%nat ->
  exists sv g printed,
    label_structures outliers fuel mc c xlen ylen zlen = Ok (sv, g, printed) /\
    shape g = (xlen + 1, ylen + 1, zlen + 1) /\
    (forall q, cell c q = true -> 0 < cell g q) /\
    (forall q, cell c q = false -> cell g q = 0) /\
    let labels := ravel (crop g (xlen, ylen, zlen)) in
    let occupancy := ravel (crop c (xlen, ylen, zlen)) in
    StronglySorted (fun x y => fst x < fst y) (np_unique labels) /\
    counted (Z.ltb 0) (np_unique labels)
      = Z.of_nat (length (filter (fun b => b) occupancy)) /\
    counted (Z.eqb 0) (np_unique labels)
      = Z.of_nat (length (filter negb occupancy)).
Proof.
  intros Hx Hy Hz Hpad Hmode Hsize Hfuel.
  destruct (label_structures_inv c xlen ylen zlen Hx Hy Hz Hpad outliers mc Hmode fuel)
    as ([[sv g] printed] & Hrun & Hinv).
  - rewrite cells_size by lia. lia.
  - rewrite cells_size by lia. exact Hfuel.
  - destruct Hinv as ((Hsh & Hnn) & _ & _ & Hocc & Hpre & _).
    assert (Hpos : forall q, cell c q = true -> 0 < cell g q).
    { intros q Hq. apply Hpre; [|exact Hq]. apply coords_In.
      apply (inner_in_shape xlen ylen zlen). now apply Hpad. }
    assert (Hzero : forall q, cell c q = false -> cell g q = 0).
    { intros q Hq. destruct (Z.ltb_spec 0 (cell g q)) as [H|H].
      - apply Hocc in H. congruence.
      - pose proof (Hnn q). lia. }
    exists sv, g, printed. split; [exact Hrun|]. split; [exact Hsh|].
    split; [exact Hpos|]. split; [exact Hzero|].
    cbv zeta. split; [apply np_unique_sorted|]. rewrite !counted_np_unique.
    rewrite (crop_padded g xlen ylen zlen Hsh), (crop_padded c xlen ylen zlen (proj1 Hpad)).
    rewrite !filter_map_comm, !length_map. split; f_equal; apply filter_map_length.
    + intros q _. destruct (cell c q) eqn:E.
      * apply Z.ltb_lt. now apply Hpos.
      * now rewrite (Hzero q E).
    + intros q _. destruct (cell c q) eqn:E.
      * apply Z.eqb_neq. pose proof (Hpos q E). lia.
      * now rewrite (Hzero q E).
Qed.

Lemma label_counts_conserve_occupancy_witness :
  exists sv g printed,
    label_structures diagonal_outliers 29 true diagonal_pair 2 2 2 = Ok (sv, g, printed) /\
    shape g = (2 + 1, 2 + 1, 2 + 1) /\
    (forall q, cell diagonal_pair q = true -> 0 < cell g q) /\
    (forall q, cell diagonal_pair q = false -> cell g q = 0) /\
    let labels := ravel (crop g (2, 2, 2)) in
    let occupancy := ravel (crop diagonal_pair (2, 2, 2)) in
    StronglySorted (fun x y => fst x < fst y) (np_unique labels) /\
    counted (Z.ltb 0) (np_unique labels)
      = Z.of_nat (length (filter (fun b => b) occupancy)) /\
    counted (Z.eqb 0) (np_unique labels)
      = Z.of_nat (length (filter negb occupancy)).
Proof.
  apply (label_counts_conserve_occupancy diagonal_outliers true diagonal_pair 2 2 2 29);
    try lia.
  - apply pad_padded. reflexivity.
  - right. exact diagonal_outliers_wf.
Defined.

(** ** Connectivity *)

(** A path of occupied cells, each reached from the one before through one
    of the 26 checks of the labeler. *)
Inductive connected (c : ndarray bool) : idx3 -> idx3 -> Prop :=
| connected_here (p : idx3) :
    cell c p = true -> connected c p p
| connected_step (p d q : idx3) :
    cell c p = true -> In d neighbor_checks -> connected c (idx3_add p d) q ->
    connected c p q.

Lemma connected_occupied (c : ndarray bool) (p q : idx3) :
  connected c p q -> cell c p = true.
Proof. now destruct 1. Qed.

(** The checks of lines 145 to 537 are the 26 neighbors and nothing else:
    an offset is checked exactly when it is at most one on every axis and
    is not the cell itself. *)
Lemma neighbor_checks_complete (d : idx3) :
  In d neighbor_checks <-> unit_offset d /\ d <> (0, 0, 0).
Proof.
  split.
  - intros H. split; [now apply neighbor_checks_unit|].
    intros ->. unfold neighbor_checks in H. simpl in H.
    repeat (destruct H as [H|H]; [discriminate H|]). exact H.
  - destruct d as [[a b] e]. intros [(Ha & Hb & He) Hne].
    destruct (unit_cases a Ha) as [->|[->| ->]], (unit_cases b Hb) as [->|[->| ->]],
             (unit_cases e He) as [->|[->| ->]];
      try (exfalso; apply Hne; reflexivity);
      unfold neighbor_checks; simpl; tauto.
Qed.

(** 26-adjacency as the geometry has it, with no reference to the code:
    two different cells whose coordinates differ by at most one on every
    axis (they share a face, an edge or a corner). *)
Definition adjacent26 (p q : idx3) : Prop :=
  let '(a, b, e) := p in
  let '(x, y, z) := q in
  (a, b, e) <> (x, y, z) /\
  -1 <= x - a <= 1 /\ -1 <= y - b <= 1 /\ -1 <= z - e <= 1.

(** A path of 26-connected occupied cells. *)
Inductive connected26 (c : ndarray bool) : idx3 -> idx3 -> Prop :=
| connected26_here (p : idx3) :
    cell c p = true -> connected26 c p p
| connected26_step (p q r : idx3) :
    cell c p = true -> adjacent26 p q -> connected26 c q r ->
    connected26 c p r.

Lemma adjacent26_checked (p q : idx3) :
  adjacent26 p q <-> exists d, In d neighbor_checks /\ q = idx3_add p d.
Proof.
  destruct p as [[a b] e], q as [[x y] z]. unfold adjacent26. split.
  - intros (Hne & Hx & Hy & Hz). exists (x - a, y - b, z - e). split.
    + apply neighbor_checks_complete. split; [exact (conj Hx (conj Hy Hz))|].
      intros E. injection E as Ea Eb Ee. apply Hne.
      f_equal; [f_equal|]; lia.
    + cbn [idx3_add]. f_equal; [f_equal|]; lia.
  - intros ([[da db] de] & Hd & E). cbn [idx3_add] in E. injection E as -> -> ->.
    apply neighbor_checks_complete in Hd. destruct Hd as [(Ha & Hb & He) Hne].
    split; [|lia]. intros E. injection E as Ea Eb Ee. apply Hne.
    f_equal; [f_equal|]; lia.
Qed.

Lemma connected26_checked (c : ndarray bool) (p q : idx3) :
  connected26 c p q <-> connected c p q.
Proof.
  split.
  - induction 1 as [p Hp|p q r Hp Ha _ IH]; [now apply connected_here|].
    apply adjacent26_checked in Ha. destruct Ha as (d & Hd & ->).
    now apply (connected_step c p d).
  - induction 1 as [p Hp|p d q Hp Hd _ IH]; [now apply connected26_here|].
    apply (connected26_step c p (idx3_add p d)); auto.
    apply adjacent26_checked. eauto.
Qed.

(** C5.  With the resolver off the labeler returns (given budget for the
    loop and a grid that fits the 32-bit labels), and two occupied cells
    joined by a path of 26-connected occupied cells (each cell of the path
    differing from the next by at most one on every axis) carry the same
    positive label. *)
Theorem connected_cells_share_label
  (outliers : Z -> list (list Z)) (c : ndarray bool) (xlen ylen zlen : Z) (fuel : nat) :
  0 <= xlen -> 0 <= ylen -> 0 <= zlen ->
  padded c xlen ylen zlen ->
  (xlen + 1) * (ylen + 1) * (zlen + 1) < 2 ^ 32 ->
  (Z.to_nat ((xlen + 1) * (ylen + 1) * (zlen + 1)) + 2 <= fuel)%nat ->
  exists sv g printed,
    label_structures outliers fuel false c xlen ylen zlen = Ok (sv, g, printed) /\
    forall p q, connected26 c p q -> 0 < cell g p /\ cell g p = cell g q.
Proof.
  intros Hx Hy Hz Hpad Hsize Hfuel.
  destruct (label_structures_inv c xlen ylen zlen Hx Hy Hz Hpad outliers false
              (or_introl eq_refl) fuel)
    as ([[sv g] printed] & Hrun & Hinv).
  - rewrite cells_size by lia. lia.
  - rewrite cells_size by lia. exact Hfuel.
  - destruct Hinv as (_ & _ & _ & _ & Hpre & _ & _ & _ & Hcl).
    assert (Hpos : forall q, cell c q = true -> 0 < cell g q).
    { intros q Hq. apply Hpre; [|exact Hq]. apply coords_In.
      apply (inner_in_shape xlen ylen zlen). now apply Hpad. }
    exists sv, g, printed. split; [exact Hrun|].
    intros p q Hpq. induction Hpq as [p Hp|p q r Hp Ha Hqr [IH1 IH2]].
    + split; [now apply Hpos|reflexivity].
    + split; [now apply Hpos|].
      apply adjacent26_checked in Ha. destruct Ha as (d & Hd & ->).
      rewrite <- IH2. symmetry. apply (Hcl eq_refl); auto.
      destruct Hqr; assumption.
Qed.

Lemma connected_cells_share_label_witness :
  exists sv g printed,
    label_structures no_outliers 29 false diagonal_pair 2 2 2 = Ok (sv, g, printed) /\
    forall p q, connected26 diagonal_pair p q -> 0 < cell g p /\ cell g p = cell g q.
Proof.
  apply (connected_cells_share_label no_outliers diagonal_pair 2 2 2 29); try lia.
  apply pad_padded. reflexivity.
Defined.

(** The two cells of [diagonal_pair] touch at a corner only; plain
    26-connectivity gives them one label, and the sample table two. *)
Example diagonal_pair_labels :
  match label_structures no_outliers 29 false diagonal_pair 2 2 2 with
  | Ok (sv, g, _) => sv = 1 /\ cell g (0, 0, 0) = 1 /\ cell g (1, 1, 1) = 1
  | _ => False
  end /\
  match label_structures diagonal_outliers 29 true diagonal_pair 2 2 2 with
  | Ok (sv, g, _) => sv = 2 /\ cell g (0, 0, 0) = 1 /\ cell g (1, 1, 1) = 2
  | _ => False
  end.
Proof. vm_compute. auto. Qed.

(** ** Reproducibility and the numbering *)

Lemma getitem_ext {A : Type} (a a' : ndarray A) :
  shape a = shape a' ->
  (forall q, in_shape (shape a) q = true -> cell a q = cell a' q) ->
  forall p, getitem a p = getitem a' p.
Proof.
  intros Hs Hc p. unfold getitem. rewrite <- Hs.
  destruct (np_index3 (shape a) p) as [q|] eqn:E; [|reflexivity].
  f_equal. apply Hc. eapply np_index3_range; eauto.
Qed.

Section SameOccupancy.

Variables c c' : ndarray bool.
Hypothesis Hsame : forall p, getitem c p = getitem c' p.
Variable outliers : Z -> list (list Z).
Variable mc : bool.

Lemma link_ext (sv : Z) (p d : idx3) (st : ndarray Z * ndarray Z * flags) :
  link c sv p st d = link c' sv p st d.
Proof. destruct st as [[g aux] fl]. unfold link. now rewrite Hsame. Qed.

Lemma expand_cell_ext (sv : Z) (p : idx3) (g : ndarray Z) :
  expand_cell outliers mc c sv p g = expand_cell outliers mc c' sv p g.
Proof.
  unfold expand_cell.
  replace (fold_left (link c sv p) neighbor_checks (g, full (3, 3, 3) 0, no_flags))
    with (fold_left (link c' sv p) neighbor_checks (g, full (3, 3, 3) 0, no_flags));
    [reflexivity|].
  generalize (g, full (3, 3, 3) 0, no_flags). generalize neighbor_checks.
  induction l as [|d l IH]; intros st; cbn [fold_left]; [reflexivity|].
  now rewrite IH, link_ext.
Qed.

Lemma expand_ext (fuel : nat) (sv : Z) (g : ndarray Z) (nv : list idx3)
  (lc nc : Z) (p : idx3) :
  expand outliers fuel mc c sv g nv lc nc p = expand outliers fuel mc c' sv g nv lc nc p.
Proof.
  revert g nv lc nc p. induction fuel as [|fuel IH]; intros g nv lc nc p;
    cbn [expand]; [reflexivity|].
  destruct (if 0 <? lc then _ else _) as [[p' nc']|]; [|reflexivity].
  rewrite expand_cell_ext.
  destruct (expand_cell outliers mc c' sv p' g) as [[g' adds]| |]; cbn [bind]; auto.
Qed.

Lemma label_structures_ext (fuel : nat) (xlen ylen zlen : Z) :
  label_structures outliers fuel mc c xlen ylen zlen
  = label_structures outliers fuel mc c' xlen ylen zlen.
Proof.
  unfold label_structures. apply for_each_ext. intros p [[sv g] printed] _.
  unfold visit. rewrite Hsame.
  destruct (subscript (getitem c' p)) as [[|]| |]; cbn [bind]; try reflexivity.
  destruct (subscript (getitem g p)) as [l| |]; cbn [bind]; try reflexivity.
  destruct (0 <? l); [reflexivity|].
  destruct (subscript (setitem g p (uint32 (sv + 1)))) as [g1| |]; cbn [bind];
    try reflexivity.
  now rewrite expand_ext.
Qed.

End SameOccupancy.

(** C8.  Two runs of the labeler on grids with the same occupancy return
    the same [_structVal], the same label grid and the same printed
    identifiers (so whatever is computed from the grid, the statistics
    included, is the same); the identifiers are allocated
    as 1, 2, ..., [_structVal], and in the scan order of the final grid a
    label never appears before all smaller labels have appeared. *)
Theorem labeling_is_reproducible_and_numbered_in_scan_order
  (outliers : Z -> list (list Z)) (mc : bool) (c c' : ndarray bool)
  (xlen ylen zlen : Z) (fuel : nat) :
  0 <= xlen -> 0 <= ylen -> 0 <= zlen ->
  padded c xlen ylen zlen ->
  shape c' = shape c ->
  (forall q, in_shape (shape c) q = true -> cell c q = cell c' q) ->
  mc = false \/ table_wf outliers ->
  (xlen + 1) * (ylen + 1) * (zlen + 1) < 2 ^ 32 ->
  (Z.to_nat ((xlen + 1) * (ylen + 1) * (zlen + 1)) + 2 <= fuel)%nat ->
  exists sv g printed,
    label_structures outliers fuel mc c xlen ylen zlen = Ok (sv, g, printed) /\
    label_structures outliers fuel mc c' xlen ylen zlen = Ok (sv, g, printed) /\
    printed = map Z.of_nat (seq 1 (Z.to_nat sv)) /\
    forall pre1 q pre2,
      coords (xlen + 1, ylen + 1, zlen + 1) = pre1 ++ q :: pre2 ->
      0 < cell g q ->
      forall m, 0 < m < cell g q -> exists w, In w pre1 /\ cell g w = m.
Proof.
  intros Hx Hy Hz Hpad Hs Hc Hmode Hsize Hfuel.
  destruct (label_structures_inv c xlen ylen zlen Hx Hy Hz Hpad outliers mc Hmode fuel)
    as ([[sv g] printed] & Hrun & Hinv).
  - rewrite cells_size by lia. lia.
  - rewrite cells_size by lia. exact Hfuel.
  - destruct Hinv as (_ & _ & _ & _ & _ & Hpr & _ & Hfe & _).
    exists sv, g, printed. split; [exact Hrun|]. split; [|split].
    + rewrite <- Hrun. symmetry. apply label_structures_ext.
      apply getitem_ext; auto.
    + exact Hpr.
    + exact Hfe.
Qed.

(** The same occupancy as [diagonal_pair], built independently. *)
Definition diagonal_pair' : ndarray bool :=
  pad 2 2 2 (mkArr (2, 2, 2)
                   (fun q => idx3_eqb q (1, 1, 1) || idx3_eqb q (0, 0, 0))).

Lemma labeling_is_reproducible_witness :
  exists sv g printed,
    label_structures diagonal_outliers 29 true diagonal_pair 2 2 2 = Ok (sv, g, printed) /\
    label_structures diagonal_outliers 29 true diagonal_pair' 2 2 2 = Ok (sv, g, printed) /\
    printed = map Z.of_nat (seq 1 (Z.to_nat sv)) /\
    forall pre1 q pre2,
      coords (2 + 1, 2 + 1, 2 + 1) = pre1 ++ q :: pre2 ->
      0 < cell g q ->
      forall m, 0 < m < cell g q -> exists w, In w pre1 /\ cell g w = m.
Proof.
  apply (labeling_is_reproducible_and_numbered_in_scan_order
           diagonal_outliers true diagonal_pair diagonal_pair' 2 2 2 29); try lia.
  - apply pad_padded. reflexivity.
  - reflexivity.
  - intros q _. unfold diagonal_pair, diagonal_pair', pad. cbn [cell shape].
    destruct (in_shape (2, 2, 2) q); [apply orb_comm|reflexivity].
  - right. exact diagonal_outliers_wf.
Defined.

(* ================================================================== *)
(** * Properties: the box-counting reduction *)

Lemma update_length {O : Type} (h : store O) (l : loc) (o : O) :
  length (update h l o) = length h.
Proof.
  revert l. induction h as [|x h IH]; intros [|l]; simpl; auto.
Qed.

Lemma deref_update_same {O : Type} (h : store O) (l : loc) (o : O) :
  (l < length h)%nat -> deref (update h l o) l = Some o.
Proof.
  unfold deref. revert l. induction h as [|x h IH]; intros [|l] H; simpl in *;
    try lia; [reflexivity|]. apply IH. lia.
Qed.

Lemma deref_update_other {O : Type} (h : store O) (l l' : loc) (o : O) :
  l <> l' -> deref (update h l o) l' = deref h l'.
Proof.
  unfold deref. revert l l'. induction h as [|x h IH]; intros [|l] [|l'] H; simpl;
    try reflexivity; try congruence. apply IH. congruence.
Qed.

Lemma update_update {O : Type} (h : store O) (l : loc) (o o' : O) :
  update (update h l o) l o' = update h l o'.
Proof.
  revert l. induction h as [|x h IH]; intros [|l]; simpl; auto. now rewrite IH.
Qed.

Lemma update_deref {O : Type} (h : store O) (l : loc) (o : O) :
  deref h l = Some o -> update h l o = h.
Proof.
  unfold deref. revert l. induction h as [|x h IH]; intros [|l] H; simpl in *;
    try discriminate.
  - now injection H as ->.
  - now rewrite IH.
Qed.

Module BoxCountFacts.

Import BoxCount.

Definition b2z (b : bool) : Z := if b then 1 else 0.

(** The value line 62 computes for a cell. *)
Definition or8 (a : ndarray bool) (siz2 : Z) (q : idx3) : bool :=
  let '(i, j, k) := q in existsb (cell a) (operands i j k siz2).

Section InPlace.

Variables (h0 : store (ndarray bool)) (c : loc).
Hypothesis Hc : (c < length h0)%nat.

Lemma load_at (a : ndarray bool) (p : idx3) :
  in_shape (shape a) p = true -> load (update h0 c a) c p = Ok (cell a p).
Proof.
  intros H. unfold load. rewrite deref_update_same by exact Hc.
  now rewrite (getitem_cell a p p) by (now apply np_index3_valid).
Qed.

Lemma assign_at (a : ndarray bool) (p : idx3) (v : bool) :
  in_shape (shape a) p = true ->
  assign (update h0 c a) c p v = Ok (update h0 c (upd a p v)).
Proof.
  intros H. unfold assign. rewrite deref_update_same by exact Hc.
  rewrite (setitem_upd a p p) by (now apply np_index3_valid).
  cbn [subscript bind]. now rewrite update_update.
Qed.

Lemma getSum_count (a : ndarray bool) (xlen ylen zlen : Z) :
  shape a = (xlen, ylen, zlen) ->
  getSum (update h0 c a) xlen ylen zlen c
  = Ok (Z.of_nat (length (filter (cell a) (coords (xlen, ylen, zlen))))).
Proof.
  intros Hs. unfold getSum.
  assert (H : forall l s, (forall p, In p l -> in_shape (shape a) p = true) ->
            for_each l (fun p _sum => b <- load (update h0 c a) c p ;;
                                      Ok (if b then _sum + 1 else _sum)) s
            = Ok (s + Z.of_nat (length (filter (cell a) l)))).
  { induction l as [|p l IH]; intros s Hl; cbn [for_each filter].
    - simpl. f_equal. lia.
    - rewrite load_at by (apply Hl; now left). cbn [bind].
      rewrite IH by (intros p' Hp'; apply Hl; now right).
      destruct (cell a p); simpl length; f_equal; lia. }
  rewrite H; [reflexivity|].
  intros p Hp. rewrite Hs. now apply coords_In.
Qed.

Lemma or_chain_value (a : ndarray bool) (ps : list idx3) :
  (forall p, In p ps -> in_shape (shape a) p = true) ->
  or_chain (update h0 c a) c ps = Ok (existsb (cell a) ps).
Proof.
  induction ps as [|p ps IH]; intros H; [reflexivity|].
  assert (Hp : load (update h0 c a) c p = Ok (cell a p))
    by (apply load_at, H; now left).
  destruct ps as [|p' ps].
  - cbn [or_chain existsb]. rewrite Hp. now rewrite orb_false_r.
  - change (or_chain (update h0 c a) c (p :: p' :: ps))
      with (b <- load (update h0 c a) c p ;;
            if b then Ok true else or_chain (update h0 c a) c (p' :: ps)).
    rewrite Hp. cbn [bind]. cbn [existsb] in *.
    destruct (cell a p); [reflexivity|].
    rewrite IH by (intros x Hx; apply H; now right). reflexivity.
Qed.

Lemma reduce_cell_at (a : ndarray bool) (siz2 : Z) (q : idx3) (c_sum : Z) :
  (let '(i, j, k) := q in
   forall p, In p (operands i j k siz2) -> in_shape (shape a) p = true) ->
  reduce_cell c siz2 q (update h0 c a, c_sum)
  = Ok (update h0 c (upd a q (or8 a siz2 q)), c_sum + b2z (or8 a siz2 q)).
Proof.
  destruct q as [[i j] k]. intros H. unfold reduce_cell, or8.
  rewrite or_chain_value by exact H. cbn [bind].
  assert (Hq : in_shape (shape a) (i, j, k) = true) by (apply H; now left).
  rewrite assign_at by exact Hq. cbn [bind].
  rewrite load_at by exact Hq. cbn [bind].
  now rewrite upd_same.
Qed.

(** One level: the cells of [L] are replaced by the OR of their eight
    operands in the array as it was before the level. *)
Lemma level_pass (a : ndarray bool) (siz2 : Z) (L : list idx3) (s0 : Z) :
  NoDup L ->
  (forall q, In q L ->
     let '(i, j, k) := q in
     forall p, In p (operands i j k siz2) ->
               in_shape (shape a) p = true /\ (p <> q -> ~ In p L)) ->
  exists a' s,
    for_each L (reduce_cell c siz2) (update h0 c a, s0) = Ok (update h0 c a', s) /\
    shape a' = shape a /\
    (forall r, In r L -> cell a' r = or8 a siz2 r) /\
    (forall r, ~ In r L -> cell a' r = cell a r).
Proof.
  intros Hnd HL.
  destruct (for_each_prefix_inv
              (fun pre st => exists a' s, st = (update h0 c a', s) /\
                 shape a' = shape a /\
                 (forall r, In r pre -> cell a' r = or8 a siz2 r) /\
                 (forall r, ~ In r pre -> cell a' r = cell a r))
              (reduce_cell c siz2) L (update h0 c a, s0))
    as (st & Hrun & a' & s & -> & Hs & H1 & H2).
  - intros pre x post st E (a1 & s1 & -> & Hs1 & Hin1 & Hout1).
    assert (Hx : In x L) by (rewrite E; apply in_app_iff; right; now left).
    assert (Hxpre : ~ In x pre).
    { rewrite E in Hnd. apply NoDup_remove_2 in Hnd. intros Hin. apply Hnd.
      apply in_app_iff. now left. }
    pose proof (HL x Hx) as Hops.
    assert (Hsame : or8 a1 siz2 x = or8 a siz2 x).
    { destruct x as [[i j] k]. unfold or8.
      assert (Hext : forall l, (forall p, In p l -> In p (operands i j k siz2)) ->
                existsb (cell a1) l = existsb (cell a) l).
      { induction l as [|p l IH]; intros Hl; [reflexivity|]. cbn [existsb].
        rewrite IH by (intros p' Hp'; apply Hl; now right).
        rewrite Hout1; [reflexivity|].
        destruct (Hops p (Hl p (or_introl eq_refl))) as [_ Hp].
        destruct (idx3_eqb p (i, j, k)) eqn:Ep.
        - apply idx3_eqb_eq in Ep. now subst.
        - apply idx3_eqb_neq in Ep. intros Hin. apply (Hp Ep).
          rewrite E. apply in_app_iff. now left. }
      apply Hext. auto. }
    eexists. split.
    + apply reduce_cell_at. destruct x as [[i j] k]. intros p Hp.
      rewrite Hs1. now apply Hops.
    + eexists _, _. split; [reflexivity|]. split; [exact Hs1|]. split.
      * intros r Hr. apply in_app_iff in Hr. destruct Hr as [Hr|[<-|[]]].
        -- rewrite upd_other; [now apply Hin1|]. intros ->. contradiction.
        -- rewrite upd_same. exact Hsame.
      * intros r Hr. rewrite upd_other.
        -- apply Hout1. intros Hin. apply Hr. apply in_app_iff. now left.
        -- intros ->. apply Hr. apply in_app_iff. right. now left.
  - exists a, s0. split; [reflexivity|]. split; [reflexivity|]. split.
    + intros r [].
    + reflexivity.
  - exists a', s. auto.
Qed.

End InPlace.

(** ** The cells of a level *)

Lemma range_from_In (n : nat) (s st i : Z) :
  In i (range_from n s st) <-> exists t, (t < n)%nat /\ i = s + Z.of_nat t * st.
Proof.
  revert s. induction n as [|n IH]; intros s; cbn [range_from In].
  - split; [contradiction|]. intros (t & Ht & _). lia.
  - rewrite IH. split.
    + intros [<-|(t & Ht & ->)].
      * exists 0%nat. split; lia.
      * exists (S t). split; lia.
    + intros ([|t] & Ht & ->).
      * left. lia.
      * right. exists t. split; lia.
Qed.

Lemma range_from_NoDup (n : nat) (s st : Z) : 0 < st -> NoDup (range_from n s st).
Proof.
  intros Hst. revert s. induction n as [|n IH]; intros s; cbn [range_from]; constructor.
  - intros H. apply range_from_In in H. destruct H as (t & _ & E). nia.
  - apply IH.
Qed.

(** [range(0, int(width - siz) + 1, int(siz))] when [siz] divides
    [width]: the multiples of [siz] below [width]. *)
Lemma multiples_In (w s i : Z) :
  0 < s -> 0 < w -> w mod s = 0 ->
  (In i (range_step 0 (w - s + 1) s) <-> 0 <= i < w /\ i mod s = 0).
Proof.
  intros Hs Hw Hdiv.
  apply Z.div_exact in Hdiv; [|lia].
  assert (Hk : 1 <= w / s) by nia.
  unfold range_step.
  replace ((s <=? 0) || (w - s + 1 <=? 0)) with false
    by (symmetry; apply orb_false_iff; split; apply Z.leb_gt; nia).
  replace ((w - s + 1 - 0 + s - 1) / s) with (w / s) by (f_equal; lia).
  rewrite range_from_In. split.
  - intros (t & Ht & ->). split; [nia|].
    rewrite Z.add_0_l. apply Z.mod_mul. lia.
  - intros [Hi Hm]. apply Z.div_exact in Hm; [|lia].
    exists (Z.to_nat (i / s)).
    assert (0 <= i / s) by (apply Z.div_pos; lia).
    split; [|lia].
    assert (i / s < w / s) by nia. lia.
Qed.

Lemma multiples_NoDup (w s : Z) : 0 < s -> NoDup (range_step 0 (w - s + 1) s).
Proof.
  intros Hs. unfold range_step. destruct (_ || _); [constructor|].
  now apply range_from_NoDup.
Qed.

Definition aligned (s : Z) (q : idx3) : bool :=
  let '(i, j, k) := q in (i mod s =? 0) && (j mod s =? 0) && (k mod s =? 0).

Lemma triples_In (r : list Z) (q : idx3) :
  In q (flat_map (fun i => flat_map (fun j => map (fun k => (i, j, k)) r) r) r) <->
  let '(i, j, k) := q in In i r /\ In j r /\ In k r.
Proof.
  destruct q as [[i j] k]. rewrite in_flat_map. split.
  - intros (i' & Hi & H). apply in_flat_map in H. destruct H as (j' & Hj & H).
    apply in_map_iff in H. destruct H as (k' & E & Hk). injection E as <- <- <-. auto.
  - intros (Hi & Hj & Hk). exists i. split; [exact Hi|].
    apply in_flat_map. exists j. split; [exact Hj|].
    apply in_map_iff. exists k. auto.
Qed.

Lemma NoDup_flat_map {A B : Type} (f : A -> list B) (l : list A) :
  NoDup l -> (forall x, In x l -> NoDup (f x)) ->
  (forall x y z, In x l -> In y l -> In z (f x) -> In z (f y) -> x = y) ->
  NoDup (flat_map f l).
Proof.
  induction 1 as [|x l Hx Hnd IH]; intros Hf Hinj; cbn [flat_map]; [constructor|].
  apply NoDup_app.
  - apply Hf. now left.
  - apply IH.
    + intros y Hy. apply Hf. now right.
    + intros y y' z Hy Hy'. apply Hinj; now right.
  - intros z Hz Hz'. apply in_flat_map in Hz'. destruct Hz' as (y & Hy & Hzy).
    assert (x = y) by (apply (Hinj x y z); auto; [now left|now right]).
    subst y. contradiction.
Qed.

Lemma triples_NoDup (r : list Z) :
  NoDup r ->
  NoDup (flat_map (fun i => flat_map (fun j => map (fun k => (i, j, k)) r) r) r).
Proof.
  intros Hr. apply NoDup_flat_map; [exact Hr| |].
  - intros i _. apply NoDup_flat_map; [exact Hr| |].
    + intros j _. induction Hr as [|k r Hk Hr IH]; cbn [map]; constructor; [|exact IH].
      intros H. apply in_map_iff in H. destruct H as (k' & E & Hk').
      injection E as ->. contradiction.
    + intros j j' z _ _ Hz Hz'. apply in_map_iff in Hz, Hz'.
      destruct Hz as (k & <- & _), Hz' as (k' & E & _). now injection E.
  - intros i i' z _ _ Hz Hz'. apply in_flat_map in Hz, Hz'.
    destruct Hz as (j & _ & Hz), Hz' as (j' & _ & Hz').
    apply in_map_iff in Hz, Hz'.
    destruct Hz as (k & <- & _), Hz' as (k' & E & _). now injection E.
Qed.

Lemma level_cells_In (w s : Z) (q : idx3) :
  0 < s -> 0 < w -> w mod s = 0 ->
  (In q (level_cells w s) <-> in_shape (w, w, w) q = true /\ aligned s q = true).
Proof.
  intros Hs Hw Hdiv. unfold level_cells. rewrite triples_In.
  destruct q as [[i j] k]. rewrite !(multiples_In w s) by assumption.
  rewrite in_shape_true. unfold aligned. rewrite !andb_true_iff, !Z.eqb_eq. tauto.
Qed.

Lemma level_cells_NoDup (w s : Z) : 0 < s -> NoDup (level_cells w s).
Proof. intros Hs. apply triples_NoDup. now apply multiples_NoDup. Qed.

Lemma half_step_mod (i s2 : Z) :
  0 < s2 -> i mod (2 * s2) = 0 -> (i + s2) mod (2 * s2) = s2.
Proof.
  intros Hs Hi. apply Z.div_exact in Hi; [|lia].
  rewrite Hi. rewrite Z.add_comm, Z.mul_comm, Z_mod_plus_full.
  apply Z.mod_small. lia.
Qed.

Lemma multiple_room (i s w : Z) :
  0 < s -> 0 <= i < w -> i mod s = 0 -> w mod s = 0 -> i + s <= w.
Proof.
  intros Hs Hi Hm Hw. apply Z.div_exact in Hm, Hw; try lia.
  assert (i / s < w / s) by nia. nia.
Qed.

(** ** Blocks *)

(** The OR of the field over the block of side [s] at [q]. *)
Definition block_or (a : ndarray bool) (q : idx3) (s : Z) : bool :=
  existsb (fun d => cell a (idx3_add q d)) (coords (s, s, s)).

(** The coarsest of the first [m] levels whose grid holds [q]. *)
Fixpoint lev (m : nat) (q : idx3) : nat :=
  match m with
  | O => O
  | S m' => if aligned (2 ^ Z.of_nat m) q then m else lev m' q
  end.

Lemma block_or_true (a : ndarray bool) (q : idx3) (s : Z) :
  block_or a q s = true <->
  exists d, in_shape (s, s, s) d = true /\ cell a (idx3_add q d) = true.
Proof.
  unfold block_or. rewrite existsb_exists.
  split; intros (d & Hd & H); exists d; split; auto; now apply coords_In.
Qed.

Lemma existsb_ext_in {A : Type} (f g : A -> bool) (l : list A) :
  (forall x, In x l -> f x = g x) -> existsb f l = existsb g l.
Proof.
  intros H. induction l as [|x l IH]; [reflexivity|]. cbn [existsb].
  rewrite (H x (or_introl eq_refl)), IH; [reflexivity|].
  intros y Hy. apply H. now right.
Qed.

Lemma operands_In (i j k s : Z) (o : idx3) :
  In o (operands i j k s) <->
  exists ex ey ez, (ex = 0 \/ ex = s) /\ (ey = 0 \/ ey = s) /\ (ez = 0 \/ ez = s) /\
                   o = (i + ex, j + ey, k + ez).
Proof.
  unfold operands. cbn [In]. split.
  - intros H.
    repeat (destruct H as [<-|H];
            [first [ (exists 0, 0, 0; rewrite !Z.add_0_r; tauto)
                   | (exists s, 0, 0; rewrite !Z.add_0_r; tauto)
                   | (exists 0, s, 0; rewrite !Z.add_0_r; tauto)
                   | (exists s, s, 0; rewrite !Z.add_0_r; tauto)
                   | (exists 0, 0, s; rewrite !Z.add_0_r; tauto)
                   | (exists s, 0, s; rewrite !Z.add_0_r; tauto)
                   | (exists 0, s, s; rewrite !Z.add_0_r; tauto)
                   | (exists s, s, s; tauto) ]|]).
    contradiction.
  - intros (ex & ey & ez & [->| ->] & [->| ->] & [->| ->] & ->);
      rewrite ?Z.add_0_r; tauto.
Qed.

(** A block of side [2 s] is its eight blocks of side [s]. *)
Lemma block_or_split (a : ndarray bool) (i j k s : Z) :
  0 < s ->
  block_or a (i, j, k) (2 * s) = existsb (fun o => block_or a o s) (operands i j k s).
Proof.
  intros Hs. apply eq_true_iff_eq. rewrite block_or_true, existsb_exists. split.
  - intros ([[dx dy] dz] & Hd & H). apply in_shape_true in Hd. cbn [idx3_add] in H.
    exists (i + (if dx <? s then 0 else s), j + (if dy <? s then 0 else s),
            k + (if dz <? s then 0 else s)).
    split.
    + apply operands_In. eexists _, _, _. split; [|split; [|split; [|reflexivity]]].
      * destruct (dx <? s); auto.
      * destruct (dy <? s); auto.
      * destruct (dz <? s); auto.
    + apply block_or_true.
      exists (dx - (if dx <? s then 0 else s), dy - (if dy <? s then 0 else s),
              dz - (if dz <? s then 0 else s)).
      split.
      * apply in_shape_true.
        destruct (Z.ltb_spec dx s), (Z.ltb_spec dy s), (Z.ltb_spec dz s); lia.
      * cbn [idx3_add]. rewrite <- H. f_equal. f_equal; [f_equal|]; lia.
  - intros (o & Ho & H). apply operands_In in Ho.
    destruct Ho as (ex & ey & ez & Hex & Hey & Hez & ->).
    apply block_or_true in H. destruct H as ([[dx dy] dz] & Hd & H).
    apply in_shape_true in Hd. cbn [idx3_add] in H.
    exists (ex + dx, ey + dy, ez + dz). split.
    + apply in_shape_true. lia.
    + cbn [idx3_add]. rewrite <- H. f_equal. f_equal; [f_equal|]; lia.
Qed.

Lemma lev_aligned (m : nat) (q : idx3) :
  aligned (2 ^ Z.of_nat m) q = true -> lev m q = m.
Proof. destruct m as [|m]; [reflexivity|]. cbn [lev]. now intros ->. Qed.

Lemma pow2_succ (m : nat) : 2 ^ Z.of_nat (S m) = 2 * 2 ^ Z.of_nat m.
Proof. rewrite Nat2Z.inj_succ. apply Z.pow_succ_r. lia. Qed.

Lemma pow2_pos (m : nat) : 0 < 2 ^ Z.of_nat m.
Proof. apply Z.pow_pos_nonneg; lia. Qed.

Lemma pow2_divides (m P : nat) : (m <= P)%nat -> 2 ^ Z.of_nat P mod 2 ^ Z.of_nat m = 0.
Proof.
  intros H. replace (Z.of_nat P) with (Z.of_nat (P - m) + Z.of_nat m) by lia.
  rewrite Z.pow_add_r by lia. apply Z.mod_mul. pose proof (pow2_pos m). lia.
Qed.

Lemma half_aligned (i s : Z) :
  0 < s -> i mod (2 * s) = 0 -> i mod s = 0 /\ (i + s) mod s = 0.
Proof.
  intros Hs Hi. apply Z.div_exact in Hi; [|lia]. split.
  - rewrite Hi. replace (2 * s * (i / (2 * s))) with (2 * (i / (2 * s)) * s) by lia.
    apply Z.mod_mul. lia.
  - rewrite Hi. replace (2 * s * (i / (2 * s)) + s) with ((2 * (i / (2 * s)) + 1) * s) by lia.
    apply Z.mod_mul. lia.
Qed.

(** ** The list of counts *)

Lemma n_set_first (n : list Z) (P : nat) (v : Z) :
  length n = S P ->
  exists n', n_set n 0 v = Ok n' /\ length n' = length n /\
             nth_error n' 0 = Some (float32_of_int v).
Proof.
  intros Hn. destruct n as [|x n]; [discriminate|].
  unfold n_set. rewrite np_index_valid by (rewrite Hn; lia).
  eexists. split; [reflexivity|]. split; reflexivity.
Qed.

Lemma n_set_back (n : list Z) (P m : nat) (v : Z) :
  length n = S P -> (m < P)%nat ->
  exists n', n_set n (- (Z.of_nat P - Z.of_nat (S m)) - 1) v = Ok n' /\
             length n' = length n /\ nth_error n' 0 = nth_error n 0.
Proof.
  intros Hn Hm. unfold n_set.
  assert (Hi : np_index (Z.of_nat (length n)) (- (Z.of_nat P - Z.of_nat (S m)) - 1)
               = Some (Z.of_nat (S m))).
  { rewrite Hn. unfold np_index.
    replace (0 <=? _) with false by (symmetry; apply Z.leb_gt; lia).
    cbn [andb].
    replace (_ <? 0) with true by (symmetry; apply Z.ltb_lt; lia).
    replace (- Z.of_nat (S P) <=? _) with true by (symmetry; apply Z.leb_le; lia).
    cbn [andb]. f_equal. lia. }
  rewrite Hi, Nat2Z.id. eexists. split; [reflexivity|]. split.
  - rewrite length_app. cbn [length]. rewrite length_firstn, length_skipn. lia.
  - destruct n as [|x n]; [discriminate|]. reflexivity.
Qed.

Section Pyramid.

Variables (h0 : store (ndarray bool)) (c : loc).
Hypothesis Hc : (c < length h0)%nat.
Variable P : nat.

Local Abbreviation W := (2 ^ Z.of_nat P).

(** One iteration of [for g in reverse_range]: the cells on the grid of
    step [2^(m+1)] take the OR of their eight operands at distance [2^m]. *)
Lemma level_at (a : ndarray bool) (m : nat) (n : list Z) :
  (m < P)%nat -> shape a = (W, W, W) -> length n = S P ->
  exists a' n',
    level c (Z.of_nat P) W (Z.of_nat P - Z.of_nat (S m)) (update h0 c a, n)
      = Ok (update h0 c a', n') /\
    shape a' = (W, W, W) /\ length n' = S P /\ nth_error n' 0 = nth_error n 0 /\
    (forall r, in_shape (W, W, W) r = true ->
               cell a' r = if aligned (2 ^ Z.of_nat (S m)) r
                           then or8 a (2 ^ Z.of_nat m) r else cell a r).
Proof.
  intros Hm Hs Hn. unfold level.
  replace (Z.of_nat P - (Z.of_nat P - Z.of_nat (S m))) with (Z.of_nat (S m)) by lia.
  pose proof (pow2_pos m) as Hpm. pose proof (pow2_pos P) as HpP.
  assert (Hhalf : 2 ^ Z.of_nat (S m) / 2 = 2 ^ Z.of_nat m).
  { rewrite pow2_succ, Z.mul_comm. apply Z.div_mul. lia. }
  rewrite Hhalf.
  assert (Hdiv : W mod 2 ^ Z.of_nat (S m) = 0) by (apply pow2_divides; lia).
  assert (Hsiz : 0 < 2 ^ Z.of_nat (S m)) by apply pow2_pos.
  destruct (level_pass h0 c Hc a (2 ^ Z.of_nat m)
              (level_cells W (2 ^ Z.of_nat (S m))) 0)
    as (a' & s & Hrun & Hs' & Hin & Hout).
  - now apply level_cells_NoDup.
  - intros [[i j] k] Hq o Ho.
    apply level_cells_In in Hq; auto. destruct Hq as [Hq Hal].
    apply in_shape_true in Hq. unfold aligned in Hal.
    rewrite !andb_true_iff, !Z.eqb_eq in Hal. destruct Hal as [[Hi Hj] Hk].
    pose proof (multiple_room i _ W Hsiz (proj1 Hq) Hi Hdiv) as Ri.
    pose proof (multiple_room j _ W Hsiz (proj1 (proj2 Hq)) Hj Hdiv) as Rj.
    pose proof (multiple_room k _ W Hsiz (proj2 (proj2 Hq)) Hk Hdiv) as Rk.
    rewrite pow2_succ in Hi, Hj, Hk, Ri, Rj, Rk.
    apply operands_In in Ho.
    destruct Ho as (ex & ey & ez & Hex & Hey & Hez & ->). split.
    + rewrite Hs. apply in_shape_true. lia.
    + intros Hne Hin'. apply level_cells_In in Hin'; auto.
      destruct Hin' as [_ Hal']. unfold aligned in Hal'.
      rewrite !andb_true_iff, !Z.eqb_eq, pow2_succ in Hal'.
      destruct Hal' as [[Hi' Hj'] Hk'].
      pose proof (half_step_mod i _ Hpm Hi) as Mi.
      pose proof (half_step_mod j _ Hpm Hj) as Mj.
      pose proof (half_step_mod k _ Hpm Hk) as Mk.
      apply Hne.
      destruct Hex as [->| ->], Hey as [->| ->], Hez as [->| ->];
        rewrite ?Z.add_0_r in *; try reflexivity; lia.
  - rewrite Hrun. cbn [bind].
    destruct (n_set_back n P m s Hn Hm) as (n' & Hset & Hlen & Hfirst).
    rewrite Hset. cbn [bind].
    exists a', n'. split; [reflexivity|]. split; [now rewrite Hs'|].
    split; [now rewrite Hlen|]. split; [exact Hfirst|].
    intros r Hr. destruct (aligned (2 ^ Z.of_nat (S m)) r) eqn:Hal.
    + apply Hin. apply level_cells_In; auto.
    + apply Hout. intros H. apply level_cells_In in H; auto.
      destruct H as [_ H]. congruence.
Qed.

Variable a0 : ndarray bool.

(** After [m] levels every cell holds the OR of the original field over
    its block. *)
Definition reduced (m : nat) (a : ndarray bool) : Prop :=
  shape a = (W, W, W) /\
  forall r, in_shape (W, W, W) r = true ->
            cell a r = block_or a0 r (2 ^ Z.of_nat (lev m r)).

Lemma reduced_step (m : nat) (a a' : ndarray bool) :
  (m < P)%nat -> reduced m a -> shape a' = (W, W, W) ->
  (forall r, in_shape (W, W, W) r = true ->
             cell a' r = if aligned (2 ^ Z.of_nat (S m)) r
                         then or8 a (2 ^ Z.of_nat m) r else cell a r) ->
  reduced (S m) a'.
Proof.
  intros Hm [Hs Hred] Hs' Hstep. split; [exact Hs'|].
  intros r Hr. rewrite (Hstep r Hr). cbn [lev].
  destruct (aligned (2 ^ Z.of_nat (S m)) r) eqn:Hal; [|now apply Hred].
  destruct r as [[i j] k]. unfold or8.
  pose proof (pow2_pos m) as Hpm.
  rewrite pow2_succ, (block_or_split a0 i j k _ Hpm).
  apply existsb_ext_in. intros o Ho.
  apply in_shape_true in Hr. unfold aligned in Hal.
  rewrite !andb_true_iff, !Z.eqb_eq in Hal. destruct Hal as [[Hi Hj] Hk].
  assert (Hsiz : 0 < 2 ^ Z.of_nat (S m)) by apply pow2_pos.
  assert (Hdiv : W mod 2 ^ Z.of_nat (S m) = 0) by (apply pow2_divides; lia).
  pose proof (multiple_room i _ W Hsiz (proj1 Hr) Hi Hdiv) as Ri.
  pose proof (multiple_room j _ W Hsiz (proj1 (proj2 Hr)) Hj Hdiv) as Rj.
  pose proof (multiple_room k _ W Hsiz (proj2 (proj2 Hr)) Hk Hdiv) as Rk.
  rewrite pow2_succ in Hi, Hj, Hk, Ri, Rj, Rk.
  destruct (half_aligned i _ Hpm Hi) as [Ai Ai'].
  destruct (half_aligned j _ Hpm Hj) as [Aj Aj'].
  destruct (half_aligned k _ Hpm Hk) as [Ak Ak'].
  apply operands_In in Ho. destruct Ho as (ex & ey & ez & Hex & Hey & Hez & ->).
  rewrite Hred.
  - rewrite lev_aligned; [reflexivity|]. unfold aligned.
    rewrite !andb_true_iff, !Z.eqb_eq.
    destruct Hex as [->| ->], Hey as [->| ->], Hez as [->| ->];
      rewrite ?Z.add_0_r; auto.
  - apply in_shape_true. lia.
Qed.

(** The loop over the levels, from level [m] on. *)
Lemma levels_run (k : nat) :
  forall (m : nat) (a : ndarray bool) (n : list Z),
    (m + k = P)%nat -> reduced m a -> length n = S P ->
    exists a' n',
      for_each (map (fun t => Z.of_nat P - Z.of_nat t) (seq (S m) k))
               (level c (Z.of_nat P) W) (update h0 c a, n)
        = Ok (update h0 c a', n') /\
      reduced P a' /\ length n' = S P /\ nth_error n' 0 = nth_error n 0.
Proof.
  induction k as [|k IH]; intros m a n Hmk Hred Hn.
  - assert (E : m = P) by lia. subst m.
    exists a, n. cbn [seq map for_each]. auto.
  - cbn [seq map for_each].
    destruct (level_at a m n) as (a1 & n1 & Hl & Hs1 & Hn1 & Hf1 & Hstep);
      [lia|exact (proj1 Hred)|exact Hn|].
    rewrite Hl. cbn [bind].
    destruct (IH (S m) a1 n1) as (a' & n' & Hrun & Hred' & Hn' & Hf');
      [lia|apply (reduced_step m a a1); auto; lia|exact Hn1|].
    exists a', n'. split; [exact Hrun|]. split; [exact Hred'|].
    split; [exact Hn'|]. now rewrite Hf'.
Qed.

End Pyramid.

Lemma rev_range (P : nat) :
  rev (range (Z.of_nat P)) = map (fun t => Z.of_nat P - Z.of_nat t) (seq 1 P).
Proof.
  unfold range. rewrite Nat2Z.id.
  induction P as [|P IH]; [reflexivity|].
  rewrite seq_S, map_app, rev_app_distr. cbn [map rev app plus].
  rewrite IH. cbn [seq map]. f_equal; [lia|].
  rewrite <- (seq_shift P 1), map_map. apply map_ext. intros t. lia.
Qed.

Lemma block_or_one (a : ndarray bool) (r : idx3) : block_or a r 1 = cell a r.
Proof.
  unfold block_or. change (coords (1, 1, 1)) with [(0, 0, 0)].
  destruct r as [[i j] k]. cbn [existsb idx3_add].
  rewrite !Z.add_0_r. apply orb_false_r.
Qed.

Lemma block_or_origin (a : ndarray bool) (s : Z) :
  block_or a (0, 0, 0) s = existsb (cell a) (coords (s, s, s)).
Proof.
  unfold block_or. apply existsb_ext_in. intros [[i j] k] _. reflexivity.
Qed.

Lemma lev_origin (m : nat) : lev m (0, 0, 0) = m.
Proof.
  apply lev_aligned. unfold aligned. now rewrite Zmod_0_l.
Qed.

(** [computeFast] on a cube of side [2^P]. *)
Lemma computeFast_run (h0 : store (ndarray bool)) (c : loc) (P : nat)
  (a0 : ndarray bool) (n : list Z) :
  (c < length h0)%nat ->
  shape a0 = (2 ^ Z.of_nat P, 2 ^ Z.of_nat P, 2 ^ Z.of_nat P) ->
  length n = S P ->
  exists a' n',
    computeFast (update h0 c a0) (2 ^ Z.of_nat P) (2 ^ Z.of_nat P) (2 ^ Z.of_nat P) c
                (Z.of_nat P) (2 ^ Z.of_nat P) (rev (range (Z.of_nat P))) n
      = Ok (update h0 c a', n') /\
    reduced P a0 P a' /\ length n' = S P /\
    nth_error n' 0
      = Some (float32_of_int (Z.of_nat (length (filter (cell a0) (coords (shape a0)))))).
Proof.
  intros Hc Hs Hn. unfold computeFast.
  rewrite (getSum_count h0 c Hc a0 _ _ _ Hs). cbn [bind].
  destruct (n_set_first n P (Z.of_nat (length (filter (cell a0)
              (coords (2 ^ Z.of_nat P, 2 ^ Z.of_nat P, 2 ^ Z.of_nat P))))) Hn)
    as (n0 & Hset & Hlen & Hfirst).
  rewrite Hset. cbn [bind]. rewrite rev_range.
  destruct (levels_run h0 c Hc P a0 P 0%nat a0 n0) as (a' & n' & Hrun & Hred & Hn' & Hf').
  - lia.
  - split; [exact Hs|]. intros r _. cbn [lev]. now rewrite block_or_one.
  - now rewrite Hlen.
  - exists a', n'. split; [exact Hrun|]. split; [exact Hred|]. split; [exact Hn'|].
    now rewrite Hf', Hfirst, Hs.
Qed.

End BoxCountFacts.

Import BoxCount BoxCountFacts.

(** Integers up to [2^24] are [float32] numbers: storing one keeps it. *)
Lemma float32_of_int_small (v : Z) : 0 <= v <= 2 ^ 24 -> float32_of_int v = v.
Proof.
  intros Hv. unfold float32_of_int.
  now replace (Z.abs v <=? 2 ^ 24) with true by (symmetry; apply Z.leb_le; lia).
Qed.

(** Rounding to a multiple of [2 * half], ties to the even multiple. *)
Definition round_to (half v : Z) : Z :=
  let q := v / (2 * half) in
  let r := v mod (2 * half) in
  (if r <? half then q
   else if half <? r then q + 1
   else if Z.even q then q else q + 1) * (2 * half).

(** Above [2^24] the entry is the integer rounded to a multiple of
    [2^e], where [e] leaves 24 bits for the quotient. *)
Lemma float32_of_int_large (v : Z) :
  2 ^ 24 < v ->
  let e := Z.log2 v - 23 in
  1 <= e /\ float32_of_int v = round_to (2 ^ (e - 1)) v /\
  2 ^ 23 <= v / (2 * 2 ^ (e - 1)) < 2 ^ 24.
Proof.
  intros Hv e.
  assert (HL : 24 <= Z.log2 v).
  { change 24 with (Z.log2 (2 ^ 24)). apply Z.log2_le_mono. lia. }
  assert (He : 1 <= e) by (unfold e; lia).
  assert (Hp : 2 * 2 ^ (e - 1) = 2 ^ e).
  { replace e with (Z.succ (e - 1)) at 2 by lia. rewrite Z.pow_succ_r by lia. reflexivity. }
  split; [exact He|]. split.
  - unfold float32_of_int, round_to. rewrite Z.abs_eq by lia.
    destruct (Z.leb_spec v (2 ^ 24)); [lia|].
    fold e. rewrite Hp. rewrite Z.sgn_pos by lia. lia.
  - rewrite Hp.
    destruct (Z.log2_spec v ltac:(lia)) as [Hlo Hhi].
    assert (E : 2 ^ Z.log2 v = 2 ^ 23 * 2 ^ e).
    { unfold e. rewrite <- Z.pow_add_r by lia. f_equal. lia. }
    assert (E' : 2 ^ Z.succ (Z.log2 v) = 2 ^ 24 * 2 ^ e).
    { unfold e. rewrite <- Z.pow_add_r by lia. f_equal. lia. }
    assert (0 < 2 ^ e) by (apply Z.pow_pos_nonneg; lia).
    split.
    + apply Z.div_le_lower_bound; lia.
    + apply Z.div_lt_upper_bound; lia.
Qed.

Lemma round_to_bounds (half v : Z) :
  0 < half ->
  v / (2 * half) * (2 * half) <= round_to half v <= (v / (2 * half) + 1) * (2 * half).
Proof.
  intros Hh. unfold round_to.
  destruct (v mod (2 * half) <? half), (half <? v mod (2 * half)), (Z.even (v / (2 * half)));
    nia.
Qed.

Lemma round_to_mono (half a b : Z) :
  0 < half -> a <= b -> round_to half a <= round_to half b.
Proof.
  intros Hh Hab.
  pose proof (Z.div_le_mono a b (2 * half) ltac:(lia) Hab) as Hq.
  destruct (Z.eq_dec (a / (2 * half)) (b / (2 * half))) as [E|E].
  - pose proof (Z.div_mod a (2 * half) ltac:(lia)) as Ha.
    pose proof (Z.div_mod b (2 * half) ltac:(lia)) as Hb.
    assert (Hr : a mod (2 * half) <= b mod (2 * half)) by (rewrite E in Ha; nia).
    unfold round_to. rewrite <- E.
    destruct (Z.ltb_spec (a mod (2 * half)) half), (Z.ltb_spec half (a mod (2 * half))),
             (Z.ltb_spec (b mod (2 * half)) half), (Z.ltb_spec half (b mod (2 * half))),
             (Z.even (a / (2 * half))); try lia; nia.
  - pose proof (round_to_bounds half a Hh). pose proof (round_to_bounds half b Hh). nia.
Qed.

(** Storing into [float32] keeps the order of non-negative integers. *)
Lemma float32_of_int_mono (a b : Z) :
  0 <= a <= b -> float32_of_int a <= float32_of_int b.
Proof.
  intros Hab.
  destruct (Z.le_gt_cases b (2 ^ 24)) as [Hb|Hb].
  - unfold float32_of_int. rewrite !Z.abs_eq by lia.
    destruct (Z.leb_spec a (2 ^ 24)), (Z.leb_spec b (2 ^ 24)); lia.
  - destruct (float32_of_int_large b ltac:(lia)) as (Heb & -> & Hqb).
    pose proof (round_to_bounds (2 ^ (Z.log2 b - 23 - 1)) b
                  ltac:(apply Z.pow_pos_nonneg; lia)) as Bb.
    assert (Hpb : 1 <= 2 ^ (Z.log2 b - 23 - 1)).
    { change 1 with (2 ^ 0) at 1. apply Z.pow_le_mono_r; lia. }
    destruct (Z.le_gt_cases a (2 ^ 24)) as [Ha|Ha].
    + assert (Fa : float32_of_int a = a).
      { unfold float32_of_int. rewrite Z.abs_eq by lia.
        destruct (Z.leb_spec a (2 ^ 24)); lia. }
      rewrite Fa. change (2 ^ 24) with (2 ^ 23 * 2) in Ha. nia.
    + destruct (float32_of_int_large a ltac:(lia)) as (Hea & -> & Hqa).
      pose proof (Z.log2_le_mono a b ltac:(lia)) as HL.
      destruct (Z.eq_dec (Z.log2 a) (Z.log2 b)) as [E|E].
      * rewrite E. apply round_to_mono; [apply Z.pow_pos_nonneg|]; lia.
      * pose proof (round_to_bounds (2 ^ (Z.log2 a - 23 - 1)) a
                      ltac:(apply Z.pow_pos_nonneg; lia)) as Ba.
        assert (Hpa : 0 < 2 ^ (Z.log2 a - 23 - 1)) by (apply Z.pow_pos_nonneg; lia).
        assert (Hpp : 2 * 2 ^ (Z.log2 a - 23 - 1) <= 2 ^ (Z.log2 b - 23 - 1)).
        { rewrite <- Z.pow_succ_r by lia. apply Z.pow_le_mono_r; lia. }
        change (2 ^ 24) with (2 ^ 23 * 2) in Hqa. change (2 ^ 23) with 8388608 in *.
        nia.
Qed.

Lemma round_to_exact (half v : Z) :
  0 < half -> v mod (2 * half) = 0 -> round_to half v = v.
Proof.
  intros Hh Hm. unfold round_to. rewrite Hm.
  destruct (Z.ltb_spec 0 half); [|lia].
  pose proof (Z.div_mod v (2 * half) ltac:(lia)). lia.
Qed.

Lemma round_to_scale (k half v : Z) :
  0 < k -> 0 < half -> round_to (k * half) (k * v) = k * round_to half v.
Proof.
  intros Hk Hh. unfold round_to.
  replace (2 * (k * half)) with (k * (2 * half)) by lia.
  rewrite Z.div_mul_cancel_l by lia. rewrite Z.mul_mod_distr_l by lia.
  replace (k * (v mod (2 * half)) <? k * half) with (v mod (2 * half) <? half).
  2:{ destruct (Z.ltb_spec (v mod (2 * half)) half),
               (Z.ltb_spec (k * (v mod (2 * half))) (k * half)); try reflexivity; nia. }
  replace (k * half <? k * (v mod (2 * half))) with (half <? v mod (2 * half)).
  2:{ destruct (Z.ltb_spec half (v mod (2 * half))),
               (Z.ltb_spec (k * half) (k * (v mod (2 * half)))); try reflexivity; nia. }
  lia.
Qed.

(** Storing into [float32] commutes with a factor of 8. *)
Lemma float32_of_int_times_8 (v : Z) :
  0 <= v -> float32_of_int (8 * v) = 8 * float32_of_int v.
Proof.
  intros Hv.
  destruct (Z.le_gt_cases (8 * v) (2 ^ 24)) as [H8|H8].
  - unfold float32_of_int. rewrite !Z.abs_eq by lia.
    destruct (Z.leb_spec (8 * v) (2 ^ 24)), (Z.leb_spec v (2 ^ 24)); lia.
  - assert (HL : Z.log2 (8 * v) = Z.log2 v + 3).
    { rewrite Z.mul_comm. change 8 with (2 ^ 3). rewrite Z.log2_mul_pow2; lia. }
    destruct (float32_of_int_large (8 * v) ltac:(lia)) as (He & -> & _).
    rewrite HL in *.
    destruct (Z.le_gt_cases v (2 ^ 24)) as [Hs|Hs].
    + assert (Fv : float32_of_int v = v).
      { unfold float32_of_int. rewrite Z.abs_eq by lia.
        destruct (Z.leb_spec v (2 ^ 24)); lia. }
      rewrite Fv.
      assert (Hl24 : Z.log2 v <= 24).
      { change 24 with (Z.log2 (2 ^ 24)). apply Z.log2_le_mono. lia. }
      apply round_to_exact; [apply Z.pow_pos_nonneg; lia|].
      assert (Hc : Z.log2 v = 21 \/ Z.log2 v = 22 \/ Z.log2 v = 23 \/ Z.log2 v = 24) by lia.
      destruct Hc as [E|[E|[E|E]]]; rewrite E.
      * change (2 * 2 ^ (21 + 3 - 23 - 1)) with 2.
        replace (8 * v) with (4 * v * 2) by lia. apply Z.mod_mul. lia.
      * change (2 * 2 ^ (22 + 3 - 23 - 1)) with 4.
        replace (8 * v) with (2 * v * 4) by lia. apply Z.mod_mul. lia.
      * change (2 * 2 ^ (23 + 3 - 23 - 1)) with 8.
        replace (8 * v) with (v * 8) by lia. apply Z.mod_mul. lia.
      * destruct (Z.log2_spec v ltac:(lia)) as [Hlo _]. rewrite E in Hlo.
        assert (v = 2 ^ 24) by lia. subst v. reflexivity.
    + destruct (float32_of_int_large v ltac:(lia)) as (He' & -> & _).
      replace (2 ^ (Z.log2 v + 3 - 23 - 1)) with (8 * 2 ^ (Z.log2 v - 23 - 1)).
      * apply round_to_scale; [lia|apply Z.pow_pos_nonneg; lia].
      * replace (Z.log2 v + 3 - 23 - 1) with (3 + (Z.log2 v - 23 - 1)) by lia.
        rewrite Z.pow_add_r by lia. reflexivity.
Qed.

(** With at least one level the call reaches [computeFast]. *)
Lemma boxCountFunc_levels (h : store (ndarray bool)) (c : loc) (a : ndarray bool)
  (P : nat) (width : Z) :
  (0 < P)%nat -> deref h c = Some a ->
  boxCountFunc h c (Z.of_nat P) width
  = let '(xlen, ylen, zlen) := shape a in
    '(h', n') <- computeFast h xlen ylen zlen c (Z.of_nat P) width
                   (rev (range (Z.of_nat P)))
                   (repeat 0 (length (rev (range (Z.of_nat P))) + 1)) ;;
    Ok (h', (n', map (fun e => 2 ^ e) (range (Z.of_nat P + 1)))).
Proof.
  intros HP Hd. unfold boxCountFunc. rewrite Hd. destruct (shape a) as [[x y] z].
  assert (Hne : rev (range (Z.of_nat P)) <> []).
  { intros E. apply (f_equal (@length Z)) in E.
    rewrite length_rev, range_length in E. simpl in E. lia. }
  destruct (rev (range (Z.of_nat P))); [contradiction|reflexivity].
Qed.

(** With no level the call ends in numba's TypingError and nothing has
    run: the caller's array is as it was. *)
Lemma boxCountFunc_no_level (h : store (ndarray bool)) (c : loc) (a : ndarray bool)
  (p width : Z) :
  p <= 0 -> deref h c = Some a -> boxCountFunc h c p width = Raise TypingError.
Proof.
  intros Hp Hd. unfold boxCountFunc. rewrite Hd. destruct (shape a) as [[x y] z].
  unfold range. replace (Z.to_nat p) with 0%nat by lia. reflexivity.
Qed.

(** C10.  [boxCountFunc] on a cube of side [2^P], with at least one level,
    returns, and the array the caller passed is not the one it was: the
    object behind the reference now holds, in every cell, the OR of the
    original field over the block of the coarsest level whose grid holds
    that cell, so the first cell holds the OR of the whole field.  No
    other object changes.  [n[0]] is the number of true cells of the
    original field as a [float32] holds it: the number itself up to
    [2^24], the nearest [float32] above that. *)
Theorem boxCountFunc_overwrites_its_input
  (h : store (ndarray bool)) (c : loc) (a : ndarray bool) (P : nat) :
  (0 < P)%nat ->
  deref h c = Some a ->
  shape a = (2 ^ Z.of_nat P, 2 ^ Z.of_nat P, 2 ^ Z.of_nat P) ->
  exists h' a' n,
    boxCountFunc h c (Z.of_nat P) (2 ^ Z.of_nat P)
      = Ok (h', (n, map (fun e => 2 ^ e) (range (Z.of_nat P + 1)))) /\
    deref h' c = Some a' /\
    (forall l, l <> c -> deref h' l = deref h l) /\
    shape a' = shape a /\
    (forall r, in_shape (shape a) r = true ->
               cell a' r = block_or a r (2 ^ Z.of_nat (lev P r))) /\
    cell a' (0, 0, 0) = existsb (cell a) (coords (shape a)) /\
    nth_error n 0
      = Some (float32_of_int (Z.of_nat (length (filter (cell a) (coords (shape a)))))) /\
    (Z.of_nat (length (filter (cell a) (coords (shape a)))) <= 2 ^ 24 ->
     nth_error n 0 = Some (Z.of_nat (length (filter (cell a) (coords (shape a)))))) /\
    length n = S P.
Proof.
  intros HP Hd Hs. pose proof (deref_bound h c a Hd) as Hc.
  rewrite (boxCountFunc_levels h c a P _ HP Hd), Hs.
  match goal with |- context [computeFast h ?x ?y ?z c ?p ?w ?rr ?n] =>
    replace (computeFast h x y z c p w rr n)
      with (computeFast (update h c a) x y z c p w rr n)
      by (now rewrite (update_deref h c a Hd));
    destruct (computeFast_run h c P a n Hc Hs) as (a' & n' & Hrun & [Hs' Hred] & Hn' & Hf)
  end.
  - now rewrite repeat_length, length_rev, range_length, Nat2Z.id, Nat.add_1_r.
  - rewrite Hrun. cbn [bind].
    exists (update h c a'), a', n'. split; [reflexivity|].
    split; [now apply deref_update_same|].
    split; [intros l Hl; apply deref_update_other; congruence|].
    split; [exact Hs'|]. split; [exact Hred|]. rewrite Hs in Hf.
    split; [|split; [exact Hf|split; [|exact Hn']]].
    + rewrite Hred.
      * now rewrite lev_origin, block_or_origin.
      * apply in_shape_true. pose proof (pow2_pos P). lia.
    + intros Hsmall. rewrite Hf. f_equal. apply float32_of_int_small. lia.
Qed.

(** A cube of side 2 whose only true cell is (1,1,1). *)
Definition corner_cube : ndarray bool := mkArr (2, 2, 2) (fun q => idx3_eqb q (1, 1, 1)).

Lemma boxCountFunc_overwrites_its_input_witness :
  exists h' a' n,
    boxCountFunc [corner_cube] 0%nat (Z.of_nat 1) (2 ^ Z.of_nat 1)
      = Ok (h', (n, map (fun e => 2 ^ e) (range (Z.of_nat 1 + 1)))) /\
    deref h' 0%nat = Some a' /\
    (forall l, l <> 0%nat -> deref h' l = deref [corner_cube] l) /\
    shape a' = shape corner_cube /\
    (forall r, in_shape (shape corner_cube) r = true ->
               cell a' r = block_or corner_cube r (2 ^ Z.of_nat (lev 1 r))) /\
    cell a' (0, 0, 0) = existsb (cell corner_cube) (coords (shape corner_cube)) /\
    nth_error n 0
      = Some (float32_of_int (Z.of_nat (length (filter (cell corner_cube)
                                                       (coords (shape corner_cube)))))) /\
    (Z.of_nat (length (filter (cell corner_cube) (coords (shape corner_cube)))) <= 2 ^ 24 ->
     nth_error n 0 = Some (Z.of_nat (length (filter (cell corner_cube)
                                                    (coords (shape corner_cube)))))) /\
    length n = 2%nat.
Proof.
  apply (boxCountFunc_overwrites_its_input [corner_cube] 0%nat corner_cube 1);
    first [lia | reflexivity].
Defined.

(** On that cube the call changes the caller's array: the first cell,
    false before, is true after; the counts are [n = [1; 1]]. *)
Example corner_cube_overwritten :
  cell corner_cube (0, 0, 0) = false /\
  match boxCountFunc [corner_cube] 0%nat 1 2 with
  | Ok (h', (n, r)) =>
      match deref h' 0%nat with
      | Some a' => cell a' (0, 0, 0) = true /\ n = [1; 1] /\ r = [1; 2]
      | None => False
      end
  | _ => False
  end.
Proof. vm_compute. auto. Qed.

(* ================================================================== *)
(** * Further properties: the threshold filter on NaN values *)

Lemma ltb_nan_l (v : float) : PrimFloat.ltb nan v = false.
Proof. rewrite ltb_spec. reflexivity. Qed.

(** X1.  A cell whose field value is NaN is unoccupied for every
    threshold, in the upper-tail branch and in the lower-tail branch
    alike, and so is its cell in the padded grid. *)
Theorem nan_value_is_never_occupied
  (dt : dtype) (t : float) (c : ndarray float) (xlen ylen zlen : Z) (q : idx3) :
  cell c q = nan ->
  cell (threshold dt t c) q = false /\
  cell (pad xlen ylen zlen (threshold dt t c)) q = false.
Proof.
  intros Hq.
  assert (H : cell (threshold dt t c) q = false).
  { unfold threshold. destruct (PrimFloat.ltb 0%float t); cbn [cell]; rewrite Hq.
    - apply ltb_nan_r.
    - apply ltb_nan_l. }
  split; [exact H|]. unfold pad. cbn [cell]. rewrite H. now destruct (in_shape _ q).
Qed.

Lemma nan_value_is_never_occupied_witness :
  cell (threshold float32 1%float (mkArr (1, 1, 1) (fun _ => nan))) (0, 0, 0) = false /\
  cell (pad 1 1 1 (threshold float32 1%float (mkArr (1, 1, 1) (fun _ => nan)))) (0, 0, 0)
    = false.
Proof.
  apply (nan_value_is_never_occupied float32 1%float (mkArr (1, 1, 1) (fun _ => nan)) 1 1 1
           (0, 0, 0)).
  reflexivity.
Defined.

(* ================================================================== *)
(** * Further properties: the octant tables *)

(** The corners of the cube in the numbering both tables follow: corner
    [v] sits at [corner_pos v], seen from corner 0. *)
Definition corner_pos (v : Z) : idx3 :=
  match v with
  | 1 => (1, 0, 0)
  | 2 => (1, -1, 0)
  | 3 => (0, -1, 0)
  | 4 => (0, 0, 1)
  | 5 => (1, 0, 1)
  | 6 => (1, -1, 1)
  | 7 => (0, -1, 1)
  | _ => (0, 0, 0)
  end.

Definition idx3_sub (p q : idx3) : idx3 :=
  let '(a, b, e) := p in
  let '(x, y, z) := q in
  (a - x, b - y, e - z).

(** The neighbor offset at which corner [v] of octant [ii] lies. *)
Definition octant_offset (ii v : Z) : idx3 :=
  idx3_sub (corner_pos v) (corner_pos (anchor ii)).

(** X2.  The two hand-written tables of the resolver are one geometry:
    with a single numbering of the cube's corners, entry [v] of the flag
    list of octant [ii] (lines 548 to 555) is the flag of the neighbor at
    corner [v] seen from the anchor corner, the anchor entry is [True], and
    the branch for [v] of octant [ii] (lines 579 to 793) resets that same
    neighbor; there is a branch exactly for the seven corners other than
    the anchor of each of the eight octants. *)
Theorem octant_tables_are_coherent :
  (forall fl,
     _cubes fl =
     map (fun ii => map (fun v => if v =? anchor ii then true
                                  else fl (octant_offset ii v)) (range 8)) (range 8)) /\
  (forall ii v d,
     remove_target ii v = Some d <->
     In ii (range 8) /\ In v (range 8) /\ v <> anchor ii /\ d = octant_offset ii v).
Proof.
  split.
  - intros fl. reflexivity.
  - intros ii v d. split.
    + intros H. apply remove_target_table in H.
      assert (T : Forall (fun e => let '(ii, v, d) := e in
                   In ii (range 8) /\ In v (range 8) /\ v <> anchor ii /\
                   d = octant_offset ii v) branch_table).
      { assert (R : range 8 = [0; 1; 2; 3; 4; 5; 6; 7]) by reflexivity.
        rewrite R. unfold branch_table.
        repeat (apply Forall_cons;
                [split; [cbn [In]; tauto|split; [cbn [In]; tauto|split;
                   [discriminate|reflexivity]]]|]).
        apply Forall_nil. }
      rewrite Forall_forall in T. exact (T _ H).
    + intros (Hii & Hv & Hne & ->).
      assert (R : range 8 = [0; 1; 2; 3; 4; 5; 6; 7]) by reflexivity.
      rewrite R in Hii, Hv. cbn [In] in Hii, Hv.
      destruct Hii as [<-|[<-|[<-|[<-|[<-|[<-|[<-|[<-|[]]]]]]]]];
        destruct Hv as [<-|[<-|[<-|[<-|[<-|[<-|[<-|[<-|[]]]]]]]]];
        first [reflexivity | exfalso; apply Hne; reflexivity].
Qed.

Lemma range_8 : range 8 = [0; 1; 2; 3; 4; 5; 6; 7].
Proof. reflexivity. Qed.

Lemma find_case_number_bounds (b0 b1 b2 b3 b4 b5 b6 b7 : bool) :
  0 <= find_case_number [b0; b1; b2; b3; b4; b5; b6; b7] <= 255 /\
  (b0 || b1 || b2 || b3 || b4 || b5 || b6 || b7 = true ->
   1 <= find_case_number [b0; b1; b2; b3; b4; b5; b6; b7]).
Proof.
  destruct b0, b1, b2, b3, b4, b5, b6, b7; vm_compute;
    (split; [split; discriminate|intros H; discriminate]).
Qed.

(** X3.  The code handed to the case table for octant [ii] is the byte of
    that octant: bit [v] is the flag of the neighbor at corner [v], the
    bit of the anchor corner is always set, and so the code lies between
    1 and 255. *)
Theorem case_code_is_the_octant_byte (fl : flags) (ii : Z) :
  In ii (range 8) ->
  exists cs,
    list_get (_cases fl) ii = Some cs /\
    1 <= cs <= 255 /\
    Z.testbit cs (anchor ii) = true /\
    forall v, In v (range 8) ->
      Z.testbit cs v = if v =? anchor ii then true else fl (octant_offset ii v).
Proof.
  intros Hii. rewrite range_8 in *. unfold _cases. rewrite list_get_map.
  cbn [In] in Hii.
  assert (Hbits : forall cube b0 b1 b2 b3 b4 b5 b6 b7,
            cube = [b0; b1; b2; b3; b4; b5; b6; b7] ->
            b0 || b1 || b2 || b3 || b4 || b5 || b6 || b7 = true ->
            1 <= find_case_number cube <= 255 /\
            forall v b, In v [0; 1; 2; 3; 4; 5; 6; 7] -> list_get cube v = Some b ->
                        Z.testbit (find_case_number cube) v = b).
  { intros cube b0 b1 b2 b3 b4 b5 b6 b7 -> Hany.
    pose proof (find_case_number_bounds b0 b1 b2 b3 b4 b5 b6 b7) as [Hb Hpos].
    split; [specialize (Hpos Hany); lia|].
    intros v b Hv Hget. apply find_case_number_testbit; [exact Hget|].
    cbn [In] in Hv. lia. }
  destruct Hii as [<-|[<-|[<-|[<-|[<-|[<-|[<-|[<-|[]]]]]]]]];
    (eexists; split; [reflexivity|];
     match goal with |- context [find_case_number ?cube] =>
       destruct (Hbits cube _ _ _ _ _ _ _ _ eq_refl) as [Hr Hb];
       [cbn [orb]; rewrite ?orb_true_r; reflexivity|]
     end;
     split; [exact Hr|]; split;
     [apply Hb; [cbn [In anchor]; tauto|reflexivity]|];
     intros v Hv; apply Hb; [exact Hv|];
     cbn [In] in Hv;
     destruct Hv as [<-|[<-|[<-|[<-|[<-|[<-|[<-|[<-|[]]]]]]]]]; reflexivity).
Qed.

Lemma case_code_is_the_octant_byte_witness :
  exists cs,
    list_get (_cases no_flags) 0 = Some cs /\
    1 <= cs <= 255 /\
    Z.testbit cs (anchor 0) = true /\
    forall v, In v (range 8) ->
      Z.testbit cs v = if v =? anchor 0 then true else no_flags (octant_offset 0 v).
Proof.
  apply (case_code_is_the_octant_byte no_flags 0). simpl. tauto.
Defined.

(* ================================================================== *)
(** * Further properties: the identifiers in the returned grid *)

(** X4.  The labeler returns, and the positive identifiers that occur in
    the cropped grid (the array the function returns and [np.unique]
    reads) are exactly 1, 2, ..., [_structVal]: none is skipped and none
    is larger, so [_structVal] is the number of structures; it is at most
    the number of cells of the padded grid. *)
Theorem identifiers_are_one_to_structVal
  (outliers : Z -> list (list Z)) (mc : bool) (c : ndarray bool)
  (xlen ylen zlen : Z) (fuel : nat) :
  0 <= xlen -> 0 <= ylen -> 0 <= zlen ->
  padded c xlen ylen zlen ->
  mc = false \/ table_wf outliers ->
  (xlen + 1) * (ylen + 1) * (zlen + 1) < 2 ^ 32 ->
  (Z.to_nat ((xlen + 1) * (ylen + 1) * (zlen + 1)) + 2 <= fuel)%nat ->
  exists sv g printed,
    label_structures outliers fuel mc c xlen ylen zlen = Ok (sv, g, printed) /\
    0 <= sv <= (xlen + 1) * (ylen + 1) * (zlen + 1) /\
    (forall m, In m (ravel (crop g (xlen, ylen, zlen))) -> 0 <= m <= sv) /\
    (forall m, 0 < m <= sv -> In m (ravel (crop g (xlen, ylen, zlen)))).
Proof.
  intros Hx Hy Hz Hpad Hmode Hsize Hfuel.
  destruct (label_structures_inv c xlen ylen zlen Hx Hy Hz Hpad outliers mc Hmode fuel)
    as ([[sv g] printed] & Hrun & Hinv).
  - rewrite cells_size by lia. lia.
  - rewrite cells_size by lia. exact Hfuel.
  - destruct Hinv as ((Hsh & Hnn) & Hsv & Hb & Hocc & _ & _ & Hseed & _).
    exists sv, g, printed. split; [exact Hrun|].
    rewrite (crop_padded g xlen ylen zlen Hsh). split; [|split].
    + fold (cells xlen ylen zlen) in Hsv. rewrite cells_size in Hsv by lia. lia.
    + intros m Hm. apply in_map_iff in Hm. destruct Hm as (q & <- & _).
      split; [apply Hnn|apply Hb].
    + intros m Hm. destruct (Hseed m Hm) as (w & _ & Hw).
      apply in_map_iff. exists w. split; [exact Hw|].
      apply coords_In. apply Hpad. apply Hocc. lia.
Qed.

Lemma identifiers_are_one_to_structVal_witness :
  exists sv g printed,
    label_structures diagonal_outliers 29 true diagonal_pair 2 2 2 = Ok (sv, g, printed) /\
    0 <= sv <= (2 + 1) * (2 + 1) * (2 + 1) /\
    (forall m, In m (ravel (crop g (2, 2, 2))) -> 0 <= m <= sv) /\
    (forall m, 0 < m <= sv -> In m (ravel (crop g (2, 2, 2)))).
Proof.
  apply (identifiers_are_one_to_structVal diagonal_outliers true diagonal_pair 2 2 2 29);
    try lia.
  - apply pad_padded. reflexivity.
  - right. exact diagonal_outliers_wf.
Defined.

(* ================================================================== *)
(** * Further properties: structures and connected components *)

Lemma connected_snoc (c : ndarray bool) (p q d : idx3) :
  connected c p q -> In d neighbor_checks -> cell c (idx3_add q d) = true ->
  connected c p (idx3_add q d).
Proof.
  intros H Hd Ho. induction H as [p Hp|p e q Hp He H IH].
  - apply (connected_step c p d); auto. now apply connected_here.
  - apply (connected_step c p e); auto.
Qed.

Lemma connected_trans (c : ndarray bool) (p q r : idx3) :
  connected c p q -> connected c q r -> connected c p r.
Proof.
  intros H Hqr. induction H as [p Hp|p e q Hp He H IH]; [exact Hqr|].
  apply (connected_step c p e); auto.
Qed.

Lemma connected_end (c : ndarray bool) (p q : idx3) :
  connected c p q -> cell c q = true.
Proof. induction 1; auto. Qed.

Lemma connected_sym (c : ndarray bool) (p q : idx3) :
  connected c p q -> connected c q p.
Proof.
  intros H. induction H as [p Hp|p e q Hp He H IH]; [now apply connected_here|].
  apply (connected_trans c q (idx3_add p e) p); [exact IH|].
  rewrite <- (idx3_add_neg p e) at 2.
  apply connected_snoc.
  - apply connected_here. now apply connected_occupied in H.
  - now apply neighbor_checks_neg.
  - now rewrite idx3_add_neg.
Qed.

Section Frontier.

Variables (c : ndarray bool) (xlen ylen zlen : Z).
Hypothesis Hx : 0 <= xlen.
Hypothesis Hy : 0 <= ylen.
Hypothesis Hz : 0 <= zlen.
Hypothesis Hpad : padded c xlen ylen zlen.
Variable outliers : Z -> list (list Z).
Variable mc : bool.
Hypothesis Hmode : mc = false \/ table_wf outliers.

(** What the frontier [_neighborVal] is while a structure grows: with the
    first cell, the cells that carry the label, each once, and each joined
    to the first cell by a path of occupied cells. *)
Definition frontier_inv (sv : Z) (seed : idx3) (g : ndarray Z) (nv : list idx3) : Prop :=
  NoDup nv /\ ~ In seed nv /\
  (forall q, In q nv -> inner xlen ylen zlen q) /\
  (forall r, cell g r = sv <-> r = seed \/ In r nv) /\
  (forall r, cell g r = sv -> connected c seed r).

Lemma frontier_step (sv : Z) (seed q : idx3) (g : ndarray Z) (nv : list idx3) :
  0 < sv < 2 ^ 32 -> grid_ok xlen ylen zlen g ->
  frontier_inv sv seed g nv -> inner xlen ylen zlen q -> cell g q = sv ->
  exists g2 adds,
    expand_cell outliers mc c sv q g = Ok (g2, adds) /\
    grid_ok xlen ylen zlen g2 /\ grows c sv g g2 /\
    frontier_inv sv seed g2 (nv ++ adds).
Proof.
  intros Hsv Hg (Hnd & Hseed & Hin & Hset & Hcon) Hq Hqs.
  destruct (expand_cell_step c xlen ylen zlen Hx Hy Hz Hpad outliers mc Hmode sv q g
              Hq Hg Hsv) as (g2 & K & He & Hg2 & HKnd & HK & Hc & Hu & _).
  pose proof (step_grows c sv q g g2 K (proj2 Hg) HK Hc Hu) as Hgr.
  assert (Hzero : forall d, In d K -> cell g (idx3_add q d) <= 0).
  { intros d Hd. destruct (HK d Hd) as [_ Hn]. unfold newly in Hn.
    apply andb_true_iff in Hn. destruct Hn as [_ Hn].
    now apply negb_true_iff, Z.ltb_ge in Hn. }
  assert (Hfresh : forall d, In d K -> cell g (idx3_add q d) <> sv)
    by (intros d Hd; specialize (Hzero d Hd); lia).
  exists g2, (map (idx3_add q) K). split; [exact He|]. split; [exact Hg2|].
  split; [exact Hgr|]. split; [|split; [|split; [|split]]].
  - apply NoDup_app; [exact Hnd|now apply NoDup_map_add|].
    intros r Hr Hr'. apply in_map_iff in Hr'. destruct Hr' as (d & <- & Hd).
    apply (Hfresh d Hd). apply Hset. now right.
  - intros H. apply in_app_iff in H. destruct H as [H|H]; [contradiction|].
    apply in_map_iff in H. destruct H as (d & E & Hd).
    apply (Hfresh d Hd). rewrite E. apply Hset. now left.
  - intros r Hr. apply in_app_iff in Hr. destruct Hr as [Hr|Hr]; [now apply Hin|].
    apply in_map_iff in Hr. destruct Hr as (d & <- & Hd).
    apply (newly_inner c xlen ylen zlen Hpad g q d). now apply HK.
  - intros r.
    destruct (existsb (fun d => idx3_eqb r (idx3_add q d)) K) eqn:E.
    + apply existsb_idx3 in E. destruct E as (d & Hd & ->). split.
      * intros _. right. apply in_app_iff. right. now apply in_map.
      * intros _. now apply Hc.
    + assert (Hne : forall d, In d K -> r <> idx3_add q d).
      { intros d Hd ->. apply not_true_iff_false in E. apply E.
        apply existsb_idx3. eauto. }
      rewrite (Hu r Hne), Hset, in_app_iff. split; [tauto|].
      intros [H|[H|H]]; auto. exfalso.
      apply in_map_iff in H. destruct H as (d & <- & Hd). now apply (Hne d Hd).
  - intros r Hr.
    destruct (existsb (fun d => idx3_eqb r (idx3_add q d)) K) eqn:E.
    + apply existsb_idx3 in E. destruct E as (d & Hd & ->).
      destruct (HK d Hd) as [Hdin Hn]. apply connected_snoc; auto.
      unfold newly in Hn. apply andb_true_iff in Hn. tauto.
    + apply Hcon. rewrite <- Hr. symmetry. apply Hu.
      intros d Hd ->. apply not_true_iff_false in E. apply E.
      apply existsb_idx3. eauto.
Qed.

(** The loop keeps the invariant, whatever the budget: a run that
    returns has a frontier that lists the structure. *)
Lemma frontier_loop (sv : Z) (seed : idx3) :
  0 < sv < 2 ^ 32 ->
  forall (fuel : nat) (g : ndarray Z) (nv : list idx3) (nc lc : Z) (p : idx3)
         (g' : ndarray Z) (nv' : list idx3),
    grid_ok xlen ylen zlen g -> frontier_inv sv seed g nv ->
    0 <= nc -> 0 <= lc -> (lc = 0 -> p = seed) ->
    expand outliers fuel mc c sv g nv lc nc p = Ok (g', nv') ->
    grows c sv g g' /\ frontier_inv sv seed g' nv'.
Proof.
  intros Hsv.
  induction fuel as [|fuel IH]; intros g nv nc lc p g' nv' Hg Hinv Hnc Hlc Hp Hrun.
  - discriminate.
  - cbn [expand] in Hrun.
    pose proof Hinv as (_ & _ & Hin & Hset & Hcon).
    assert (Hstep : forall q nc', 0 <= nc' -> inner xlen ylen zlen q -> cell g q = sv ->
              bind (expand_cell outliers mc c sv q g)
                   (fun r => let '(g1, adds) := r in
                             expand outliers fuel mc c sv g1 (nv ++ adds) (lc + 1) nc' q)
              = Ok (g', nv') ->
              grows c sv g g' /\ frontier_inv sv seed g' nv').
    { intros q nc' Hnc' Hq Hqs Hr.
      destruct (frontier_step sv seed q g nv Hsv Hg Hinv Hq Hqs)
        as (g2 & adds & He & Hg2 & Hgr & Hinv2).
      rewrite He in Hr. cbn [bind] in Hr.
      destruct (IH g2 (nv ++ adds) nc' (lc + 1) q g' nv' Hg2 Hinv2) as [Hgr' Hinv'];
        try lia; [exact Hr|].
      split; [|exact Hinv']. apply (grows_trans c sv g g2 g'); auto; lia. }
    destruct (Z.ltb_spec 0 lc) as [Hpos|Hzero].
    + rewrite list_get_nth in Hrun by lia.
      destruct (nth_error nv (Z.to_nat nc)) as [q|] eqn:Hq.
      * pose proof (nth_error_In _ _ Hq) as Hqin.
        apply (Hstep q (nc + 1)); [lia|now apply Hin|apply Hset; now right|exact Hrun].
      * injection Hrun as <- <-. split; [apply grows_refl|exact Hinv].
    + assert (E : p = seed) by (apply Hp; lia). subst p.
      assert (Hs : cell g seed = sv) by (apply Hset; now left).
      apply (Hstep seed nc); [lia| |exact Hs|exact Hrun].
      apply (occupied_inner c xlen ylen zlen Hpad). apply (connected_occupied c seed seed).
      now apply Hcon.
Qed.

(** The whole loop for one structure, from its first cell. *)
Lemma frontier_structure (sv : Z) (seed : idx3) (g g' : ndarray Z) (nv' : list idx3)
  (fuel : nat) :
  0 < sv < 2 ^ 32 -> cell c seed = true -> grid_ok xlen ylen zlen g ->
  cell g seed = sv -> (forall r, cell g r = sv -> r = seed) ->
  expand outliers fuel mc c sv g [] 0 0 seed = Ok (g', nv') ->
  grows c sv g g' /\ frontier_inv sv seed g' nv'.
Proof.
  intros Hsv Hocc Hg Hs Honly Hrun.
  apply (frontier_loop sv seed Hsv fuel g [] 0 0 seed g' nv' Hg); try lia; auto.
  split; [constructor|]. split; [intros []|]. split; [intros q []|]. split.
  - intros r. split; [intros H; left; now apply Honly|].
    intros [->|[]]. exact Hs.
  - intros r Hr. rewrite (Honly r Hr). now apply connected_here.
Qed.

End Frontier.

(* ================================================================== *)
(** * NeighborInformation.txt (lines 879 to 886)

    With [_writeNeighborInformation] the scan appends, for every
    structure, a line with its identifier and the smallest and largest
    coordinate, per axis, of the cells in [_neighborVal] and its first
    cell. *)

(** Python's [min] and [max]; an empty sequence raises ValueError. *)
Definition py_min (l : list Z) : outcome Z :=
  match l with
  | [] => Raise ValueError
  | x :: l' => Ok (fold_left Z.min l' x)
  end.

Definition py_max (l : list Z) : outcome Z :=
  match l with
  | [] => Raise ValueError
  | x :: l' => Ok (fold_left Z.max l' x)
  end.

(** A line of the file: the identifier and the three intervals. *)
Definition info_line : Type := Z * (Z * Z) * (Z * Z) * (Z * Z).

(** [_neighborVal.append([i, j, k])] and the six extrema of lines 881 to
    885, in the order they are evaluated. *)
Definition neighbor_information (_structVal : Z) (_neighborVal : list idx3) (p : idx3)
  : outcome info_line :=
  let pts := _neighborVal ++ [p] in
  let col0 := map (fun q : idx3 => fst (fst q)) pts in
  let col1 := map (fun q : idx3 => snd (fst q)) pts in
  let col2 := map (fun q : idx3 => snd q) pts in
  x0 <- py_min col0 ;;
  x1 <- py_max col0 ;;
  y0 <- py_min col1 ;;
  y1 <- py_max col1 ;;
  z0 <- py_min col2 ;;
  z1 <- py_max col2 ;;
  Ok (_structVal, (x0, x1), (y0, y1), (z0, z1)).

(** The body of the scan with the lines written: the state of [visit]
    and the contents of the file. *)
Definition visit_writing (outliers : Z -> list (list Z)) (fuel : nat)
  (_marchingCubesExt : bool) (c : ndarray bool) (_writeNeighborInformation : bool)
  (p : idx3) (st : Z * ndarray Z * list Z * list info_line)
  : outcome (Z * ndarray Z * list Z * list info_line) :=
  let '(_structVal, g, printed, file) := st in
  occupied <- subscript (getitem c p) ;;
  if occupied then
    l <- subscript (getitem g p) ;;
    if 0 <? l then Ok st
    else
      let _structVal' := _structVal + 1 in
      g1 <- subscript (setitem g p (uint32 _structVal')) ;;
      '(g2, _neighborVal) <- expand outliers fuel _marchingCubesExt c _structVal' g1 [] 0 0 p ;;
      file' <- (if _writeNeighborInformation
                then line <- neighbor_information _structVal' _neighborVal p ;;
                     Ok (file ++ [line])
                else Ok file) ;;
      Ok (_structVal', g2, printed ++ [_structVal'], file')
  else Ok st.

Definition label_structures_writing (outliers : Z -> list (list Z)) (fuel : nat)
  (_marchingCubesExt : bool) (c : ndarray bool) (xlen ylen zlen : Z)
  (_writeNeighborInformation : bool)
  : outcome (Z * ndarray Z * list Z * list info_line) :=
  for_each (coords (xlen + 1, ylen + 1, zlen + 1))
           (visit_writing outliers fuel _marchingCubesExt c _writeNeighborInformation)
           (0, full (xlen + 1, ylen + 1, zlen + 1) 0, [], []).

(** ** Extrema *)

Lemma fold_min_spec (l : list Z) (a : Z) :
  (fold_left Z.min l a = a \/ In (fold_left Z.min l a) l) /\
  fold_left Z.min l a <= a /\
  forall y, In y l -> fold_left Z.min l a <= y.
Proof.
  revert a. induction l as [|x l IH]; intros a; cbn [fold_left In].
  - split; [now left|]. split; [lia|]. intros y [].
  - destruct (IH (Z.min a x)) as (H1 & H2 & H3). split; [|split].
    + destruct H1 as [H1|H1]; [|now right; right].
      rewrite H1. destruct (Z.min_spec a x) as [[_ E]|[_ E]]; rewrite E; auto.
    + lia.
    + intros y [<-|Hy]; [lia|now apply H3].
Qed.

Lemma fold_max_spec (l : list Z) (a : Z) :
  (fold_left Z.max l a = a \/ In (fold_left Z.max l a) l) /\
  a <= fold_left Z.max l a /\
  forall y, In y l -> y <= fold_left Z.max l a.
Proof.
  revert a. induction l as [|x l IH]; intros a; cbn [fold_left In].
  - split; [now left|]. split; [lia|]. intros y [].
  - destruct (IH (Z.max a x)) as (H1 & H2 & H3). split; [|split].
    + destruct H1 as [H1|H1]; [|now right; right].
      rewrite H1. destruct (Z.max_spec a x) as [[_ E]|[_ E]]; rewrite E; auto.
    + lia.
    + intros y [<-|Hy]; [lia|now apply H3].
Qed.

Lemma py_min_spec (l : list Z) (x : Z) :
  In x l -> exists v, py_min l = Ok v /\ In v l /\ forall y, In y l -> v <= y.
Proof.
  destruct l as [|a l]; [intros []|]. intros _. cbn [py_min].
  destruct (fold_min_spec l a) as (H1 & H2 & H3).
  eexists. split; [reflexivity|]. split.
  - destruct H1 as [->|H1]; [now left|now right].
  - intros y [<-|Hy]; [exact H2|now apply H3].
Qed.

Lemma py_max_spec (l : list Z) (x : Z) :
  In x l -> exists v, py_max l = Ok v /\ In v l /\ forall y, In y l -> y <= v.
Proof.
  destruct l as [|a l]; [intros []|]. intros _. cbn [py_max].
  destruct (fold_max_spec l a) as (H1 & H2 & H3).
  eexists. split; [reflexivity|]. split.
  - destruct H1 as [->|H1]; [now left|now right].
  - intros y [<-|Hy]; [exact H2|now apply H3].
Qed.

(** A line is the bounding box of a set of cells: the identifier, and
    intervals that hold every cell of the set and whose six ends are each
    the coordinate of one of its cells. *)
Definition bounding_box (m : Z) (S : idx3 -> Prop) (line : info_line) : Prop :=
  let '(id, (x0, x1), (y0, y1), (z0, z1)) := line in
  id = m /\
  (forall i j k, S (i, j, k) -> x0 <= i <= x1 /\ y0 <= j <= y1 /\ z0 <= k <= z1) /\
  (exists j k, S (x0, j, k)) /\ (exists j k, S (x1, j, k)) /\
  (exists i k, S (i, y0, k)) /\ (exists i k, S (i, y1, k)) /\
  (exists i j, S (i, j, z0)) /\ (exists i j, S (i, j, z1)).

Lemma neighbor_information_box (sv : Z) (nv : list idx3) (p : idx3) :
  exists line, neighbor_information sv nv p = Ok line /\
               bounding_box sv (fun r => In r (nv ++ [p])) line.
Proof.
  unfold neighbor_information.
  remember (nv ++ [p]) as pts eqn:E.
  assert (Hp : In p pts) by (rewrite E; apply in_app_iff; right; now left).
  clear E.
  destruct (py_min_spec (map (fun q : idx3 => fst (fst q)) pts) (fst (fst p)))
    as (x0 & -> & Hx0 & Hx0');
    [exact (in_map (fun q : idx3 => fst (fst q)) _ _ Hp)|].
  destruct (py_max_spec (map (fun q : idx3 => fst (fst q)) pts) (fst (fst p)))
    as (x1 & -> & Hx1 & Hx1');
    [exact (in_map (fun q : idx3 => fst (fst q)) _ _ Hp)|].
  destruct (py_min_spec (map (fun q : idx3 => snd (fst q)) pts) (snd (fst p)))
    as (y0 & -> & Hy0 & Hy0');
    [exact (in_map (fun q : idx3 => snd (fst q)) _ _ Hp)|].
  destruct (py_max_spec (map (fun q : idx3 => snd (fst q)) pts) (snd (fst p)))
    as (y1 & -> & Hy1 & Hy1');
    [exact (in_map (fun q : idx3 => snd (fst q)) _ _ Hp)|].
  destruct (py_min_spec (map (fun q : idx3 => snd q) pts) (snd p))
    as (z0 & -> & Hz0 & Hz0');
    [exact (in_map (fun q : idx3 => snd q) _ _ Hp)|].
  destruct (py_max_spec (map (fun q : idx3 => snd q) pts) (snd p))
    as (z1 & -> & Hz1 & Hz1');
    [exact (in_map (fun q : idx3 => snd q) _ _ Hp)|].
  cbn [bind]. eexists. split; [reflexivity|]. unfold bounding_box.
  split; [reflexivity|]. split.
  - intros i j k Hin.
    pose proof (in_map (fun q : idx3 => fst (fst q)) _ _ Hin) as Hi.
    pose proof (in_map (fun q : idx3 => snd (fst q)) _ _ Hin) as Hj.
    pose proof (in_map (fun q : idx3 => snd q) _ _ Hin) as Hk.
    cbn [fst snd] in Hi, Hj, Hk.
    pose proof (Hx0' _ Hi). pose proof (Hx1' _ Hi).
    pose proof (Hy0' _ Hj). pose proof (Hy1' _ Hj).
    pose proof (Hz0' _ Hk). pose proof (Hz1' _ Hk). lia.
  - apply in_map_iff in Hx0, Hx1, Hy0, Hy1, Hz0, Hz1.
    destruct Hx0 as ([[i0 j0] k0] & <- & H0), Hx1 as ([[i1 j1] k1] & <- & H1),
             Hy0 as ([[i2 j2] k2] & <- & H2), Hy1 as ([[i3 j3] k3] & <- & H3),
             Hz0 as ([[i4 j4] k4] & <- & H4), Hz1 as ([[i5 j5] k5] & <- & H5).
    cbn [fst snd]. repeat split; eauto.
Qed.

Lemma bounding_box_ext (m : Z) (S S' : idx3 -> Prop) (line : info_line) :
  (forall r, S r <-> S' r) -> bounding_box m S line -> bounding_box m S' line.
Proof.
  intros E. destruct line as [[[id [x0 x1]] [y0 y1]] [z0 z1]]. unfold bounding_box.
  intros (Hid & Hall & (j0 & k0 & H0) & (j1 & k1 & H1) & (i2 & k2 & H2) &
          (i3 & k3 & H3) & (i4 & j4 & H4) & (i5 & j5 & H5)).
  split; [exact Hid|]. split; [intros i j k H; apply Hall; now apply E|].
  repeat split; eexists _, _; apply E; eassumption.
Qed.

Section Writing.

Variables (c : ndarray bool) (xlen ylen zlen : Z).
Hypothesis Hx : 0 <= xlen.
Hypothesis Hy : 0 <= ylen.
Hypothesis Hz : 0 <= zlen.
Hypothesis Hpad : padded c xlen ylen zlen.
Variable outliers : Z -> list (list Z).
Variable mc : bool.
Hypothesis Hmode : mc = false \/ table_wf outliers.
Variable fuel : nat.
Hypothesis Hfuel : (cells xlen ylen zlen + 2 <= fuel)%nat.

(** What holds of the structures found so far and of the file: every
    structure is joined to one of its cells by paths of occupied cells, and
    line [m] of the file is the bounding box of structure [m]. *)
Definition writing_inv (wn : bool) (sv : Z) (g : ndarray Z) (file : list info_line)
  : Prop :=
  (forall m, 0 < m <= sv ->
     exists w, cell g w = m /\ forall r, cell g r = m -> connected c w r) /\
  (if wn
   then length file = Z.to_nat sv /\
        forall m, 0 < m <= sv ->
          exists line, nth_error file (Z.to_nat (m - 1)) = Some line /\
                       bounding_box m (fun r => cell g r = m) line
   else file = []).

Lemma visit_writing_inv (wn : bool) (pre : list idx3) (q : idx3)
  (sv : Z) (g : ndarray Z) (printed : list Z) (file : list info_line) :
  scan_inv c xlen ylen zlen mc pre (sv, g, printed) -> writing_inv wn sv g file ->
  in_shape (xlen + 1, ylen + 1, zlen + 1) q = true ->
  Z.of_nat (length pre) + 1 < 2 ^ 32 ->
  exists sv' g' printed' file',
    visit_writing outliers fuel mc c wn q (sv, g, printed, file)
      = Ok (sv', g', printed', file') /\
    visit outliers fuel mc c q (sv, g, printed) = Ok (sv', g', printed') /\
    scan_inv c xlen ylen zlen mc (pre ++ [q]) (sv', g', printed') /\
    writing_inv wn sv' g' file'.
Proof.
  intros Hinv Hw Hq Hlen.
  destruct (visit_inv c xlen ylen zlen Hx Hy Hz Hpad outliers mc Hmode fuel pre q
              (sv, g, printed) Hinv Hq Hlen Hfuel) as (st1 & Hv & Hinv1).
  pose proof Hinv as (Hg & Hsv & Hb & Hocc & _).
  rewrite Hv. revert Hv. unfold visit, visit_writing.
  rewrite (getitem_cell c q q)
    by (rewrite (proj1 Hpad); now apply np_index3_valid).
  cbn [subscript bind].
  destruct (cell c q) eqn:Hcq.
  - rewrite (getitem_cell g q q)
      by (rewrite (proj1 Hg); now apply np_index3_valid).
    cbn [subscript bind].
    destruct (Z.ltb_spec 0 (cell g q)) as [Hpos|Hzero].
    + intros Hv. injection Hv as <-. exists sv, g, printed, file. auto.
    + assert (Hq0 : cell g q = 0) by (pose proof (proj2 Hg q); lia).
      assert (Hsv' : 0 < sv + 1 < 2 ^ 32) by lia.
      rewrite (setitem_upd g q q) by (rewrite (proj1 Hg); now apply np_index3_valid).
      rewrite (uint32_small (sv + 1)) by lia. cbn [subscript bind].
      destruct (expand outliers fuel mc c (sv + 1) (upd g q (sv + 1)) [] 0 0 q)
        as [[g2 nv]| |] eqn:Hex; cbn [bind]; try discriminate.
      intros Hv. injection Hv as <-.
      assert (Hg1 : grid_ok xlen ylen zlen (upd g q (sv + 1))).
      { split; [exact (proj1 Hg)|]. intros r. unfold upd. cbn [cell].
        destruct (idx3_eqb r q); [lia|apply Hg]. }
      destruct (frontier_structure c xlen ylen zlen Hx Hy Hz Hpad outliers mc Hmode
                  (sv + 1) q (upd g q (sv + 1)) g2 nv fuel Hsv' Hcq Hg1
                  (upd_same g q (sv + 1))) as [Hgr (_ & _ & _ & Hset & Hcon)];
        [|exact Hex|].
      { intros r Hr. destruct (idx3_eqb r q) eqn:E; [now apply idx3_eqb_eq|].
        apply idx3_eqb_neq in E. rewrite upd_other in Hr by exact E.
        pose proof (Hb r). lia. }
      assert (Hold : forall m r, 0 < m <= sv -> (cell g2 r = m <-> cell g r = m)).
      { intros m r Hm. destruct (idx3_eqb r q) eqn:E.
        - apply idx3_eqb_eq in E. subst r.
          rewrite (grows_keeps c (sv + 1) _ g2 q Hgr); rewrite upd_same; lia.
        - apply idx3_eqb_neq in E.
          destruct (Hgr r) as [Er|(E0 & Er & _)].
          + rewrite upd_other in Er by exact E. rewrite Er. tauto.
          + rewrite upd_other in E0 by exact E. rewrite Er. split; intros; lia. }
      destruct Hw as [Hw1 Hw2].
      destruct (neighbor_information_box (sv + 1) nv q) as (line & Hline & Hbox).
      assert (Hbox' : bounding_box (sv + 1) (fun r => cell g2 r = sv + 1) line).
      { revert Hbox. apply bounding_box_ext. intros r. rewrite Hset, in_app_iff.
        cbn [In]. split.
        - intros [H|[H|[]]]; auto.
        - intros [H|H]; auto. }
      assert (Hw1' : forall m, 0 < m <= sv + 1 ->
                exists w, cell g2 w = m /\ forall r, cell g2 r = m -> connected c w r).
      { intros m Hm. destruct (Z.eq_dec m (sv + 1)) as [->|Hne].
        - exists q. split; [apply Hset; now left|exact Hcon].
        - destruct (Hw1 m) as (w & Hwm & Hwc); [lia|]. exists w.
          split; [apply Hold; [lia|exact Hwm]|].
          intros r Hr. apply Hwc. apply Hold in Hr; [exact Hr|lia]. }
      destruct wn.
      * rewrite Hline. cbn [bind].
        eexists _, _, _, _. split; [reflexivity|]. split; [reflexivity|].
        split; [exact Hinv1|]. split; [exact Hw1'|].
        destruct Hw2 as [Hlen2 Hw2]. split; [rewrite length_app; simpl; lia|].
        intros m Hm. destruct (Z.eq_dec m (sv + 1)) as [->|Hne].
        -- exists line. split; [|exact Hbox'].
           rewrite nth_error_app2 by lia.
           replace (Z.to_nat (sv + 1 - 1) - length file)%nat with 0%nat by lia.
           reflexivity.
        -- destruct (Hw2 m) as (line' & Hn & Hb'); [lia|]. exists line'. split.
           ++ rewrite nth_error_app1 by lia. exact Hn.
           ++ revert Hb'. apply bounding_box_ext. intros r. symmetry.
              apply Hold. lia.
      * cbn [bind]. eexists _, _, _, _. split; [reflexivity|]. split; [reflexivity|].
        split; [exact Hinv1|]. split; [exact Hw1'|exact Hw2].
  - intros Hv. injection Hv as <-. exists sv, g, printed, file. auto.
Qed.

(** The scan with the file: it returns what [label_structures] returns,
    and the invariants hold of all cells. *)
Lemma label_structures_writing_inv (wn : bool) :
  Z.of_nat (cells xlen ylen zlen) < 2 ^ 32 ->
  exists sv g printed file,
    label_structures_writing outliers fuel mc c xlen ylen zlen wn
      = Ok (sv, g, printed, file) /\
    label_structures outliers fuel mc c xlen ylen zlen = Ok (sv, g, printed) /\
    scan_inv c xlen ylen zlen mc (coords (xlen + 1, ylen + 1, zlen + 1))
             (sv, g, printed) /\
    writing_inv wn sv g file.
Proof.
  intros Hsize. unfold label_structures_writing, label_structures.
  destruct (for_each_prefix_inv
              (fun pre st =>
                 let '(sv, g, printed, file) := st in
                 for_each pre (visit outliers fuel mc c)
                          (0, full (xlen + 1, ylen + 1, zlen + 1) 0, [])
                   = Ok (sv, g, printed) /\
                 scan_inv c xlen ylen zlen mc pre (sv, g, printed) /\
                 writing_inv wn sv g file)
              (visit_writing outliers fuel mc c wn)
              (coords (xlen + 1, ylen + 1, zlen + 1))
              (0, full (xlen + 1, ylen + 1, zlen + 1) 0, [], []))
    as ([[[sv g] printed] file] & Hrun & Hv & Hinv & Hw).
  - intros pre x post [[[sv g] printed] file] E (Hv & Hinv & Hw).
    destruct (visit_writing_inv wn pre x sv g printed file Hinv Hw)
      as (sv' & g' & printed' & file' & Hvw & Hv' & Hinv' & Hw').
    + apply coords_In. rewrite E. apply in_app_iff. right. now left.
    + unfold cells in Hsize. rewrite E, length_app in Hsize. simpl in Hsize. lia.
    + exists (sv', g', printed', file'). split; [exact Hvw|].
      split; [|split; [exact Hinv'|exact Hw']].
      rewrite for_each_app, Hv. cbn [bind for_each]. rewrite Hv'. reflexivity.
  - split; [reflexivity|]. split.
    + unfold scan_inv. repeat split; simpl; try lia; try reflexivity; try discriminate.
    + split; [intros m Hm; lia|]. destruct wn; [|reflexivity].
      split; [reflexivity|]. intros m Hm. lia.
  - exists sv, g, printed, file. auto.
Qed.

End Writing.

(** X5.  The labeler returns, with the resolver off, or on with a table
    that names linked corners only, and two cells that carry the same
    positive identifier are joined by a path of 26-connected occupied
    cells (each differing from the next by at most one on every axis): a
    structure never spans two components. *)
Theorem structures_are_connected
  (outliers : Z -> list (list Z)) (mc : bool) (c : ndarray bool)
  (xlen ylen zlen : Z) (fuel : nat) :
  0 <= xlen -> 0 <= ylen -> 0 <= zlen ->
  padded c xlen ylen zlen ->
  mc = false \/ table_wf outliers ->
  (xlen + 1) * (ylen + 1) * (zlen + 1) < 2 ^ 32 ->
  (Z.to_nat ((xlen + 1) * (ylen + 1) * (zlen + 1)) + 2 <= fuel)%nat ->
  exists sv g printed,
    label_structures outliers fuel mc c xlen ylen zlen = Ok (sv, g, printed) /\
    forall p q, 0 < cell g p -> cell g p = cell g q -> connected26 c p q.
Proof.
  intros Hx Hy Hz Hpad Hmode Hsize Hfuel.
  assert (Hfuel' : (cells xlen ylen zlen + 2 <= fuel)%nat)
    by (rewrite cells_size by lia; exact Hfuel).
  assert (Hsize' : Z.of_nat (cells xlen ylen zlen) < 2 ^ 32)
    by (rewrite cells_size by lia; lia).
  destruct (label_structures_writing_inv c xlen ylen zlen Hx Hy Hz Hpad outliers mc
              Hmode fuel Hfuel' false Hsize')
    as (sv & g & printed & file & _ & Hrun & Hinv & Hw & _).
  destruct Hinv as (_ & _ & Hb & _).
  exists sv, g, printed. split; [exact Hrun|].
  intros p q Hp E. apply connected26_checked.
  destruct (Hw (cell g p)) as (w & Hwm & Hwc).
  - pose proof (Hb p). lia.
  - apply (connected_trans c p w q).
    + apply connected_sym. now apply Hwc.
    + apply Hwc. now symmetry.
Qed.

Lemma structures_are_connected_witness :
  exists sv g printed,
    label_structures diagonal_outliers 29 true diagonal_pair 2 2 2 = Ok (sv, g, printed) /\
    forall p q, 0 < cell g p -> cell g p = cell g q -> connected26 diagonal_pair p q.
Proof.
  apply (structures_are_connected diagonal_outliers true diagonal_pair 2 2 2 29);
    try lia.
  - apply pad_padded. reflexivity.
  - right. exact diagonal_outliers_wf.
Defined.

(** X16.  With the resolver off the structures are exactly the
    26-connected components of the occupied cells: the labeler returns,
    and two cells are joined by a path of 26-connected occupied cells if
    and only if they carry the same positive identifier. *)
Theorem plain_structures_are_the_components
  (outliers : Z -> list (list Z)) (c : ndarray bool) (xlen ylen zlen : Z) (fuel : nat) :
  0 <= xlen -> 0 <= ylen -> 0 <= zlen ->
  padded c xlen ylen zlen ->
  (xlen + 1) * (ylen + 1) * (zlen + 1) < 2 ^ 32 ->
  (Z.to_nat ((xlen + 1) * (ylen + 1) * (zlen + 1)) + 2 <= fuel)%nat ->
  exists sv g printed,
    label_structures outliers fuel false c xlen ylen zlen = Ok (sv, g, printed) /\
    forall p q, connected26 c p q <-> 0 < cell g p /\ cell g p = cell g q.
Proof.
  intros Hx Hy Hz Hpad Hsize Hfuel.
  assert (Hfuel' : (cells xlen ylen zlen + 2 <= fuel)%nat)
    by (rewrite cells_size by lia; exact Hfuel).
  assert (Hsize' : Z.of_nat (cells xlen ylen zlen) < 2 ^ 32)
    by (rewrite cells_size by lia; lia).
  destruct (label_structures_writing_inv c xlen ylen zlen Hx Hy Hz Hpad outliers false
              (or_introl eq_refl) fuel Hfuel' false Hsize')
    as (sv & g & printed & file & _ & Hrun & Hinv & Hw & _).
  destruct Hinv as (_ & _ & Hb & _ & Hpre & _ & _ & _ & Hcl).
  assert (Hpos : forall r, cell c r = true -> 0 < cell g r).
  { intros r Hr. apply Hpre; [|exact Hr]. apply coords_In.
    apply (inner_in_shape xlen ylen zlen). now apply Hpad. }
  exists sv, g, printed. split; [exact Hrun|].
  intros p q. rewrite connected26_checked. split.
  - intros Hpq. induction Hpq as [p Hp|p d q Hp Hd Hpq [IH1 IH2]].
    + split; [now apply Hpos|reflexivity].
    + split; [now apply Hpos|].
      rewrite <- IH2. symmetry.
      apply (Hcl eq_refl); auto; now apply connected_occupied in Hpq.
  - intros [Hp E]. destruct (Hw (cell g p)) as (w & Hwm & Hwc).
    + pose proof (Hb p). lia.
    + apply (connected_trans c p w q).
      * apply connected_sym. now apply Hwc.
      * apply Hwc. now symmetry.
Qed.

Lemma plain_structures_are_the_components_witness :
  exists sv g printed,
    label_structures no_outliers 29 false diagonal_pair 2 2 2 = Ok (sv, g, printed) /\
    forall p q, connected26 diagonal_pair p q <-> 0 < cell g p /\ cell g p = cell g q.
Proof.
  apply (plain_structures_are_the_components no_outliers diagonal_pair 2 2 2 29);
    try lia.
  apply pad_padded. reflexivity.
Defined.

(** X6.  With [_writeNeighborInformation] the scan returns the same
    identifier count, grid and printed values as without it, and writes
    one line per structure, in the order of the identifiers; line [m]
    holds the identifier [m] and, per axis, the smallest and the largest
    coordinate among the cells that carry [m] in the final grid: the
    intervals hold every cell of the structure and each of their six ends
    is reached by one of its cells.  Without the flag nothing is
    written. *)
Theorem neighbor_information_lines_are_bounding_boxes
  (outliers : Z -> list (list Z)) (mc : bool) (c : ndarray bool)
  (xlen ylen zlen : Z) (fuel : nat) :
  0 <= xlen -> 0 <= ylen -> 0 <= zlen ->
  padded c xlen ylen zlen ->
  mc = false \/ table_wf outliers ->
  (xlen + 1) * (ylen + 1) * (zlen + 1) < 2 ^ 32 ->
  (Z.to_nat ((xlen + 1) * (ylen + 1) * (zlen + 1)) + 2 <= fuel)%nat ->
  exists sv g printed file,
    label_structures_writing outliers fuel mc c xlen ylen zlen true
      = Ok (sv, g, printed, file) /\
    label_structures_writing outliers fuel mc c xlen ylen zlen false
      = Ok (sv, g, printed, []) /\
    label_structures outliers fuel mc c xlen ylen zlen = Ok (sv, g, printed) /\
    length file = Z.to_nat sv /\
    forall m, 0 < m <= sv ->
      exists line, nth_error file (Z.to_nat (m - 1)) = Some line /\
                   bounding_box m (fun r => cell g r = m) line.
Proof.
  intros Hx Hy Hz Hpad Hmode Hsize Hfuel.
  assert (Hfuel' : (cells xlen ylen zlen + 2 <= fuel)%nat)
    by (rewrite cells_size by lia; exact Hfuel).
  assert (Hsize' : Z.of_nat (cells xlen ylen zlen) < 2 ^ 32)
    by (rewrite cells_size by lia; lia).
  destruct (label_structures_writing_inv c xlen ylen zlen Hx Hy Hz Hpad outliers mc
              Hmode fuel Hfuel' true Hsize')
    as (sv & g & printed & file & Hrun & Hlab & _ & _ & Hlen & Hbox).
  destruct (label_structures_writing_inv c xlen ylen zlen Hx Hy Hz Hpad outliers mc
              Hmode fuel Hfuel' false Hsize')
    as (sv' & g' & printed' & file' & Hrun' & Hlab' & _ & _ & Hnone).
  rewrite Hlab in Hlab'. injection Hlab' as <- <- <-. cbv beta iota in Hnone.
  subst file'. exists sv, g, printed, file. auto.
Qed.

Lemma neighbor_information_lines_are_bounding_boxes_witness :
  exists sv g printed file,
    label_structures_writing diagonal_outliers 29 true diagonal_pair 2 2 2 true
      = Ok (sv, g, printed, file) /\
    label_structures_writing diagonal_outliers 29 true diagonal_pair 2 2 2 false
      = Ok (sv, g, printed, []) /\
    label_structures diagonal_outliers 29 true diagonal_pair 2 2 2 = Ok (sv, g, printed) /\
    length file = Z.to_nat sv /\
    forall m, 0 < m <= sv ->
      exists line, nth_error file (Z.to_nat (m - 1)) = Some line /\
                   bounding_box m (fun r => cell g r = m) line.
Proof.
  apply (neighbor_information_lines_are_bounding_boxes
           diagonal_outliers true diagonal_pair 2 2 2 29); try lia.
  - apply pad_padded. reflexivity.
  - right. exact diagonal_outliers_wf.
Defined.

(** The file for [diagonal_pair]: one box over both cells without the
    table, one box per cell with it. *)
Example diagonal_pair_boxes :
  match label_structures_writing no_outliers 29 false diagonal_pair 2 2 2 true with
  | Ok (_, _, _, file) => file = [(1, (0, 1), (0, 1), (0, 1))]
  | _ => False
  end /\
  match label_structures_writing diagonal_outliers 29 true diagonal_pair 2 2 2 true with
  | Ok (_, _, _, file) =>
      file = [(1, (0, 0), (0, 0), (0, 0)); (2, (1, 1), (1, 1), (1, 1))]
  | _ => False
  end.
Proof. vm_compute. auto. Qed.

(* ================================================================== *)
(** * Further properties: the percolation statistics *)

(** ** [countsall.sort()] and [countsall[::-1]] *)

Lemma insert_sorted_perm (v : Z) (l : list Z) : Permutation (insert_sorted v l) (v :: l).
Proof.
  induction l as [|w l IH]; cbn [insert_sorted]; [reflexivity|].
  destruct (v <=? w); [reflexivity|].
  rewrite IH. apply perm_swap.
Qed.

Lemma sort_perm (l : list Z) : Permutation (sort l) l.
Proof.
  induction l as [|v l IH]; cbn [sort fold_right]; [reflexivity|].
  fold (sort l). rewrite insert_sorted_perm. now constructor.
Qed.

Lemma insert_sorted_sorted (v : Z) (l : list Z) :
  StronglySorted Z.le l -> StronglySorted Z.le (insert_sorted v l).
Proof.
  induction 1 as [|w l Hs IH Hall]; cbn [insert_sorted].
  - repeat constructor.
  - destruct (Z.leb_spec v w) as [Hle|Hgt].
    + constructor; [now constructor|]. constructor; [exact Hle|].
      rewrite Forall_forall in *. intros y Hy. specialize (Hall y Hy). lia.
    + constructor; [exact IH|]. rewrite Forall_forall in *. intros y Hy.
      apply (Permutation_in _ (insert_sorted_perm v l)) in Hy.
      destruct Hy as [<-|Hy]; [lia|now apply Hall].
Qed.

Lemma sort_sorted (l : list Z) : StronglySorted Z.le (sort l).
Proof.
  induction l as [|v l IH]; cbn [sort fold_right]; [constructor|].
  now apply insert_sorted_sorted.
Qed.

Lemma sorted_snoc (l : list Z) (x : Z) :
  StronglySorted (fun a b => b <= a) l -> (forall y, In y l -> x <= y) ->
  StronglySorted (fun a b => b <= a) (l ++ [x]).
Proof.
  induction 1 as [|w l Hs IH Hall]; intros Hx; cbn [app].
  - repeat constructor.
  - constructor.
    + apply IH. intros y Hy. apply Hx. now right.
    + rewrite Forall_forall in *. intros y Hy. apply in_app_iff in Hy.
      destruct Hy as [Hy|[<-|[]]]; [now apply Hall|]. apply Hx. now left.
Qed.

Lemma sorted_rev (l : list Z) :
  StronglySorted Z.le l -> StronglySorted (fun a b => b <= a) (rev l).
Proof.
  induction 1 as [|w l Hs IH Hall]; cbn [rev]; [constructor|].
  apply sorted_snoc; [exact IH|]. intros y Hy. apply in_rev in Hy.
  rewrite Forall_forall in Hall. now apply Hall.
Qed.

Lemma sum_perm (l l' : list Z) : Permutation l l' -> sum l = sum l'.
Proof.
  induction 1 as [|x l l' _ IH|x y l|l l' l'' _ IH1 _ IH2];
    [reflexivity|rewrite !sum_cons; lia|rewrite !sum_cons; lia|lia].
Qed.

(** The counts in decreasing order, as lines 908 and 910 read them. *)
Definition descending (labels : list Z) : list Z :=
  rev (sort (map snd (np_unique labels))).

Lemma descending_perm (labels : list Z) :
  Permutation (descending labels) (map snd (np_unique labels)).
Proof.
  unfold descending. rewrite <- Permutation_rev. apply sort_perm.
Qed.

Lemma descending_sorted (labels : list Z) :
  StronglySorted (fun a b => b <= a) (descending labels).
Proof. apply sorted_rev, sort_sorted. Qed.

Lemma statistics_descending (labels : list Z) :
  statistics labels =
  match descending labels with
  | M :: V :: rest => Ok (V, sum (V :: rest))
  | _ => Raise IndexError
  end.
Proof.
  unfold statistics. fold (descending labels).
  rewrite list_get_nth by lia.
  destruct (descending labels) as [|M [|V rest]]; reflexivity.
Qed.

(** ** The entries of [np.unique] *)

Lemma counted_entry (v n : Z) (u : list (Z * Z)) :
  StronglySorted (fun x y => fst x < fst y) u -> In (v, n) u ->
  counted (Z.eqb v) u = n.
Proof.
  induction 1 as [|[w m] u Hs IH Hall]; [intros []|].
  rewrite counted_cons. rewrite Forall_forall in Hall. intros [E|Hin].
  - injection E as -> ->. rewrite Z.eqb_refl.
    assert (H0 : counted (Z.eqb v) u = 0).
    { clear IH Hs. induction u as [|[w' m'] u IHu]; [reflexivity|].
      rewrite counted_cons, IHu by (intros y Hy; apply Hall; now right).
      specialize (Hall (w', m') (or_introl eq_refl)). cbn [fst] in Hall.
      replace (v =? w') with false by (symmetry; apply Z.eqb_neq; lia). lia. }
    lia.
  - specialize (Hall _ Hin). cbn [fst] in Hall.
    replace (v =? w) with false by (symmetry; apply Z.eqb_neq; lia).
    rewrite (IH Hin). lia.
Qed.

Lemma counted_positive (v : Z) (u : list (Z * Z)) :
  0 < counted (Z.eqb v) u -> exists n, In (v, n) u.
Proof.
  induction u as [|[w m] u IH]; [unfold counted, sum; simpl; lia|].
  rewrite counted_cons. destruct (Z.eqb_spec v w) as [->|Hne].
  - intros _. exists m. now left.
  - intros H. destruct IH as [n Hn]; [lia|]. exists n. now right.
Qed.

Lemma tally_pos (v : Z) (u : list (Z * Z)) :
  (forall y, In y u -> 0 < snd y) -> forall y, In y (tally v u) -> 0 < snd y.
Proof.
  induction u as [|[w n] u IH]; intros Hu y; cbn [tally].
  - intros [<-|[]]. simpl. lia.
  - destruct (v =? w).
    + intros [<-|H]; [|apply Hu; now right].
      specialize (Hu (w, n) (or_introl eq_refl)). simpl in *. lia.
    + destruct (v <? w).
      * intros [<-|H]; [simpl; lia|now apply Hu].
      * intros [<-|H]; [apply Hu; now left|].
        apply IH; [|exact H]. intros y' Hy'. apply Hu. now right.
Qed.

Lemma np_unique_pos (l : list Z) (y : Z * Z) : In y (np_unique l) -> 0 < snd y.
Proof.
  unfold np_unique.
  assert (H : forall u, (forall y, In y u -> 0 < snd y) ->
            forall y, In y (fold_left (fun u' v => tally v u') l u) -> 0 < snd y).
  { induction l as [|v l IH]; intros u Hu; cbn [fold_left]; [exact Hu|].
    apply IH. now apply tally_pos. }
  apply H. intros y' [].
Qed.

Lemma count_label_In (v : Z) (l : list Z) : 0 < count_label v l <-> In v l.
Proof.
  unfold count_label. split.
  - intros H. destruct (filter (Z.eqb v) l) as [|x f] eqn:E; [simpl in H; lia|].
    assert (Hx : In x (filter (Z.eqb v) l)) by (rewrite E; now left).
    apply filter_In in Hx. destruct Hx as [Hx Ev]. apply Z.eqb_eq in Ev. now subst.
  - intros H. assert (Hv : In v (filter (Z.eqb v) l))
      by (apply filter_In; split; [exact H|apply Z.eqb_refl]).
    destruct (filter (Z.eqb v) l); [contradiction|]. simpl. lia.
Qed.

(** [np.unique] lists a value exactly when it occurs, with the number of
    its occurrences. *)
Lemma np_unique_entries (l : list Z) (v n : Z) :
  In (v, n) (np_unique l) <-> In v l /\ n = count_label v l.
Proof.
  pose proof (counted_np_unique (Z.eqb v) l) as Hc. fold (count_label v l) in Hc.
  split.
  - intros Hin. pose proof (counted_entry v n _ (np_unique_sorted l) Hin) as E.
    pose proof (np_unique_pos l _ Hin) as Hpos. cbn [snd] in Hpos.
    split; [apply count_label_In; lia|lia].
  - intros [Hin ->]. apply count_label_In in Hin.
    destruct (counted_positive v (np_unique l)) as [n Hn]; [lia|].
    pose proof (counted_entry v n _ (np_unique_sorted l) Hn). now replace (count_label v l) with n by lia.
Qed.

Lemma descending_In (l : list Z) (x : Z) :
  In x (descending l) <-> exists v, In v l /\ x = count_label v l.
Proof.
  split.
  - intros H. apply (Permutation_in _ (descending_perm l)) in H.
    apply in_map_iff in H. destruct H as ([v n] & <- & H).
    apply np_unique_entries in H. exists v. exact H.
  - intros (v & Hv & ->).
    apply (Permutation_in _ (Permutation_sym (descending_perm l))).
    apply in_map_iff. exists (v, count_label v l). split; [reflexivity|].
    now apply np_unique_entries.
Qed.

Lemma count_label_nonneg (v : Z) (l : list Z) : 0 <= count_label v l.
Proof. unfold count_label. lia. Qed.

Lemma filter_all {A : Type} (f : A -> bool) (l : list A) :
  (forall x, In x l -> f x = true) -> filter f l = l.
Proof.
  induction l as [|x l IH]; intros H; cbn [filter]; [reflexivity|].
  rewrite (H x (or_introl eq_refl)), IH; [reflexivity|].
  intros y Hy. apply H. now right.
Qed.

Lemma sum_counts (l : list Z) : sum (map snd (np_unique l)) = Z.of_nat (length l).
Proof.
  pose proof (counted_np_unique (fun _ => true) l) as H. unfold counted in H.
  rewrite !filter_all in H by reflexivity. exact H.
Qed.

(** X7.  [Vmax] and [Vall] are read off the counts of all labels, sorted:
    the statistics return exactly when the grid holds two different labels
    (otherwise line 908 raises IndexError: an all-empty grid, and also a
    grid filled by one structure), and then [Vall] is the number of cells
    minus the largest count, whichever label has it, and [Vmax] is a count
    that is not larger than that one. *)
Theorem statistics_return_iff_two_labels (labels : list Z) :
  ((forall a b, In a labels -> In b labels -> a = b) /\
   statistics labels = Raise IndexError) \/
  ((exists a b, In a labels /\ In b labels /\ a < b) /\
   exists Vmax Vall M,
     statistics labels = Ok (Vmax, Vall) /\
     (forall v, count_label v labels <= M) /\
     (exists v, In v labels /\ count_label v labels = M) /\
     Vall = Z.of_nat (length labels) - M /\
     0 < Vmax <= M).
Proof.
  rewrite statistics_descending.
  pose proof (descending_perm labels) as HP.
  pose proof (descending_sorted labels) as HS.
  pose proof (np_unique_sorted labels) as HU.
  pose proof (sum_counts labels) as Hsum.
  pose proof (descending_In labels) as HD.
  pose proof (np_unique_entries labels) as HE.
  assert (Hone : (length (np_unique labels) <= 1)%nat ->
                 forall a b, In a labels -> In b labels -> a = b).
  { intros Hlen a b Ha Hb.
    pose proof (proj2 (HE a _) (conj Ha eq_refl)) as Ia.
    pose proof (proj2 (HE b _) (conj Hb eq_refl)) as Ib.
    destruct (np_unique labels) as [|e [|e' u]]; [contradiction| |simpl in Hlen; lia].
    destruct Ia as [Ea|[]], Ib as [Eb|[]]. congruence. }
  rewrite <- (length_map snd), <- (Permutation_length HP) in Hone.
  destruct (descending labels) as [|M [|V rest]] eqn:ED.
  - left. split; [apply Hone; simpl; lia|reflexivity].
  - left. split; [apply Hone; simpl; lia|reflexivity].
  - right. split.
    + apply Permutation_length in HP. rewrite length_map in HP.
      destruct (np_unique labels) as [|[a n] [|[b m] u]] eqn:EU;
        try (simpl in HP; lia).
      exists a, b.
      split; [apply (HE a n); now left|].
      split; [apply (HE b m); right; now left|].
      inversion HU as [|? ? _ Hall]; subst. rewrite Forall_forall in Hall.
      exact (Hall (b, m) (or_introl eq_refl)).
    + inversion HS as [|? ? HS' Hall]; subst. rewrite Forall_forall in Hall.
      assert (HMpos : 0 < M).
      { destruct (proj1 (HD M) (or_introl eq_refl)) as (v & Hv & ->).
        now apply count_label_In. }
      exists V, (sum (V :: rest)), M. split; [reflexivity|]. split; [|split; [|split]].
      * intros v. destruct (in_dec Z.eq_dec v labels) as [Hv|Hv].
        -- assert (Hin : In (count_label v labels) (M :: V :: rest))
             by (apply HD; eauto).
           destruct Hin as [<-|Hin]; [lia|now apply Hall].
        -- pose proof (count_label_nonneg v labels).
           pose proof (count_label_In v labels). 
           assert (~ 0 < count_label v labels) by tauto. lia.
      * destruct (proj1 (HD M) (or_introl eq_refl)) as (v & Hv & E). eauto.
      * apply sum_perm in HP. rewrite Hsum, sum_cons in HP. lia.
      * split; [|apply Hall; now left].
        destruct (proj1 (HD V) (or_intror (or_introl eq_refl))) as (v & Hv & ->).
        now apply count_label_In.
Qed.

(** X8.  When no structure is larger than the background (label 0 has the
    largest count) and there is a structure, the statistics are the ones
    the design describes: [Vall] is the number of cells with a positive
    label and [Vmax] is the largest number of cells that one positive
    label has. *)
Theorem statistics_with_dominant_background (labels : list Z) :
  (forall v, In v labels -> 0 <= v) ->
  (forall v, count_label v labels <= count_label 0 labels) ->
  (exists v, In v labels /\ 0 < v) ->
  exists Vmax Vall,
    statistics labels = Ok (Vmax, Vall) /\
    Vall = Z.of_nat (length (filter (Z.ltb 0) labels)) /\
    (forall v, 0 < v -> count_label v labels <= Vmax) /\
    (exists v, 0 < v /\ In v labels /\ count_label v labels = Vmax).
Proof.
  intros Hnn Hdom (v1 & Hv1 & Hv1pos).
  pose proof (np_unique_entries labels) as HE.
  assert (H0 : In 0 labels).
  { apply count_label_In. apply count_label_In in Hv1. specialize (Hdom v1). lia. }
  assert (HU : exists U', np_unique labels = (0, count_label 0 labels) :: U' /\
                          forall y, In y U' -> 0 < fst y).
  { pose proof (np_unique_sorted labels) as Hs.
    pose proof (proj2 (HE 0 _) (conj H0 eq_refl)) as Hin.
    destruct (np_unique labels) as [|[w n] U'] eqn:EU; [contradiction|].
    inversion Hs as [|? ? Hs' Hall]; subst. rewrite Forall_forall in Hall.
    destruct Hin as [E|Hin].
    - injection E as -> ->. exists U'. split; [reflexivity|].
      intros y Hy. exact (Hall y Hy).
    - exfalso. specialize (Hall _ Hin). cbn [fst] in Hall.
      assert (Hw : In w labels) by (apply (HE w n); now left).
      specialize (Hnn w Hw). lia. }
  destruct HU as (U' & EU & HU').
  assert (HU'' : forall v n, In (v, n) U' -> 0 < v /\ In v labels /\ n = count_label v labels).
  { intros v n Hin. split; [exact (HU' _ Hin)|]. apply HE. rewrite EU. now right. }
  pose proof (descending_perm labels) as HP. rewrite EU in HP. cbn [map snd] in HP.
  pose proof (descending_sorted labels) as HS.
  rewrite statistics_descending.
  destruct (descending labels) as [|M D'] eqn:ED.
  - apply Permutation_nil in HP. discriminate.
  - inversion HS as [|? ? HS' Hall]; subst. rewrite Forall_forall in Hall.
    assert (HM : M = count_label 0 labels).
    { assert (Hle : M <= count_label 0 labels).
      { assert (Hin : In M (count_label 0 labels :: map snd U'))
          by (apply (Permutation_in _ HP); now left).
        destruct Hin as [<-|Hin]; [lia|].
        apply in_map_iff in Hin. destruct Hin as ([v n] & <- & Hin).
        destruct (HU'' v n Hin) as (_ & _ & ->). apply Hdom. }
      assert (Hge : In (count_label 0 labels) (M :: D'))
        by (apply (Permutation_in _ (Permutation_sym HP)); now left).
      destruct Hge as [->|Hge]; [reflexivity|]. specialize (Hall _ Hge). lia. }
    rewrite HM in HP. apply Permutation_cons_inv in HP.
    assert (Hne : In (v1, count_label v1 labels) U').
    { assert (Hin : In (v1, count_label v1 labels) (np_unique labels))
        by (apply HE; auto).
      rewrite EU in Hin. destruct Hin as [E|Hin]; [|exact Hin].
      injection E as E _. lia. }
    destruct D' as [|V rest].
    { apply Permutation_nil in HP. destruct U'; [contradiction|discriminate]. }
    exists V, (sum (V :: rest)). split; [reflexivity|]. split; [|split].
    + rewrite (sum_perm _ _ HP).
      rewrite <- (counted_np_unique (Z.ltb 0) labels), EU, counted_cons.
      replace (0 <? 0) with false by reflexivity. unfold counted.
      rewrite filter_all; [lia|].
      intros [v n] Hin. cbn [fst]. apply Z.ltb_lt. exact (HU' _ Hin).
    + intros v Hv. inversion HS' as [|? ? _ Hall']; subst.
      rewrite Forall_forall in Hall'.
      destruct (in_dec Z.eq_dec v labels) as [Hin|Hin].
      * assert (Hu : In (v, count_label v labels) U').
        { assert (Hin' : In (v, count_label v labels) (np_unique labels))
            by (apply HE; auto).
          rewrite EU in Hin'. destruct Hin' as [E|Hin']; [|exact Hin'].
          injection E as E _. lia. }
        assert (Hd : In (count_label v labels) (V :: rest)).
        { apply (Permutation_in _ (Permutation_sym HP)).
          apply in_map_iff. exists (v, count_label v labels). auto. }
        destruct Hd as [<-|Hd]; [lia|now apply Hall'].
      * pose proof (count_label_nonneg v labels).
        pose proof (count_label_In v labels).
        assert (~ 0 < count_label v labels) by tauto.
        assert (HV : In V (map snd U')) by (apply (Permutation_in _ HP); now left).
        apply in_map_iff in HV. destruct HV as ([v' n'] & <- & HV).
        destruct (HU'' v' n' HV) as (_ & Hv' & ->). apply count_label_In in Hv'.
        cbn [snd]. lia.
    + assert (HV : In V (map snd U')) by (apply (Permutation_in _ HP); now left).
      apply in_map_iff in HV. destruct HV as ([v n] & <- & HV).
      destruct (HU'' v n HV) as (Hv & Hin & ->). exists v. auto.
Qed.

Lemma statistics_with_dominant_background_witness :
  exists Vmax Vall,
    statistics [0; 2; 1; 0; 2; 0] = Ok (Vmax, Vall) /\
    Vall = Z.of_nat (length (filter (Z.ltb 0) [0; 2; 1; 0; 2; 0])) /\
    (forall v, 0 < v -> count_label v [0; 2; 1; 0; 2; 0] <= Vmax) /\
    (exists v, 0 < v /\ In v [0; 2; 1; 0; 2; 0] /\ count_label v [0; 2; 1; 0; 2; 0] = Vmax).
Proof.
  apply (statistics_with_dominant_background [0; 2; 1; 0; 2; 0]).
  - simpl. intros v H. lia.
  - intros v. unfold count_label. cbn [filter].
    destruct (Z.eqb_spec v 0), (Z.eqb_spec v 1), (Z.eqb_spec v 2); simpl; lia.
  - exists 2. simpl. split; [tauto|lia].
Defined.

(* ================================================================== *)
(** * Further properties: a run on one threshold, end to end *)

Lemma nth_error_flat_map {A B : Type} (f : A -> list B) (m : nat) (l : list A)
  (a b : nat) :
  (forall x, length (f x) = m) -> (b < m)%nat ->
  nth_error (flat_map f l) (a * m + b)
  = match nth_error l a with
    | Some x => nth_error (f x) b
    | None => None
    end.
Proof.
  intros Hf Hb. revert a. induction l as [|x l IH]; intros a; cbn [flat_map].
  - rewrite !nth_error_nil. reflexivity.
  - destruct a as [|a].
    + simpl. rewrite nth_error_app1 by (rewrite Hf; exact Hb). reflexivity.
    + rewrite nth_error_app2 by (rewrite Hf; simpl; lia).
      rewrite Hf. replace (S a * m + b - m)%nat with (a * m + b)%nat by (simpl; lia).
      apply IH.
Qed.

Lemma range_nth (n i : Z) : 0 <= i < n -> nth_error (range n) (Z.to_nat i) = Some i.
Proof.
  intros Hi. unfold range. rewrite nth_error_map.
  rewrite (nth_error_nth' _ 0%nat) by (rewrite length_seq; lia).
  rewrite seq_nth by lia. simpl. f_equal. lia.
Qed.

(** [ravel()] lists cell [(i, j, k)] at its C-order position. *)
Lemma coords_nth (xlen ylen zlen i j k : Z) :
  0 <= i < xlen -> 0 <= j < ylen -> 0 <= k < zlen ->
  nth_error (coords (xlen, ylen, zlen))
            (Z.to_nat (flat_index true (xlen, ylen, zlen) (i, j, k)))
  = Some (i, j, k).
Proof.
  intros Hi Hj Hk. unfold flat_index, coords.
  replace (Z.to_nat ((i * ylen + j) * zlen + k))
    with (Z.to_nat i * (Z.to_nat ylen * Z.to_nat zlen)
          + (Z.to_nat j * Z.to_nat zlen + Z.to_nat k))%nat by nia.
  rewrite (nth_error_flat_map _ (Z.to_nat ylen * Z.to_nat zlen)).
  - rewrite range_nth by lia.
    rewrite (nth_error_flat_map _ (Z.to_nat zlen)).
    + rewrite range_nth by lia. rewrite nth_error_map, range_nth by lia. reflexivity.
    + intros y. now rewrite length_map, range_length.
    + lia.
  - intros x. rewrite (flat_map_length_const _ (Z.to_nat zlen)).
    + now rewrite range_length.
    + intros y. now rewrite length_map, range_length.
  - nia.
Qed.

(** Every position of the flat field is the position of a cell. *)
Lemma flat_index_onto (zf : bool) (xlen ylen zlen n : Z) :
  0 <= xlen -> 0 <= ylen -> 0 <= zlen ->
  0 <= n < xlen * ylen * zlen ->
  exists i j k, 0 <= i < xlen /\ 0 <= j < ylen /\ 0 <= k < zlen /\
                flat_index zf (xlen, ylen, zlen) (i, j, k) = n.
Proof.
  intros Hx0 Hy0 Hz0 Hn.
  assert (Hx : 0 < xlen) by nia. assert (Hy : 0 < ylen) by nia.
  assert (Hz : 0 < zlen) by nia.
  unfold flat_index. destruct zf.
  - exists (n / zlen / ylen), ((n / zlen) mod ylen), (n mod zlen).
    pose proof (Z.mod_pos_bound n zlen Hz).
    pose proof (Z.mod_pos_bound (n / zlen) ylen Hy).
    pose proof (Z.div_mod n zlen ltac:(lia)) as E1.
    pose proof (Z.div_mod (n / zlen) ylen ltac:(lia)) as E2.
    assert (0 <= n / zlen) by (apply Z.div_pos; lia).
    assert (0 <= n / zlen / ylen) by (apply Z.div_pos; lia).
    assert (n / zlen < xlen * ylen) by (apply Z.div_lt_upper_bound; nia).
    assert (n / zlen / ylen < xlen) by (apply Z.div_lt_upper_bound; nia).
    repeat split; try lia; nia.
  - exists (n mod xlen), ((n / xlen) mod ylen), (n / xlen / ylen).
    pose proof (Z.mod_pos_bound n xlen Hx).
    pose proof (Z.mod_pos_bound (n / xlen) ylen Hy).
    pose proof (Z.div_mod n xlen ltac:(lia)) as E1.
    pose proof (Z.div_mod (n / xlen) ylen ltac:(lia)) as E2.
    assert (0 <= n / xlen) by (apply Z.div_pos; lia).
    assert (0 <= n / xlen / ylen) by (apply Z.div_pos; lia).
    assert (n / xlen < ylen * zlen) by (apply Z.div_lt_upper_bound; nia).
    assert (n / xlen / ylen < zlen) by (apply Z.div_lt_upper_bound; nia).
    repeat split; try lia; nia.
Qed.

Lemma statistics_two_labels (labels : list Z) (a b : Z) :
  In a labels -> In b labels -> a < b -> exists r, statistics labels = Ok r.
Proof.
  intros Ha Hb Hab. rewrite statistics_descending.
  pose proof (Permutation_length (descending_perm labels)) as Hlen.
  rewrite length_map in Hlen.
  pose proof (proj2 (np_unique_entries labels a _) (conj Ha eq_refl)) as Ia.
  pose proof (proj2 (np_unique_entries labels b _) (conj Hb eq_refl)) as Ib.
  destruct (np_unique labels) as [|e [|e' u]]; [contradiction| |].
  - destruct Ia as [Ea|[]], Ib as [Eb|[]]. rewrite Ea in Eb.
    injection Eb as Eb _. lia.
  - destruct (descending labels) as [|M [|V rest]]; try discriminate. eauto.
Qed.

(** X9.  A run on one threshold, from the flat field to the returned
    grid.  When the field has the announced size, the padded grid fits the
    32-bit labels, the loop has budget, and the threshold leaves at least
    one cell occupied and one unoccupied, [extractStructures] returns: the
    caller's field is left as it was and the store gains the padded
    occupancy grid, one record is written if [_writePercolationData] is
    set, and the returned flat grid has one entry per cell of the field,
    at the C-order position of the cell, which is positive exactly when
    the value the field holds in that cell passes the threshold rule, the
    threshold converted to the element type of the field, and 0
    otherwise. *)
Theorem single_threshold_run
  (outliers : Z -> list (list Z)) (mc : bool) (fuel : nat) (h : store pyobj) (c : loc)
  (dt : dtype) (data : list float) (xlen ylen zlen : Z) (zf wp : bool) (t : float) :
  deref h c = Some (FloatArray1 dt data) ->
  0 <= xlen -> 0 <= ylen -> 0 <= zlen ->
  Z.of_nat (length data) = xlen * ylen * zlen ->
  mc = false \/ table_wf outliers ->
  (xlen + 1) * (ylen + 1) * (zlen + 1) < 2 ^ 32 ->
  (Z.to_nat ((xlen + 1) * (ylen + 1) * (zlen + 1)) + 2 <= fuel)%nat ->
  In true (map (fun v => occupancy_rule_in dt t (cast dt v)) data) ->
  In false (map (fun v => occupancy_rule_in dt t (cast dt v)) data) ->
  exists mz Vmax Vall flat,
    extractStructures outliers fuel mc h [t] c xlen ylen zlen zf wp
      = Ok (h ++ [BoolArray3 mz], (if wp then [(t, Vmax, Vall)] else []), flat) /\
    length flat = length data /\
    forall i j k, 0 <= i < xlen -> 0 <= j < ylen -> 0 <= k < zlen ->
      exists v l,
        nth_error data (Z.to_nat (flat_index zf (xlen, ylen, zlen) (i, j, k))) = Some v /\
        nth_error flat (Z.to_nat (flat_index true (xlen, ylen, zlen) (i, j, k))) = Some l /\
        0 <= l /\ (0 < l <-> occupancy_rule_in dt t (cast dt v) = true).
Proof.
  intros Hc Hx Hy Hz Hlen Hmode Hsize Hfuel Hocc Hemp.
  set (c0 := mkArr (xlen, ylen, zlen)
               (fun q => nth (Z.to_nat (flat_index zf (xlen, ylen, zlen) q))
                             (map (cast dt) data) 0%float)).
  assert (Hr : np_reshape (FloatArray1 dt data) (xlen, ylen, zlen) zf = Ok c0).
  { unfold np_reshape.
    replace ((xlen <? 0) || (ylen <? 0) || (zlen <? 0)) with false
      by (symmetry; rewrite !orb_false_iff, !Z.ltb_ge; lia).
    simpl obj_size. simpl size3. rewrite Hlen, Z.eqb_refl. reflexivity. }
  set (mz := pad xlen ylen zlen (threshold dt t c0)).
  assert (Hpad : padded mz xlen ylen zlen)
    by (apply pad_padded; now rewrite threshold_shape).
  assert (Hcell : forall i j k, 0 <= i < xlen -> 0 <= j < ylen -> 0 <= k < zlen ->
            exists v,
              nth_error data (Z.to_nat (flat_index zf (xlen, ylen, zlen) (i, j, k)))
                = Some v /\
              cell mz (i, j, k) = occupancy_rule_in dt t (cast dt v)).
  { intros i j k Hi Hj Hk.
    pose proof (flat_index_bound zf xlen ylen zlen i j k Hi Hj Hk) as Hb.
    destruct (nth_error data (Z.to_nat (flat_index zf (xlen, ylen, zlen) (i, j, k))))
      as [v|] eqn:Hv.
    - exists v. split; [reflexivity|].
      unfold mz, pad. cbn [cell]. rewrite threshold_shape. cbn [shape c0].
      replace (in_shape (xlen, ylen, zlen) (i, j, k)) with true
        by (symmetry; apply in_shape_true; lia).
      rewrite threshold_cell. cbn [cell c0].
      rewrite <- (cast_zero dt) at 1. rewrite map_nth.
      now rewrite (nth_error_nth _ _ _ Hv).
    - apply nth_error_None in Hv. lia. }
  assert (Hfind : forall b,
            In b (map (fun v => occupancy_rule_in dt t (cast dt v)) data) ->
            exists q, in_shape (xlen, ylen, zlen) q = true /\ cell mz q = b).
  { intros b Hb. apply in_map_iff in Hb. destruct Hb as (v & <- & Hv).
    apply In_nth_error in Hv. destruct Hv as [n Hn].
    assert (Hn' : (n < length data)%nat) by (apply nth_error_Some; congruence).
    destruct (flat_index_onto zf xlen ylen zlen (Z.of_nat n) Hx Hy Hz)
      as (i & j & k & Hi & Hj & Hk & E); [lia|].
    destruct (Hcell i j k Hi Hj Hk) as (v' & Hv' & Hq).
    rewrite E, Nat2Z.id, Hn in Hv'. injection Hv' as <-.
    exists (i, j, k). split; [apply in_shape_true; lia|exact Hq]. }
  destruct (label_structures_inv mz xlen ylen zlen Hx Hy Hz Hpad outliers mc Hmode fuel)
    as ([[sv g] printed] & Hrun & Hinv).
  { rewrite cells_size by lia. lia. }
  { rewrite cells_size by lia. exact Hfuel. }
  destruct Hinv as ((Hsh & Hnn) & _ & _ & Hlab & Hpre & _).
  assert (Hpos : forall q, cell mz q = true -> 0 < cell g q).
  { intros q Hq. apply Hpre; [|exact Hq]. apply coords_In.
    apply (inner_in_shape xlen ylen zlen). now apply Hpad. }
  assert (Hzero : forall q, cell mz q = false -> cell g q = 0).
  { intros q Hq. destruct (Z.ltb_spec 0 (cell g q)) as [H|H].
    - apply Hlab in H. congruence.
    - pose proof (Hnn q). lia. }
  pose proof (crop_padded g xlen ylen zlen Hsh) as Hflat.
  destruct (Hfind true Hocc) as (q1 & Hq1 & Ho1).
  destruct (Hfind false Hemp) as (q0 & Hq0 & Ho0).
  destruct (statistics_two_labels (ravel (crop g (xlen, ylen, zlen)))
              (cell g q0) (cell g q1)) as ([Vmax Vall] & Hstat).
  { rewrite Hflat. apply in_map. now apply coords_In. }
  { rewrite Hflat. apply in_map. now apply coords_In. }
  { rewrite (Hzero q0 Ho0). now apply Hpos. }
  exists mz, Vmax, Vall, (ravel (crop g (xlen, ylen, zlen))). split; [|split].
  - unfold extractStructures. cbn [for_each]. unfold pass. cbn [heap c_ref].
    rewrite Hc. cbn [bind]. rewrite Hr. cbn [bind obj_dtype].
    rewrite (pad_fits_ok xlen ylen zlen (threshold dt t c0) Hx Hy Hz
               (threshold_shape dt t c0)).
    cbn [bind]. unfold alloc.
    fold mz. rewrite Hrun. cbn [bind]. rewrite Hstat. cbn [bind].
    cbn [structValuedGrid heap percolation app]. now destruct wp.
  - rewrite Hflat, length_map. fold (cells xlen ylen zlen).
    unfold coords.
    rewrite (flat_map_length_const _ (Z.to_nat ylen * Z.to_nat zlen)%nat).
    + rewrite range_length. nia.
    + intros i. rewrite (flat_map_length_const _ (Z.to_nat zlen)).
      * now rewrite range_length.
      * intros j. now rewrite length_map, range_length.
  - intros i j k Hi Hj Hk. destruct (Hcell i j k Hi Hj Hk) as (v & Hv & Hq).
    exists v, (cell g (i, j, k)). split; [exact Hv|]. split; [|split].
    + rewrite Hflat, nth_error_map, coords_nth by assumption. reflexivity.
    + apply Hnn.
    + rewrite <- Hq. split; [apply Hlab|apply Hpos].
Qed.

Lemma single_threshold_run_witness :
  exists mz Vmax Vall flat,
    extractStructures no_outliers 18 false two_of_three [1%float] 0%nat 3 1 1 true true
      = Ok (two_of_three ++ [BoolArray3 mz],
            (if true then [(1%float, Vmax, Vall)] else []), flat) /\
    length flat = length [2%float; 2%float; 0%float] /\
    forall i j k, 0 <= i < 3 -> 0 <= j < 1 -> 0 <= k < 1 ->
      exists v l,
        nth_error [2%float; 2%float; 0%float]
                  (Z.to_nat (flat_index true (3, 1, 1) (i, j, k))) = Some v /\
        nth_error flat (Z.to_nat (flat_index true (3, 1, 1) (i, j, k))) = Some l /\
        0 <= l /\ (0 < l <-> occupancy_rule_in float32 1%float (cast float32 v) = true).
Proof.
  apply (single_threshold_run no_outliers false 18 two_of_three 0%nat
           float32 [2%float; 2%float; 0%float] 3 1 1 true true 1%float);
    first [lia | reflexivity | now left | (vm_compute; tauto)].
Defined.

(* ================================================================== *)
(** * Further properties: the box counts *)

Section Counting.

Variables (h0 : store (ndarray bool)) (c : loc).
Hypothesis Hc : (c < length h0)%nat.

(** One level with its sum: [c_sum] grows by one for every visited cell
    whose eight operands hold a true value. *)
Lemma level_pass_count (a : ndarray bool) (siz2 : Z) (L : list idx3) (s0 : Z) :
  NoDup L ->
  (forall q, In q L ->
     let '(i, j, k) := q in
     forall p, In p (operands i j k siz2) ->
               in_shape (shape a) p = true /\ (p <> q -> ~ In p L)) ->
  exists a',
    for_each L (reduce_cell c siz2) (update h0 c a, s0)
      = Ok (update h0 c a', s0 + Z.of_nat (length (filter (or8 a siz2) L))) /\
    shape a' = shape a /\
    (forall r, In r L -> cell a' r = or8 a siz2 r) /\
    (forall r, ~ In r L -> cell a' r = cell a r).
Proof.
  intros Hnd HL.
  destruct (for_each_prefix_inv
              (fun pre st => exists a',
                 st = (update h0 c a',
                       s0 + Z.of_nat (length (filter (or8 a siz2) pre))) /\
                 shape a' = shape a /\
                 (forall r, In r pre -> cell a' r = or8 a siz2 r) /\
                 (forall r, ~ In r pre -> cell a' r = cell a r))
              (reduce_cell c siz2) L (update h0 c a, s0))
    as (st & Hrun & a' & -> & Hs & H1 & H2).
  - intros pre x post st E (a1 & -> & Hs1 & Hin1 & Hout1).
    assert (Hx : In x L) by (rewrite E; apply in_app_iff; right; now left).
    assert (Hxpre : ~ In x pre).
    { rewrite E in Hnd. apply NoDup_remove_2 in Hnd. intros Hin. apply Hnd.
      apply in_app_iff. now left. }
    pose proof (HL x Hx) as Hops.
    assert (Hsame : or8 a1 siz2 x = or8 a siz2 x).
    { destruct x as [[i j] k]. unfold or8. apply existsb_ext_in. intros p Hp.
      apply Hout1. destruct (Hops p Hp) as [_ Hp'].
      destruct (idx3_eqb p (i, j, k)) eqn:Ep.
      - apply idx3_eqb_eq in Ep. now subst.
      - apply idx3_eqb_neq in Ep. intros Hin. apply (Hp' Ep).
        rewrite E. apply in_app_iff. now left. }
    eexists. split.
    + apply (reduce_cell_at h0 c Hc). destruct x as [[i j] k]. intros p Hp.
      rewrite Hs1. now apply Hops.
    + exists (upd a1 x (or8 a1 siz2 x)). split; [|split; [exact Hs1|split]].
      * f_equal. rewrite filter_app, length_app. cbn [filter].
        rewrite Hsame. destruct (or8 a siz2 x); simpl; lia.
      * intros r Hr. apply in_app_iff in Hr. destruct Hr as [Hr|[<-|[]]].
        -- rewrite upd_other; [now apply Hin1|]. intros ->. contradiction.
        -- rewrite upd_same. exact Hsame.
      * intros r Hr. rewrite upd_other.
        -- apply Hout1. intros Hin. apply Hr. apply in_app_iff. now left.
        -- intros ->. apply Hr. apply in_app_iff. right. now left.
  - exists a. split; [simpl; do 2 f_equal; lia|]. split; [reflexivity|]. split.
    + intros r [].
    + reflexivity.
  - exists a'. auto.
Qed.

End Counting.

(** [n[-g-1] = c_sum] for [g = P - (m + 1)]: entry [m + 1] is set, the
    others stay. *)
Lemma n_set_level (n : list Z) (P m : nat) (v : Z) :
  length n = S P -> (m < P)%nat ->
  exists n', n_set n (- (Z.of_nat P - Z.of_nat (S m)) - 1) v = Ok n' /\
             length n' = length n /\
             nth_error n' (S m) = Some (float32_of_int v) /\
             forall i, i <> S m -> nth_error n' i = nth_error n i.
Proof.
  intros Hn Hm. unfold n_set.
  assert (Hi : np_index (Z.of_nat (length n)) (- (Z.of_nat P - Z.of_nat (S m)) - 1)
               = Some (Z.of_nat (S m))).
  { rewrite Hn. unfold np_index.
    replace (0 <=? _) with false by (symmetry; apply Z.leb_gt; lia).
    cbn [andb].
    replace (_ <? 0) with true by (symmetry; apply Z.ltb_lt; lia).
    replace (- Z.of_nat (S P) <=? _) with true by (symmetry; apply Z.leb_le; lia).
    cbn [andb]. f_equal. lia. }
  rewrite Hi, Nat2Z.id. eexists. split; [reflexivity|].
  assert (Hf : length (firstn (S m) n) = S m) by (rewrite length_firstn; lia).
  split; [|split].
  - rewrite length_app. cbn [length]. rewrite Hf, length_skipn. lia.
  - rewrite nth_error_app2 by lia. rewrite Hf, Nat.sub_diag. reflexivity.
  - intros i Hne. destruct (Nat.lt_ge_cases i (S m)) as [Hlt|Hge].
    + rewrite nth_error_app1 by lia. rewrite nth_error_firstn.
      now replace (i <? S m)%nat with true by (symmetry; apply Nat.ltb_lt; lia).
    + rewrite nth_error_app2 by lia. rewrite Hf.
      destruct (i - S m)%nat as [|d] eqn:Ed; [lia|]. cbn [nth_error].
      rewrite nth_error_skipn. f_equal. lia.
Qed.

Lemma range_NoDup (n : Z) : NoDup (range n).
Proof.
  unfold range. generalize 0%nat. generalize (Z.to_nat n).
  induction n0 as [|k IH]; intros s; cbn [seq map]; constructor; [|apply IH].
  intros H. apply in_map_iff in H. destruct H as (x & E & Hx).
  apply in_seq in Hx. lia.
Qed.

Lemma cube_coords_NoDup (w : Z) : NoDup (coords (w, w, w)).
Proof. unfold coords. apply triples_NoDup, range_NoDup. Qed.

(** The number of boxes of side [s], on the grid of step [s] in the cube
    of side [w], that hold a true cell of [a]. *)
Definition box_count (a : ndarray bool) (w s : Z) : Z :=
  Z.of_nat (length (filter (fun q => aligned s q && block_or a q s) (coords (w, w, w)))).

(** The cells the loops of a level visit are the cells of the cube on the
    grid of the level. *)
Lemma level_cells_count (f : idx3 -> bool) (w s : Z) :
  0 < s -> 0 < w -> w mod s = 0 ->
  length (filter f (level_cells w s))
  = length (filter (fun q => aligned s q && f q) (coords (w, w, w))).
Proof.
  intros Hs Hw Hdiv. apply Permutation_length. apply NoDup_Permutation.
  - apply NoDup_filter. now apply level_cells_NoDup.
  - apply NoDup_filter. apply cube_coords_NoDup.
  - intros q. rewrite !filter_In, level_cells_In, coords_In, andb_true_iff by assumption.
    tauto.
Qed.

Section PyramidCounts.

Variables (h0 : store (ndarray bool)) (c : loc).
Hypothesis Hc : (c < length h0)%nat.
Variable P : nat.

Local Abbreviation W := (2 ^ Z.of_nat P).

(** One iteration of [for g in reverse_range] with the count it stores. *)
Lemma level_at_count (a : ndarray bool) (m : nat) (n : list Z) :
  (m < P)%nat -> shape a = (W, W, W) -> length n = S P ->
  exists a' n',
    level c (Z.of_nat P) W (Z.of_nat P - Z.of_nat (S m)) (update h0 c a, n)
      = Ok (update h0 c a', n') /\
    shape a' = (W, W, W) /\ length n' = S P /\
    nth_error n' (S m)
      = Some (float32_of_int
                (Z.of_nat (length (filter (or8 a (2 ^ Z.of_nat m))
                                          (level_cells W (2 ^ Z.of_nat (S m))))))) /\
    (forall i, i <> S m -> nth_error n' i = nth_error n i) /\
    (forall r, in_shape (W, W, W) r = true ->
               cell a' r = if aligned (2 ^ Z.of_nat (S m)) r
                           then or8 a (2 ^ Z.of_nat m) r else cell a r).
Proof.
  intros Hm Hs Hn. unfold level.
  replace (Z.of_nat P - (Z.of_nat P - Z.of_nat (S m))) with (Z.of_nat (S m)) by lia.
  pose proof (pow2_pos m) as Hpm. pose proof (pow2_pos P) as HpP.
  assert (Hhalf : 2 ^ Z.of_nat (S m) / 2 = 2 ^ Z.of_nat m).
  { rewrite pow2_succ, Z.mul_comm. apply Z.div_mul. lia. }
  rewrite Hhalf.
  assert (Hdiv : W mod 2 ^ Z.of_nat (S m) = 0) by (apply pow2_divides; lia).
  assert (Hsiz : 0 < 2 ^ Z.of_nat (S m)) by apply pow2_pos.
  destruct (level_pass_count h0 c Hc a (2 ^ Z.of_nat m)
              (level_cells W (2 ^ Z.of_nat (S m))) 0)
    as (a' & Hrun & Hs' & Hin & Hout).
  - now apply level_cells_NoDup.
  - intros [[i j] k] Hq o Ho.
    apply level_cells_In in Hq; auto. destruct Hq as [Hq Hal].
    apply in_shape_true in Hq. unfold aligned in Hal.
    rewrite !andb_true_iff, !Z.eqb_eq in Hal. destruct Hal as [[Hi Hj] Hk].
    pose proof (multiple_room i _ W Hsiz (proj1 Hq) Hi Hdiv) as Ri.
    pose proof (multiple_room j _ W Hsiz (proj1 (proj2 Hq)) Hj Hdiv) as Rj.
    pose proof (multiple_room k _ W Hsiz (proj2 (proj2 Hq)) Hk Hdiv) as Rk.
    rewrite pow2_succ in Hi, Hj, Hk, Ri, Rj, Rk.
    apply operands_In in Ho.
    destruct Ho as (ex & ey & ez & Hex & Hey & Hez & ->). split.
    + rewrite Hs. apply in_shape_true. lia.
    + intros Hne Hin'. apply level_cells_In in Hin'; auto.
      destruct Hin' as [_ Hal']. unfold aligned in Hal'.
      rewrite !andb_true_iff, !Z.eqb_eq, pow2_succ in Hal'.
      destruct Hal' as [[Hi' Hj'] Hk'].
      pose proof (half_step_mod i _ Hpm Hi) as Mi.
      pose proof (half_step_mod j _ Hpm Hj) as Mj.
      pose proof (half_step_mod k _ Hpm Hk) as Mk.
      apply Hne.
      destruct Hex as [->| ->], Hey as [->| ->], Hez as [->| ->];
        rewrite ?Z.add_0_r in *; try reflexivity; lia.
  - rewrite Hrun. cbn [bind]. rewrite Z.add_0_l.
    destruct (n_set_level n P m
                (Z.of_nat (length (filter (or8 a (2 ^ Z.of_nat m))
                                          (level_cells W (2 ^ Z.of_nat (S m)))))) Hn Hm)
      as (n' & Hset & Hlen & Hnew & Hold).
    rewrite Hset. cbn [bind].
    exists a', n'. split; [reflexivity|]. split; [now rewrite Hs'|].
    split; [now rewrite Hlen|]. split; [exact Hnew|]. split; [exact Hold|].
    intros r Hr. destruct (aligned (2 ^ Z.of_nat (S m)) r) eqn:Hal.
    + apply Hin. apply level_cells_In; auto.
    + apply Hout. intros H. apply level_cells_In in H; auto.
      destruct H as [_ H]. congruence.
Qed.

Variable a0 : ndarray bool.

(** The loop over the levels, from level [m] on, with the counts. *)
Lemma levels_run_count (k : nat) :
  forall (m : nat) (a : ndarray bool) (n : list Z),
    (m + k = P)%nat -> reduced P a0 m a -> length n = S P ->
    (forall t, (t <= m)%nat ->
       nth_error n t = Some (float32_of_int (box_count a0 W (2 ^ Z.of_nat t)))) ->
    exists a' n',
      for_each (map (fun t => Z.of_nat P - Z.of_nat t) (seq (S m) k))
               (level c (Z.of_nat P) W) (update h0 c a, n)
        = Ok (update h0 c a', n') /\
      reduced P a0 P a' /\ length n' = S P /\
      (forall t, (t <= P)%nat ->
         nth_error n' t = Some (float32_of_int (box_count a0 W (2 ^ Z.of_nat t)))).
Proof.
  induction k as [|k IH]; intros m a n Hmk Hred Hn Hcnt.
  - assert (E : m = P) by lia. subst m.
    exists a, n. cbn [seq map for_each]. auto.
  - cbn [seq map for_each].
    destruct (level_at_count a m n) as (a1 & n1 & Hl & Hs1 & Hn1 & Hnew & Hold & Hstep);
      [lia|exact (proj1 Hred)|exact Hn|].
    rewrite Hl. cbn [bind].
    assert (Hred1 : reduced P a0 (S m) a1)
      by (apply (reduced_step h0 c Hc P a0 m a a1); auto; lia).
    destruct (IH (S m) a1 n1) as (a' & n' & Hrun & Hred' & Hn' & Hcnt');
      [lia|exact Hred1|exact Hn1| |].
    + intros t Ht. destruct (Nat.eq_dec t (S m)) as [->|Hne].
      * rewrite Hnew. do 2 f_equal. unfold box_count. f_equal.
        rewrite <- level_cells_count;
          [|apply pow2_pos|apply pow2_pos|apply pow2_divides; lia].
        f_equal. apply filter_ext_in. intros q Hq.
        apply level_cells_In in Hq;
          [|apply pow2_pos|apply pow2_pos|apply pow2_divides; lia].
        destruct Hq as [Hq Hal].
        pose proof (proj2 Hred1 q Hq) as E1.
        rewrite (lev_aligned (S m) q Hal), (Hstep q Hq), Hal in E1. exact E1.
      * rewrite (Hold t Hne). apply Hcnt. lia.
    + exists a', n'. auto.
Qed.

End PyramidCounts.

Lemma aligned_one (q : idx3) : aligned 1 q = true.
Proof. destruct q as [[i j] k]. unfold aligned. now rewrite !Z.mod_1_r. Qed.

(** [computeFast] on a cube of side [2^P], with all its counts. *)
Lemma computeFast_count (h0 : store (ndarray bool)) (c : loc) (P : nat)
  (a0 : ndarray bool) (n : list Z) :
  (c < length h0)%nat ->
  shape a0 = (2 ^ Z.of_nat P, 2 ^ Z.of_nat P, 2 ^ Z.of_nat P) ->
  length n = S P ->
  exists a' n',
    computeFast (update h0 c a0) (2 ^ Z.of_nat P) (2 ^ Z.of_nat P) (2 ^ Z.of_nat P) c
                (Z.of_nat P) (2 ^ Z.of_nat P) (rev (range (Z.of_nat P))) n
      = Ok (update h0 c a', n') /\
    length n' = S P /\
    forall t, (t <= P)%nat ->
      nth_error n' t
        = Some (float32_of_int (box_count a0 (2 ^ Z.of_nat P) (2 ^ Z.of_nat t))).
Proof.
  intros Hc Hs Hn. unfold computeFast.
  rewrite (getSum_count h0 c Hc a0 _ _ _ Hs). cbn [bind].
  destruct (n_set_first n P (Z.of_nat (length (filter (cell a0)
              (coords (2 ^ Z.of_nat P, 2 ^ Z.of_nat P, 2 ^ Z.of_nat P))))) Hn)
    as (n0 & Hset & Hlen & Hfirst).
  rewrite Hset. cbn [bind]. rewrite rev_range.
  destruct (levels_run_count h0 c Hc P a0 P 0%nat a0 n0)
    as (a' & n' & Hrun & _ & Hn' & Hcnt).
  - lia.
  - split; [exact Hs|]. intros r _. cbn [lev]. now rewrite block_or_one.
  - now rewrite Hlen.
  - intros t Ht. assert (t = 0%nat) by lia. subst t. rewrite Hfirst.
    do 2 f_equal. unfold box_count. do 2 f_equal. apply filter_ext. intros q.
    change (2 ^ Z.of_nat 0) with 1. now rewrite aligned_one, block_or_one.
  - exists a', n'. auto.
Qed.

Lemma cube_cells (w : Z) : 0 <= w -> Z.of_nat (length (coords (w, w, w))) = w * w * w.
Proof.
  intros Hw. unfold coords.
  rewrite (flat_map_length_const _ (Z.to_nat w * Z.to_nat w)%nat).
  - rewrite range_length. nia.
  - intros i. rewrite (flat_map_length_const _ (Z.to_nat w)).
    + now rewrite range_length.
    + intros j. now rewrite length_map, range_length.
Qed.

Lemma filter_length_bound {A : Type} (f : A -> bool) (l : list A) :
  (length (filter f l) <= length l)%nat.
Proof.
  induction l as [|x l IH]; cbn [filter]; [lia|]. destruct (f x); simpl; lia.
Qed.

(** On a cube of side at most [2^8] every count is a [float32] number. *)
Lemma box_count_small (a : ndarray bool) (P : nat) (s : Z) :
  (P <= 8)%nat -> 0 <= box_count a (2 ^ Z.of_nat P) s <= 2 ^ 24.
Proof.
  intros HP. unfold box_count.
  pose proof (filter_length_bound (fun q => aligned s q && block_or a q s)
                (coords (2 ^ Z.of_nat P, 2 ^ Z.of_nat P, 2 ^ Z.of_nat P))) as Hb.
  pose proof (pow2_pos P) as Hpos.
  pose proof (cube_cells (2 ^ Z.of_nat P) ltac:(lia)) as Hc.
  assert (Hw : 2 ^ Z.of_nat P <= 2 ^ 8) by (apply Z.pow_le_mono_r; lia).
  change (2 ^ 8) with 256 in Hw. change (2 ^ 24) with (256 * 256 * 256).
  split; [lia|]. nia.
Qed.

(** X10.  [boxCountFunc] on a cube of side [2^P], with at least one level,
    returns the box counts: for every level [m] from 0 to [P], [r[m]] is
    the box side [2^m] and [n[m]] is the number of boxes of that side, on
    the grid of step [2^m], that hold at least one true cell of the field
    the caller passed (as it was before the call overwrote it), as a
    [float32] holds it.  Up to a cube of side [2^8] that is the number
    itself. *)
Theorem boxCountFunc_counts_occupied_boxes
  (h : store (ndarray bool)) (c : loc) (a : ndarray bool) (P : nat) :
  (0 < P)%nat ->
  deref h c = Some a ->
  shape a = (2 ^ Z.of_nat P, 2 ^ Z.of_nat P, 2 ^ Z.of_nat P) ->
  exists h' n r,
    boxCountFunc h c (Z.of_nat P) (2 ^ Z.of_nat P) = Ok (h', (n, r)) /\
    length n = S P /\ length r = S P /\
    forall m, (m <= P)%nat ->
      nth_error r m = Some (2 ^ Z.of_nat m) /\
      nth_error n m
        = Some (float32_of_int (box_count a (2 ^ Z.of_nat P) (2 ^ Z.of_nat m))) /\
      ((P <= 8)%nat ->
       nth_error n m = Some (box_count a (2 ^ Z.of_nat P) (2 ^ Z.of_nat m))).
Proof.
  intros HP Hd Hs. pose proof (deref_bound h c a Hd) as Hc.
  rewrite (boxCountFunc_levels h c a P _ HP Hd), Hs.
  match goal with |- context [computeFast h ?x ?y ?z c ?p ?w ?rr ?n] =>
    replace (computeFast h x y z c p w rr n)
      with (computeFast (update h c a) x y z c p w rr n)
      by (now rewrite (update_deref h c a Hd));
    destruct (computeFast_count h c P a n Hc Hs) as (a' & n' & Hrun & Hn' & Hcnt)
  end.
  - now rewrite repeat_length, length_rev, range_length, Nat2Z.id, Nat.add_1_r.
  - rewrite Hrun. cbn [bind]. eexists _, _, _. split; [reflexivity|].
    split; [exact Hn'|]. split.
    + rewrite length_map, range_length. lia.
    + intros m Hm. split; [|split; [now apply Hcnt|]].
      * rewrite nth_error_map. rewrite <- (Nat2Z.id m) at 1.
        rewrite range_nth by lia. reflexivity.
      * intros H8. rewrite (Hcnt m Hm). f_equal.
        apply float32_of_int_small. now apply box_count_small.
Qed.

Lemma boxCountFunc_counts_occupied_boxes_witness :
  exists h' n r,
    boxCountFunc [corner_cube] 0%nat (Z.of_nat 1) (2 ^ Z.of_nat 1) = Ok (h', (n, r)) /\
    length n = 2%nat /\ length r = 2%nat /\
    forall m, (m <= 1)%nat ->
      nth_error r m = Some (2 ^ Z.of_nat m) /\
      nth_error n m
        = Some (float32_of_int (box_count corner_cube (2 ^ Z.of_nat 1) (2 ^ Z.of_nat m))) /\
      ((1 <= 8)%nat ->
       nth_error n m = Some (box_count corner_cube (2 ^ Z.of_nat 1) (2 ^ Z.of_nat m))).
Proof.
  apply (boxCountFunc_counts_occupied_boxes [corner_cube] 0%nat corner_cube 1);
    first [lia | reflexivity].
Defined.

(** ** How the counts of neighboring levels compare *)

Lemma NoDup_map_on {A B : Type} (f : A -> B) (l : list A) :
  NoDup l -> (forall x y, In x l -> In y l -> f x = f y -> x = y) -> NoDup (map f l).
Proof.
  induction 1 as [|x l Hx Hnd IH]; intros Hinj; cbn [map]; constructor.
  - intros H. apply in_map_iff in H. destruct H as (y & E & Hy).
    assert (y = x) by (apply Hinj; [now right|now left|exact E]). now subst.
  - apply IH. intros y z Hy Hz. apply Hinj; now right.
Qed.

Lemma mod_double (i s : Z) :
  0 < s -> i mod s = 0 -> i mod (2 * s) = 0 \/ i mod (2 * s) = s.
Proof.
  intros Hs Hi. apply Z.div_exact in Hi; [|lia].
  pose proof (Z.div_mod (i / s) 2 ltac:(lia)) as E.
  pose proof (Z.mod_pos_bound (i / s) 2 ltac:(lia)) as Hb.
  assert (Hr : s * ((i / s) mod 2) = i mod (2 * s)).
  { apply (Z.mod_unique i (2 * s) (i / s / 2)); [left; nia|nia]. }
  assert (Hc : (i / s) mod 2 = 0 \/ (i / s) mod 2 = 1) by lia.
  destruct Hc as [E0|E1]; [left|right]; rewrite <- Hr; [rewrite E0|rewrite E1]; lia.
Qed.

Lemma floor_aligned (i s : Z) : 0 < s -> (i - i mod (2 * s)) mod (2 * s) = 0.
Proof.
  intros Hs. rewrite Zminus_mod_idemp_r, Z.sub_diag. apply Zmod_0_l.
Qed.

Section Levels.

Variables (a : ndarray bool) (w s : Z).
Hypothesis Hs : 0 < s.
Hypothesis Hw : 0 < w.

(** The boxes counted at a level. *)
Definition occupied_boxes (t : Z) : list idx3 :=
  filter (fun q => aligned t q && block_or a q t) (coords (w, w, w)).

Lemma occupied_boxes_In (t : Z) (q : idx3) :
  In q (occupied_boxes t) <->
  in_shape (w, w, w) q = true /\ aligned t q = true /\ block_or a q t = true.
Proof.
  unfold occupied_boxes. rewrite filter_In, coords_In, andb_true_iff. tauto.
Qed.

Lemma occupied_boxes_NoDup (t : Z) : NoDup (occupied_boxes t).
Proof. apply NoDup_filter, cube_coords_NoDup. Qed.

(** The box of side [2 s] that holds a box of side [s]. *)
Definition parent (q : idx3) : idx3 :=
  let '(i, j, k) := q in
  (i - i mod (2 * s), j - j mod (2 * s), k - k mod (2 * s)).

Lemma parent_operand (q : idx3) :
  aligned s q = true ->
  let '(i, j, k) := parent q in In q (operands i j k s).
Proof.
  destruct q as [[i j] k]. unfold aligned, parent.
  rewrite !andb_true_iff, !Z.eqb_eq. intros [[Hi Hj] Hk].
  apply operands_In.
  exists (i mod (2 * s)), (j mod (2 * s)), (k mod (2 * s)).
  split; [now apply mod_double|]. split; [now apply mod_double|].
  split; [now apply mod_double|]. f_equal; [f_equal|]; lia.
Qed.

(** A counted box of side [s] lies in a counted box of side [2 s]. *)
Lemma parent_occupied (q : idx3) :
  In q (occupied_boxes s) -> In (parent q) (occupied_boxes (2 * s)).
Proof.
  intros Hq. apply occupied_boxes_In in Hq. destruct Hq as (Hin & Hal & Hb).
  pose proof (parent_operand q Hal) as Hop.
  destruct q as [[i j] k]. unfold parent in *.
  apply in_shape_true in Hin.
  pose proof (Z.mod_pos_bound i (2 * s) ltac:(lia)).
  pose proof (Z.mod_pos_bound j (2 * s) ltac:(lia)).
  pose proof (Z.mod_pos_bound k (2 * s) ltac:(lia)).
  apply occupied_boxes_In. split; [|split].
  - apply in_shape_true.
    pose proof (Z.mod_le i (2 * s) ltac:(lia) ltac:(lia)).
    pose proof (Z.mod_le j (2 * s) ltac:(lia) ltac:(lia)).
    pose proof (Z.mod_le k (2 * s) ltac:(lia) ltac:(lia)). lia.
  - unfold aligned. now rewrite !floor_aligned, !Z.eqb_refl.
  - rewrite block_or_split by exact Hs. apply existsb_exists. eauto.
Qed.

Lemma fine_at_most_eight_coarse :
  (length (occupied_boxes s) <= 8 * length (occupied_boxes (2 * s)))%nat.
Proof.
  replace (8 * length (occupied_boxes (2 * s)))%nat
    with (length (flat_map (fun q : idx3 => let '(i, j, k) := q in operands i j k s)
                           (occupied_boxes (2 * s)))).
  - apply NoDup_incl_length; [apply occupied_boxes_NoDup|].
    intros q Hq. apply in_flat_map. exists (parent q).
    split; [now apply parent_occupied|].
    apply occupied_boxes_In in Hq.
    pose proof (parent_operand q (proj1 (proj2 Hq))) as Hop.
    destruct (parent q) as [[i j] k]. exact Hop.
  - rewrite (flat_map_length_const _ 8); [lia|]. now intros [[i j] k].
Qed.

Hypothesis Hdiv : w mod (2 * s) = 0.

(** The first occupied half-size box of a box. *)
Definition first_child (q : idx3) : idx3 :=
  let '(i, j, k) := q in
  match find (fun o => block_or a o s) (operands i j k s) with
  | Some o => o
  | None => q
  end.

Lemma first_child_spec (q : idx3) :
  In q (occupied_boxes (2 * s)) ->
  In (first_child q) (occupied_boxes s) /\ parent (first_child q) = q.
Proof.
  intros Hq. apply occupied_boxes_In in Hq. destruct Hq as (Hin & Hal & Hb).
  destruct q as [[i j] k]. rewrite block_or_split in Hb by exact Hs.
  unfold first_child.
  destruct (find (fun o => block_or a o s) (operands i j k s)) as [o|] eqn:Ef.
  - apply find_some in Ef. destruct Ef as [Ho Hbo].
    apply in_shape_true in Hin. unfold aligned in Hal.
    rewrite !andb_true_iff, !Z.eqb_eq in Hal. destruct Hal as [[Hi Hj] Hk].
    pose proof (multiple_room i (2 * s) w ltac:(lia) (proj1 Hin) Hi Hdiv) as Ri.
    pose proof (multiple_room j (2 * s) w ltac:(lia) (proj1 (proj2 Hin)) Hj Hdiv) as Rj.
    pose proof (multiple_room k (2 * s) w ltac:(lia) (proj2 (proj2 Hin)) Hk Hdiv) as Rk.
    destruct (half_aligned i _ Hs Hi) as [Ai Ai'].
    destruct (half_aligned j _ Hs Hj) as [Aj Aj'].
    destruct (half_aligned k _ Hs Hk) as [Ak Ak'].
    pose proof (half_step_mod i _ Hs Hi) as Mi.
    pose proof (half_step_mod j _ Hs Hj) as Mj.
    pose proof (half_step_mod k _ Hs Hk) as Mk.
    apply operands_In in Ho. destruct Ho as (ex & ey & ez & Hex & Hey & Hez & ->).
    split.
    + apply occupied_boxes_In. split; [|split; [|exact Hbo]].
      * apply in_shape_true. lia.
      * unfold aligned. rewrite !andb_true_iff, !Z.eqb_eq.
        destruct Hex as [->| ->], Hey as [->| ->], Hez as [->| ->];
          rewrite ?Z.add_0_r; auto.
    + unfold parent.
      destruct Hex as [->| ->], Hey as [->| ->], Hez as [->| ->];
        rewrite ?Z.add_0_r, ?Hi, ?Hj, ?Hk, ?Mi, ?Mj, ?Mk;
        repeat match goal with |- (_, _) = (_, _) => apply f_equal2 end; lia.
  - exfalso. apply existsb_exists in Hb. destruct Hb as (o & Ho & Hbo).
    apply (find_none _ _ Ef) in Ho. congruence.
Qed.

Lemma coarse_at_most_fine :
  (length (occupied_boxes (2 * s)) <= length (occupied_boxes s))%nat.
Proof.
  rewrite <- (length_map first_child).
  apply NoDup_incl_length.
  - apply NoDup_map_on; [apply occupied_boxes_NoDup|].
    intros x y Hx Hy E.
    rewrite <- (proj2 (first_child_spec x Hx)), <- (proj2 (first_child_spec y Hy)).
    now rewrite E.
  - intros o Ho. apply in_map_iff in Ho. destruct Ho as (q & <- & Hq).
    now apply first_child_spec.
Qed.

End Levels.

Lemma top_box_count (a : ndarray bool) (w : Z) :
  0 < w ->
  box_count a w w = if existsb (cell a) (coords (w, w, w)) then 1 else 0.
Proof.
  intros Hw. rewrite <- block_or_origin.
  change (box_count a w w) with (Z.of_nat (length (occupied_boxes a w w))).
  assert (Hin : forall q, In q (occupied_boxes a w w) <->
                          q = (0, 0, 0) /\ block_or a (0, 0, 0) w = true).
  { intros [[i j] k]. rewrite occupied_boxes_In, in_shape_true. unfold aligned.
    rewrite !andb_true_iff, !Z.eqb_eq. split.
    - intros ((Hi & Hj & Hk) & ((Mi & Mj) & Mk) & Hb).
      rewrite Z.mod_small in Mi, Mj, Mk by lia. subst. auto.
    - intros [E Hb]. injection E as -> -> ->. rewrite Zmod_0_l. repeat split; auto; lia. }
  pose proof (occupied_boxes_NoDup a w w) as Hnd.
  destruct (block_or a (0, 0, 0) w).
  - rewrite (Permutation_length (l' := [(0, 0, 0)])); [reflexivity|].
    apply NoDup_Permutation; [exact Hnd|repeat constructor; intros []|].
    intros q. rewrite Hin. cbn [In]. intuition congruence.
  - destruct (occupied_boxes a w w) as [|q l]; [reflexivity|].
    destruct (proj1 (Hin q) (or_introl eq_refl)) as [_ H]. discriminate.
Qed.

(** X11.  The counts [boxCountFunc] returns for a cube of side [2^P],
    with at least one level, behave as box counts must: the count for the
    box that is the whole cube is 1 when the field has a true cell and 0
    when it has none; and of the entries [n[m]] and [n[m + 1]], box
    counts as the [float32] array holds them, the coarser is never the
    larger and is at least an eighth of the finer. *)
Theorem box_counts_shrink_by_at_most_eight
  (h : store (ndarray bool)) (c : loc) (a : ndarray bool) (P : nat) :
  (0 < P)%nat ->
  deref h c = Some a ->
  shape a = (2 ^ Z.of_nat P, 2 ^ Z.of_nat P, 2 ^ Z.of_nat P) ->
  exists h' n r,
    boxCountFunc h c (Z.of_nat P) (2 ^ Z.of_nat P) = Ok (h', (n, r)) /\
    nth_error n P = Some (if existsb (cell a) (coords (shape a)) then 1 else 0) /\
    forall m, (m < P)%nat ->
      exists fine coarse,
        nth_error n m = Some fine /\
        nth_error n (S m) = Some coarse /\
        coarse <= fine <= 8 * coarse.
Proof.
  intros HP Hd Hs. pose proof (deref_bound h c a Hd) as Hc.
  rewrite (boxCountFunc_levels h c a P _ HP Hd), Hs.
  match goal with |- context [computeFast h ?x ?y ?z c ?p ?w ?rr ?n] =>
    replace (computeFast h x y z c p w rr n)
      with (computeFast (update h c a) x y z c p w rr n)
      by (now rewrite (update_deref h c a Hd));
    destruct (computeFast_count h c P a n Hc Hs) as (a' & n' & Hrun & Hn' & Hcnt)
  end.
  - now rewrite repeat_length, length_rev, range_length, Nat2Z.id, Nat.add_1_r.
  - rewrite Hrun. cbn [bind]. eexists _, _, _. split; [reflexivity|].
    pose proof (pow2_pos P) as HpP. split.
    + rewrite (Hcnt P) by lia. f_equal. rewrite top_box_count by exact HpP.
      apply float32_of_int_small. destruct (existsb _ _); simpl; lia.
    + intros m Hm.
      exists (float32_of_int (box_count a (2 ^ Z.of_nat P) (2 ^ Z.of_nat m))),
             (float32_of_int (box_count a (2 ^ Z.of_nat P) (2 ^ Z.of_nat (S m)))).
      split; [apply Hcnt; lia|]. split; [apply Hcnt; lia|].
      assert (Hcmp : 0 <= box_count a (2 ^ Z.of_nat P) (2 ^ Z.of_nat (S m))
                     <= box_count a (2 ^ Z.of_nat P) (2 ^ Z.of_nat m) /\
                     box_count a (2 ^ Z.of_nat P) (2 ^ Z.of_nat m)
                     <= 8 * box_count a (2 ^ Z.of_nat P) (2 ^ Z.of_nat (S m))).
      { pose proof (pow2_pos m) as Hpm.
        change (box_count a (2 ^ Z.of_nat P) (2 ^ Z.of_nat (S m)))
          with (Z.of_nat (length (occupied_boxes a (2 ^ Z.of_nat P) (2 ^ Z.of_nat (S m))))).
        change (box_count a (2 ^ Z.of_nat P) (2 ^ Z.of_nat m))
          with (Z.of_nat (length (occupied_boxes a (2 ^ Z.of_nat P) (2 ^ Z.of_nat m)))).
        rewrite pow2_succ.
        pose proof (fine_at_most_eight_coarse a (2 ^ Z.of_nat P) (2 ^ Z.of_nat m) Hpm).
        assert (Hdiv : 2 ^ Z.of_nat P mod (2 * 2 ^ Z.of_nat m) = 0)
          by (rewrite <- pow2_succ; apply pow2_divides; lia).
        pose proof (coarse_at_most_fine a (2 ^ Z.of_nat P) (2 ^ Z.of_nat m) Hpm Hdiv).
        lia. }
      split.
      * apply float32_of_int_mono. lia.
      * rewrite <- float32_of_int_times_8 by lia. apply float32_of_int_mono. lia.
Qed.

Lemma box_counts_shrink_by_at_most_eight_witness :
  exists h' n r,
    boxCountFunc [corner_cube] 0%nat (Z.of_nat 1) (2 ^ Z.of_nat 1) = Ok (h', (n, r)) /\
    nth_error n 1
      = Some (if existsb (cell corner_cube) (coords (shape corner_cube)) then 1 else 0) /\
    forall m, (m < 1)%nat ->
      exists fine coarse,
        nth_error n m = Some fine /\
        nth_error n (S m) = Some coarse /\
        coarse <= fine <= 8 * coarse.
Proof.
  apply (box_counts_shrink_by_at_most_eight [corner_cube] 0%nat corner_cube 1);
    first [lia | reflexivity].
Defined.

(* ================================================================== *)
(** * Further properties: the correction and the case table *)

Section EmptyTable.

Variables tab tab' : Z -> list (list Z).
Hypothesis Hempty : forall cs, tab cs = [].
Variable c : ndarray bool.

Lemma resolver_empty (p : idx3) (fl : flags) (st : ndarray Z * ndarray Z) :
  resolver tab p fl st = Ok st.
Proof.
  rewrite resolver_retract.
  replace (retracted tab fl) with (@nil idx3); [reflexivity|].
  symmetry. unfold retracted. apply flat_map_nil. intros ii.
  destruct (list_get (_cases fl) ii); [|reflexivity]. now rewrite Hempty.
Qed.

Lemma expand_cell_empty (sv : Z) (p : idx3) (g : ndarray Z) :
  expand_cell tab true c sv p g = expand_cell tab' false c sv p g.
Proof.
  unfold expand_cell.
  destruct (fold_left (link c sv p) neighbor_checks (g, full (3, 3, 3) 0, no_flags))
    as [[g1 aux1] fl].
  now rewrite resolver_empty.
Qed.

Lemma expand_empty (fuel : nat) (sv : Z) (g : ndarray Z) (nv : list idx3)
  (lc nc : Z) (p : idx3) :
  expand tab fuel true c sv g nv lc nc p = expand tab' fuel false c sv g nv lc nc p.
Proof.
  revert g nv lc nc p. induction fuel as [|fuel IH]; intros g nv lc nc p;
    cbn [expand]; [reflexivity|].
  destruct (if 0 <? lc then _ else _) as [[p' nc']|]; [|reflexivity].
  rewrite expand_cell_empty.
  destruct (expand_cell tab' false c sv p' g) as [[g' adds]| |]; cbn [bind]; auto.
Qed.

End EmptyTable.

(** X12.  The marching-cubes correction acts through the case table
    only: with a table that lists no subset for any code, a run with
    [_marchingCubesExt] set labels every grid exactly as a run without it
    does (whatever table that run is given), and writes the same lines. *)
Theorem correction_with_empty_table_is_plain_labeling
  (tab tab' : Z -> list (list Z)) (fuel : nat) (c : ndarray bool)
  (xlen ylen zlen : Z) (wn : bool) :
  (forall cs, tab cs = []) ->
  label_structures tab fuel true c xlen ylen zlen
    = label_structures tab' fuel false c xlen ylen zlen /\
  label_structures_writing tab fuel true c xlen ylen zlen wn
    = label_structures_writing tab' fuel false c xlen ylen zlen wn.
Proof.
  intros Hempty. split.
  - unfold label_structures. apply for_each_ext. intros p [[sv g] printed] _.
    unfold visit.
    destruct (subscript (getitem c p)) as [[|]| |]; cbn [bind]; try reflexivity.
    destruct (subscript (getitem g p)) as [l| |]; cbn [bind]; try reflexivity.
    destruct (0 <? l); [reflexivity|].
    destruct (subscript (setitem g p (uint32 (sv + 1)))) as [g1| |]; cbn [bind];
      try reflexivity.
    now rewrite (expand_empty tab tab' Hempty).
  - unfold label_structures_writing. apply for_each_ext.
    intros p [[[sv g] printed] file] _.
    unfold visit_writing.
    destruct (subscript (getitem c p)) as [[|]| |]; cbn [bind]; try reflexivity.
    destruct (subscript (getitem g p)) as [l| |]; cbn [bind]; try reflexivity.
    destruct (0 <? l); [reflexivity|].
    destruct (subscript (setitem g p (uint32 (sv + 1)))) as [g1| |]; cbn [bind];
      try reflexivity.
    now rewrite (expand_empty tab tab' Hempty).
Qed.

Lemma correction_with_empty_table_is_plain_labeling_witness :
  label_structures no_outliers 29 true diagonal_pair 2 2 2
    = label_structures diagonal_outliers 29 false diagonal_pair 2 2 2 /\
  label_structures_writing no_outliers 29 true diagonal_pair 2 2 2 true
    = label_structures_writing diagonal_outliers 29 false diagonal_pair 2 2 2 true.
Proof.
  apply (correction_with_empty_table_is_plain_labeling
           no_outliers diagonal_outliers 29 diagonal_pair 2 2 2 true).
  reflexivity.
Defined.

(* ================================================================== *)
(** * Further properties: when a run returns *)

Lemma statistics_ok_two_labels (labels : list Z) (r : Z * Z) :
  statistics labels = Ok r -> exists a b, In a labels /\ In b labels /\ a < b.
Proof.
  rewrite statistics_descending. intros H.
  pose proof (Permutation_length (descending_perm labels)) as Hlen.
  rewrite length_map in Hlen.
  pose proof (np_unique_sorted labels) as HU.
  pose proof (np_unique_entries labels) as HE.
  destruct (descending labels) as [|M [|V rest]]; try discriminate.
  destruct (np_unique labels) as [|[a n] [|[b m] u]]; try (simpl in Hlen; lia).
  exists a, b.
  split; [apply (HE a n); now left|].
  split; [apply (HE b m); right; now left|].
  inversion HU as [|? ? _ Hall]; subst. rewrite Forall_forall in Hall.
  exact (Hall (b, m) (or_introl eq_refl)).
Qed.

(** X13.  What a call that returns has been given and has done: the
    threshold list holds exactly one value, [c] refers to an object of
    [xlen * ylen * zlen] elements, the store has gained the padded
    occupancy grid of that threshold and nothing else has changed, the
    records are the one record of the pass if [_writePercolationData] is
    set and none otherwise, and the returned grid holds at least two
    different labels: no call returns an all-zero grid. *)
Theorem a_returning_run_has_one_threshold_and_two_labels
  (outliers : Z -> list (list Z)) (fuel : nat) (mc : bool) (h h' : store pyobj)
  (ts : list float) (c : loc) (xlen ylen zlen : Z) (zf wp : bool)
  (records : list (float * Z * Z)) (flat : list Z) :
  extractStructures outliers fuel mc h ts c xlen ylen zlen zf wp
    = Ok (h', records, flat) ->
  exists t o c0,
    ts = [t] /\
    deref h c = Some o /\ obj_size o = xlen * ylen * zlen /\
    np_reshape o (xlen, ylen, zlen) zf = Ok c0 /\
    h' = h ++ [BoolArray3 (pad xlen ylen zlen (threshold (obj_dtype o) t c0))] /\
    (exists Vmax Vall,
       statistics flat = Ok (Vmax, Vall) /\
       records = if wp then [(t, Vmax, Vall)] else []) /\
    (exists a b, In a flat /\ In b flat /\ a < b).
Proof.
  unfold extractStructures. intros H. bind_inv H as st E.
  destruct (structValuedGrid st) as [flat'|] eqn:Eg; [|discriminate].
  injection H as <- <- <-.
  destruct ts as [|t [|t2 ts]].
  - cbn [for_each] in E. injection E as <-. discriminate.
  - cbn [for_each] in E. rewrite bind_ret in E.
    destruct (pass_ok _ _ _ _ _ _ _ _ _ _ _ E) as (o & c0 & Ho & Hr & Hh & _ & _).
    cbn [heap c_ref] in Ho, Hh.
    pose proof (pass_dims _ _ _ _ _ _ _ _ _ _ _ E) as Hdims.
    pose proof (np_reshape_ok o (xlen, ylen, zlen) zf c0 Hdims Hr) as (Hsz & _).
    exists t, o, c0. split; [reflexivity|]. split; [exact Ho|].
    split; [exact Hsz|]. split; [exact Hr|]. split; [exact Hh|].
    unfold pass in E. cbn [heap c_ref] in E. rewrite Ho in E. cbn [bind] in E.
    rewrite Hr in E. cbn [bind] in E. bind_inv E as u Ef. unfold alloc in E.
    bind_inv E as [[sv g] pr] El. bind_inv E as [Vmax Vall] Es.
    injection E as <-. cbn [structValuedGrid] in Eg. injection Eg as <-.
    split.
    + exists Vmax, Vall. split; [exact Es|]. cbn [percolation app]. now destruct wp.
    + exact (statistics_ok_two_labels _ _ Es).
  - cbn [for_each] in E. bind_inv E as st1 E1.
    rewrite (second_pass_raises _ _ _ _ _ _ _ _ _ t2 _ _ E1) in E. discriminate.
Qed.

Lemma a_returning_run_has_one_threshold_and_two_labels_witness :
  exists t o c0,
    [1%float] = [t] /\
    deref two_of_three 0%nat = Some o /\ obj_size o = 3 * 1 * 1 /\
    np_reshape o (3, 1, 1) true = Ok c0 /\
    two_of_three ++ [BoolArray3 (pad 3 1 1 (threshold float32 1%float
       (mkArr (3, 1, 1)
          (fun q => nth (Z.to_nat (flat_index true (3, 1, 1) q))
                        (map (cast float32) [2%float; 2%float; 0%float]) 0%float))))]
      = two_of_three ++ [BoolArray3 (pad 3 1 1 (threshold (obj_dtype o) t c0))] /\
    (exists Vmax Vall,
       statistics [1; 1; 0] = Ok (Vmax, Vall) /\
       [(1%float, 1, 1)] = if true then [(t, Vmax, Vall)] else []) /\
    (exists a b, In a [1; 1; 0] /\ In b [1; 1; 0] /\ a < b).
Proof.
  apply (a_returning_run_has_one_threshold_and_two_labels
           no_outliers 5 false two_of_three _ [1%float] 0%nat 3 1 1 true true
           [(1%float, 1, 1)] [1; 1; 0]).
  reflexivity.
Defined.

(* ================================================================== *)
(** * Further properties: counting twice on the same object *)

Lemma filter_length_le {A : Type} (f g : A -> bool) (l : list A) :
  (forall x, In x l -> f x = true -> g x = true) ->
  (length (filter f l) <= length (filter g l))%nat.
Proof.
  induction l as [|x l IH]; intros H; cbn [filter]; [lia|].
  assert (IH' : (length (filter f l) <= length (filter g l))%nat)
    by (apply IH; intros y Hy; apply H; now right).
  pose proof (H x (or_introl eq_refl)) as Hx.
  destruct (f x), (g x); simpl; try lia; discriminate (Hx eq_refl).
Qed.

Lemma block_or_holds_cell (a : ndarray bool) (r : idx3) (t : Z) :
  0 < t -> cell a r = true -> block_or a r t = true.
Proof.
  intros Ht Hr. apply block_or_true. exists (0, 0, 0). split.
  - apply in_shape_true. lia.
  - destruct r as [[i j] k]. cbn [idx3_add]. now rewrite !Z.add_0_r.
Qed.

(** A reduced array holds every true cell of the field it was reduced
    from, so it has at least as many occupied boxes at every level. *)
Lemma reduced_box_count (P : nat) (a a' : ndarray bool) (m : nat) :
  (m <= P)%nat -> reduced P a P a' ->
  box_count a (2 ^ Z.of_nat P) (2 ^ Z.of_nat m)
  <= box_count a' (2 ^ Z.of_nat P) (2 ^ Z.of_nat m).
Proof.
  intros Hm [Hs Hred]. unfold box_count. apply inj_le. apply filter_length_le.
  intros q Hq H. apply coords_In in Hq. apply andb_true_iff in H.
  destruct H as [Hal Hb]. rewrite Hal. cbn [andb].
  apply block_or_true in Hb. destruct Hb as (d & Hd & Hcell).
  apply block_or_true. exists d. split; [exact Hd|].
  rewrite Hred.
  - apply block_or_holds_cell; [apply pow2_pos|exact Hcell].
  - pose proof (pow2_pos m) as Hpm.
    pose proof (pow2_divides m P Hm) as Hdiv.
    destruct q as [[i j] k], d as [[dx dy] dz].
    apply in_shape_true in Hq, Hd. unfold aligned in Hal.
    rewrite !andb_true_iff, !Z.eqb_eq in Hal. destruct Hal as [[Hi Hj] Hk].
    pose proof (multiple_room i _ _ Hpm (proj1 Hq) Hi Hdiv).
    pose proof (multiple_room j _ _ Hpm (proj1 (proj2 Hq)) Hj Hdiv).
    pose proof (multiple_room k _ _ Hpm (proj2 (proj2 Hq)) Hk Hdiv).
    cbn [idx3_add]. apply in_shape_true. lia.
Qed.

(** X14.  Because [boxCountFunc] reduces the caller's array in place, a
    second call on the same object counts the reduced array, not the
    field: on a cube of side [2^P] with at least one level both calls
    return, with the same box sides, the entries of the second are the
    box counts of the array the first call left behind (as [float32]), and
    at every level that count, and so the entry, is at least that of the
    first call; on [corner_cube] it is larger ([1; 1] becomes [2; 1]). *)
Theorem boxCountFunc_twice_counts_the_reduced_array
  (h : store (ndarray bool)) (c : loc) (a : ndarray bool) (P : nat) :
  (0 < P)%nat ->
  deref h c = Some a ->
  shape a = (2 ^ Z.of_nat P, 2 ^ Z.of_nat P, 2 ^ Z.of_nat P) ->
  exists h1 n1 r1 h2 n2 a1,
    boxCountFunc h c (Z.of_nat P) (2 ^ Z.of_nat P) = Ok (h1, (n1, r1)) /\
    boxCountFunc h1 c (Z.of_nat P) (2 ^ Z.of_nat P) = Ok (h2, (n2, r1)) /\
    deref h1 c = Some a1 /\
    forall m, (m <= P)%nat ->
      nth_error n1 m
        = Some (float32_of_int (box_count a (2 ^ Z.of_nat P) (2 ^ Z.of_nat m))) /\
      nth_error n2 m
        = Some (float32_of_int (box_count a1 (2 ^ Z.of_nat P) (2 ^ Z.of_nat m))) /\
      box_count a (2 ^ Z.of_nat P) (2 ^ Z.of_nat m)
        <= box_count a1 (2 ^ Z.of_nat P) (2 ^ Z.of_nat m) /\
      float32_of_int (box_count a (2 ^ Z.of_nat P) (2 ^ Z.of_nat m))
        <= float32_of_int (box_count a1 (2 ^ Z.of_nat P) (2 ^ Z.of_nat m)).
Proof.
  intros HP Hd Hs. pose proof (deref_bound h c a Hd) as Hc.
  assert (Hlen : length (repeat 0 (length (rev (range (Z.of_nat P))) + 1)) = S P)
    by (now rewrite repeat_length, length_rev, range_length, Nat2Z.id, Nat.add_1_r).
  destruct (computeFast_run h c P a _ Hc Hs Hlen) as (a1 & n & Hrun & Hred & _ & _).
  destruct (computeFast_count h c P a _ Hc Hs Hlen) as (a1' & n1 & Hrun1 & _ & Hcnt1).
  rewrite Hrun in Hrun1. injection Hrun1 as _ ->.
  pose proof (proj1 Hred) as Hs1.
  destruct (computeFast_count h c P a1 _ Hc Hs1 Hlen) as (a2 & n2 & Hrun2 & _ & Hcnt2).
  exists (update h c a1), n1, (map (fun e => 2 ^ e) (range (Z.of_nat P + 1))),
         (update (update h c a1) c a2), n2, a1.
  split; [|split; [|split]].
  - rewrite (boxCountFunc_levels h c a P _ HP Hd), Hs.
    rewrite <- (update_deref h c a Hd) at 1. rewrite Hrun. reflexivity.
  - rewrite (boxCountFunc_levels (update h c a1) c a1 P _ HP)
      by (now apply deref_update_same).
    rewrite Hs1, Hrun2. cbn [bind]. now rewrite update_update.
  - now apply deref_update_same.
  - intros m Hm. split; [now apply Hcnt1|]. split; [now apply Hcnt2|].
    assert (Hle : box_count a (2 ^ Z.of_nat P) (2 ^ Z.of_nat m)
                  <= box_count a1 (2 ^ Z.of_nat P) (2 ^ Z.of_nat m))
      by (now apply reduced_box_count).
    split; [exact Hle|].
    apply float32_of_int_mono. split; [unfold box_count; lia|exact Hle].
Qed.

Lemma boxCountFunc_twice_counts_the_reduced_array_witness :
  exists h1 n1 r1 h2 n2 a1,
    boxCountFunc [corner_cube] 0%nat (Z.of_nat 1) (2 ^ Z.of_nat 1) = Ok (h1, (n1, r1)) /\
    boxCountFunc h1 0%nat (Z.of_nat 1) (2 ^ Z.of_nat 1) = Ok (h2, (n2, r1)) /\
    deref h1 0%nat = Some a1 /\
    forall m, (m <= 1)%nat ->
      nth_error n1 m
        = Some (float32_of_int (box_count corner_cube (2 ^ Z.of_nat 1) (2 ^ Z.of_nat m))) /\
      nth_error n2 m
        = Some (float32_of_int (box_count a1 (2 ^ Z.of_nat 1) (2 ^ Z.of_nat m))) /\
      box_count corner_cube (2 ^ Z.of_nat 1) (2 ^ Z.of_nat m)
        <= box_count a1 (2 ^ Z.of_nat 1) (2 ^ Z.of_nat m) /\
      float32_of_int (box_count corner_cube (2 ^ Z.of_nat 1) (2 ^ Z.of_nat m))
        <= float32_of_int (box_count a1 (2 ^ Z.of_nat 1) (2 ^ Z.of_nat m)).
Proof.
  apply (boxCountFunc_twice_counts_the_reduced_array [corner_cube] 0%nat corner_cube 1);
    first [lia | reflexivity].
Defined.

(** On [corner_cube] the second call counts more: [1; 1], then [2; 1]. *)
Example corner_cube_counted_twice :
  match boxCountFunc [corner_cube] 0%nat 1 2 with
  | Ok (h1, (n1, _)) =>
      match boxCountFunc h1 0%nat 1 2 with
      | Ok (_, (n2, _)) => n1 = [1; 1] /\ n2 = [2; 1]
      | _ => False
      end
  | _ => False
  end.
Proof. vm_compute. auto. Qed.

(* ================================================================== *)
(** * Further properties: what the correction does to the structures *)

(** X15.  The marching-cubes correction can only split structures.  On
    the same grid the scan with the correction (and a table that names
    linked corners only) and the scan without it both return and label the
    same cells; two cells that share a label with the correction share one
    without it, so every corrected structure lies inside one plain
    structure; and the corrected scan finds at least as many
    structures. *)
Theorem correction_only_splits_structures
  (tab tab' : Z -> list (list Z)) (c : ndarray bool) (xlen ylen zlen : Z) (fuel : nat) :
  0 <= xlen -> 0 <= ylen -> 0 <= zlen ->
  padded c xlen ylen zlen ->
  table_wf tab ->
  (xlen + 1) * (ylen + 1) * (zlen + 1) < 2 ^ 32 ->
  (Z.to_nat ((xlen + 1) * (ylen + 1) * (zlen + 1)) + 2 <= fuel)%nat ->
  exists sv1 g1 printed1 sv0 g0 printed0,
    label_structures tab fuel true c xlen ylen zlen = Ok (sv1, g1, printed1) /\
    label_structures tab' fuel false c xlen ylen zlen = Ok (sv0, g0, printed0) /\
    (forall p, 0 < cell g1 p <-> 0 < cell g0 p) /\
    (forall p q, 0 < cell g1 p -> cell g1 p = cell g1 q -> cell g0 p = cell g0 q) /\
    sv0 <= sv1.
Proof.
  intros Hx Hy Hz Hpad Hwf Hsize Hfuel.
  assert (Hfuel' : (cells xlen ylen zlen + 2 <= fuel)%nat)
    by (rewrite cells_size by lia; exact Hfuel).
  assert (Hsize' : Z.of_nat (cells xlen ylen zlen) < 2 ^ 32)
    by (rewrite cells_size by lia; lia).
  destruct (label_structures_writing_inv c xlen ylen zlen Hx Hy Hz Hpad tab true
              (or_intror Hwf) fuel Hfuel' false Hsize')
    as (sv1 & g1 & pr1 & f1' & _ & Hrun1 & Hinv1 & Hw1 & _).
  destruct (label_structures_writing_inv c xlen ylen zlen Hx Hy Hz Hpad tab' false
              (or_introl eq_refl) fuel Hfuel' false Hsize')
    as (sv0 & g0 & pr0 & f0' & _ & Hrun0 & Hinv0 & _).
  destruct Hinv1 as ((_ & Hnn1) & Hsv1 & Hb1 & Hocc1 & Hpre1 & _).
  destruct Hinv0 as ((_ & Hnn0) & Hsv0 & Hb0 & Hocc0 & Hpre0 & _ & Hseed0 & _ & Hcl0).
  assert (Hin : forall q, cell c q = true ->
                          In q (coords (xlen + 1, ylen + 1, zlen + 1))).
  { intros q Hq. apply coords_In. apply (inner_in_shape xlen ylen zlen).
    now apply Hpad. }
  assert (Hpos1 : forall q, cell c q = true -> 0 < cell g1 q)
    by (intros q Hq; apply Hpre1; auto).
  assert (Hpos0 : forall q, cell c q = true -> 0 < cell g0 q)
    by (intros q Hq; apply Hpre0; auto).
  assert (Hjoin : forall p q, 0 < cell g1 p -> cell g1 p = cell g1 q -> connected c p q).
  { intros p q Hp E. destruct (Hw1 (cell g1 p)) as (w & Hwm & Hwc).
    - pose proof (Hb1 p). lia.
    - apply (connected_trans c p w q).
      + apply connected_sym. now apply Hwc.
      + apply Hwc. now symmetry. }
  assert (Hcomp : forall p q, connected c p q -> cell g0 p = cell g0 q).
  { intros p q Hpq. induction Hpq as [p Hp|p d q Hp Hd Hpq IH]; [reflexivity|].
    rewrite <- IH. symmetry.
    apply (Hcl0 eq_refl); auto; now apply connected_occupied in Hpq. }
  assert (Href : forall p q, 0 < cell g1 p -> cell g1 p = cell g1 q ->
                             cell g0 p = cell g0 q)
    by (intros p q Hp E; apply Hcomp; now apply Hjoin).
  exists sv1, g1, pr1, sv0, g0, pr0.
  split; [exact Hrun1|]. split; [exact Hrun0|]. split; [|split; [exact Href|]].
  - intros p. split; intros H; [apply Hpos0, Hocc1|apply Hpos1, Hocc0]; exact H.
  - assert (Hlist : forall k, (Z.of_nat k <= sv0) ->
              exists L, length L = k /\ NoDup L /\
                forall v, In v L ->
                  0 < v <= sv1 /\
                  exists w, cell g1 w = v /\ 0 < cell g0 w <= Z.of_nat k).
    { induction k as [|k IH]; intros Hk.
      - exists []. split; [reflexivity|]. split; [constructor|]. intros v [].
      - destruct IH as (L & Hlen & Hnd & HL); [lia|].
        destruct (Hseed0 (Z.of_nat (S k))) as (w & _ & Hw); [lia|].
        assert (Hwocc : cell c w = true) by (apply Hocc0; lia).
        pose proof (Hpos1 w Hwocc) as Hw1pos.
        exists (cell g1 w :: L). split; [simpl; now rewrite Hlen|]. split.
        + constructor; [|exact Hnd]. intros Hv.
          destruct (HL _ Hv) as (_ & w' & E & Hw').
          assert (E0 : cell g0 w = cell g0 w') by (apply Href; [exact Hw1pos|now symmetry]).
          lia.
        + intros v [<-|Hv].
          * split; [pose proof (Hb1 w); lia|]. exists w. split; [reflexivity|lia].
          * destruct (HL v Hv) as (Hr & w' & E & Hw'). split; [exact Hr|].
            exists w'. split; [exact E|lia]. }
    destruct (Hlist (Z.to_nat sv0)) as (L & Hlen & Hnd & HL); [lia|].
    assert (Hincl : incl L (map Z.of_nat (seq 1 (Z.to_nat sv1)))).
    { intros v Hv. destruct (HL v Hv) as (Hr & _). apply in_map_iff.
      exists (Z.to_nat v). split; [lia|]. apply in_seq. lia. }
    pose proof (NoDup_incl_length Hnd Hincl) as Hle.
    rewrite length_map, length_seq, Hlen in Hle. lia.
Qed.

Lemma correction_only_splits_structures_witness :
  exists sv1 g1 printed1 sv0 g0 printed0,
    label_structures diagonal_outliers 29 true diagonal_pair 2 2 2
      = Ok (sv1, g1, printed1) /\
    label_structures no_outliers 29 false diagonal_pair 2 2 2 = Ok (sv0, g0, printed0) /\
    (forall p, 0 < cell g1 p <-> 0 < cell g0 p) /\
    (forall p q, 0 < cell g1 p -> cell g1 p = cell g1 q -> cell g0 p = cell g0 q) /\
    sv0 <= sv1.
Proof.
  apply (correction_only_splits_structures
           diagonal_outliers no_outliers diagonal_pair 2 2 2 29); try lia.
  - apply pad_padded. reflexivity.
  - exact diagonal_outliers_wf.
Defined.
